(** * rem-bot: the configuration language of [src/utils/configParser.ts]

    A shallow embedding of the configuration subsystem: the line lexer and
    the value inferencer ([ConfigParser.parseValue]), the path assigner
    ([ConfigParser.setNestedValue]), the deep merger
    ([ConfigParser.deepMerge]), the schema validation done by
    [configSchema.parse], and the resolver [createConfig].

    Conventions of the embedding.

    - A JavaScript string is the list of its UTF-16 code units ([jstr]).
    - A JavaScript number is an IEEE-754 binary64 value ([spec_float] of the
      standard library, precision 53, [emax] 1024); decimal literals are
      rounded to nearest, ties to even.
    - Objects and arrays live in a store ([heap]); a value of object type is
      a reference into it, so aliasing and mutation are those of the
      program.  Only the objects the parser keeps are allocated.
    - The methods of [ConfigParser] are class code and therefore strict mode
      code: an assignment to a property of a primitive raises [TypeError].
    - An object is described by its own properties.  When an operation would
      resolve a property name through a built-in prototype
      ([__proto__], [constructor], [toString], ...) the run leaves the
      store described here; such a run ends in the outcome [Host], about
      which nothing is stated.

    The callers of the resolver are embedded with it: the handler of the
    push event in [src/index.ts], the callback that
    [generateWeeklyStats] of [src/services/stats.ts] runs for each
    repository, and the helpers [truncateText] and [parsePatch] of
    [src/events/push.ts].  The fetch of the file, the calls of the API,
    [createCommit] and the measuring of a text are capabilities: what they
    answer is a parameter. *)

From Stdlib Require Import List NArith ZArith Lia String Ascii Bool PeanoNat.
From Stdlib Require Import SpecFloat.
Import ListNotations.

Set Implicit Arguments.
Set Warnings "-register-all".

(** ** Strings *)

Definition jstr := list N.

Definition js (s : string) : jstr :=
  map N_of_ascii (list_ascii_of_string s).

Definition unit_of (c : ascii) : N := N_of_ascii c.

Fixpoint jstr_eqb (a b : jstr) : bool :=
  match a, b with
  | [], [] => true
  | x :: a', y :: b' => N.eqb x y && jstr_eqb a' b'
  | _, _ => false
  end.

Definition isNil {A} (l : list A) : bool :=
  match l with [] => true | _ => false end.

(** LineTerminator of ECMA-262: LF, CR, LS, PS. *)
Definition isLineTerminator (c : N) : bool :=
  (N.eqb c 10 || N.eqb c 13 || N.eqb c 8232 || N.eqb c 8233)%bool.

(** WhiteSpace of ECMA-262: TAB, VT, FF, SP, NBSP, ZWNBSP and category Zs. *)
Definition isWhiteSpace (c : N) : bool :=
  (N.eqb c 9 || N.eqb c 11 || N.eqb c 12 || N.eqb c 32 || N.eqb c 160
   || N.eqb c 5760 || (N.leb 8192 c && N.leb c 8202)
   || N.eqb c 8239 || N.eqb c 8287 || N.eqb c 12288 || N.eqb c 65279)%bool.

(** The code units removed by [String.prototype.trim] and skipped by
    [Number] around a numeric literal. *)
Definition isStrWhiteSpaceChar (c : N) : bool :=
  (isWhiteSpace c || isLineTerminator c)%bool.

Fixpoint trimStart (s : jstr) : jstr :=
  match s with
  | [] => []
  | c :: r => if isStrWhiteSpaceChar c then trimStart r else s
  end.

Definition trimEnd (s : jstr) : jstr := rev (trimStart (rev s)).

Definition trim (s : jstr) : jstr := trimEnd (trimStart s).

(** [s.split(sep)] for a separator of one code unit. *)
Fixpoint split (sep : N) (s : jstr) : list jstr :=
  match s with
  | [] => [[]]
  | c :: r =>
      if N.eqb c sep then [] :: split sep r
      else match split sep r with
           | p :: ps => (c :: p) :: ps
           | [] => [[c]]
           end
  end.

Definition startsWith (c : N) (s : jstr) : bool :=
  match s with
  | d :: _ => N.eqb d c
  | [] => false
  end.

Definition includes (c : N) (s : jstr) : bool := existsb (N.eqb c) s.

(** [toLowerCase], on the ASCII letters.  Outside ASCII no code point
    lower-cases to one of the letters of [true] and [false], so the two
    comparisons of [parseValue] are decided by this mapping. *)
Definition lowerUnit (c : N) : N :=
  if (N.leb 65 c && N.leb c 90)%bool then (c + 32)%N else c.

Definition toLowerCase (s : jstr) : jstr := map lowerUnit s.

(** Every code unit of [s] is matched by the regular expression atom [.]
    (no [s] flag: anything but a line terminator). *)
Definition allDot (s : jstr) : bool :=
  forallb (fun c => negb (isLineTerminator c)) s.

Definition chLBracket : N := 91.
Definition chRBracket : N := 93.
Definition chEquals : N := 61.
Definition chHash : N := 35.
Definition chDot : N := 46.
Definition chComma : N := 44.
Definition chSlash : N := 47.
Definition chNewline : N := 10.
Definition chDQuote : N := 34.
Definition chSQuote : N := 39.

(** [trimmedLine.match(/^\[(.+)\]$/)]: the captured group, if any. *)
Definition sectionMatch (t : jstr) : option jstr :=
  match t with
  | c :: r =>
      match rev r with
      | d :: m =>
          if (N.eqb c chLBracket && N.eqb d chRBracket
              && negb (isNil m) && allDot m)%bool
          then Some (rev m) else None
      | [] => None
      end
  | [] => None
  end.

(** The lazy scan of [/^(.+?)=(.+)$/]: [key] holds, reversed, the units
    already taken by the first group. *)
Fixpoint kvScan (key rest : jstr) : option (jstr * jstr) :=
  match rest with
  | [] => None
  | c :: r =>
      if (negb (isNil key) && N.eqb c chEquals && negb (isNil r) && allDot r)%bool
      then Some (rev key, r)
      else if isLineTerminator c then None
      else kvScan (c :: key) r
  end.

(** [trimmedLine.match(/^(.+?)=(.+)$/)]: the two captured groups. *)
Definition kvMatch (t : jstr) : option (jstr * jstr) := kvScan [] t.

Definition isQuote (c : N) : bool := (N.eqb c chDQuote || N.eqb c chSQuote)%bool.

(** [trimmed.replace(/^["'](.+)["']$/, '$1')]. *)
Definition stripQuotes (t : jstr) : jstr :=
  match t with
  | c :: r =>
      match rev r with
      | d :: m =>
          if (isQuote c && isQuote d && negb (isNil m) && allDot m)%bool
          then rev m else t
      | [] => t
      end
  | [] => t
  end.

(** ** Numbers *)

Definition number := spec_float.

Definition prec64 : Z := 53.
Definition emax64 : Z := 1024.

Definition isNaN (x : number) : bool :=
  match x with S754_nan => true | _ => false end.

(** The double nearest to [m * 10^e], with the sign [neg]. *)
Definition roundDecimal (neg : bool) (m : N) (e : Z) : number :=
  match m with
  | N0 => S754_zero neg
  | Npos p =>
      match e with
      | Zneg k =>
          let '(q, e', l) :=
            SFdiv_core_binary prec64 emax64 (Zpos p) 0 (Z.pow 10 (Zpos k)) 0 in
          binary_round_aux prec64 emax64 neg q e' l
      | _ => binary_round prec64 emax64 neg (Z.to_pos (Zpos p * Z.pow 10 e)) 0
      end
  end.

Definition numberOfN (n : N) : number := roundDecimal false n 0.

Definition isDigit (c : N) : bool := (N.leb 48 c && N.leb c 57)%bool.

Fixpoint takeDigits (s : jstr) : jstr * jstr :=
  match s with
  | c :: r =>
      if isDigit c then let '(d, rest) := takeDigits r in (c :: d, rest)
      else ([], s)
  | [] => ([], [])
  end.

Definition digitsValue (ds : jstr) : N :=
  fold_left (fun acc c => (10 * acc + (c - 48))%N) ds 0%N.

(** The value of a digit in radix [radix], if [c] is one. *)
Definition radixDigit (radix c : N) : option N :=
  let v :=
    if isDigit c then Some (c - 48)%N
    else if (N.leb 97 c && N.leb c 102)%bool then Some (c - 87)%N
    else if (N.leb 65 c && N.leb c 70)%bool then Some (c - 55)%N
    else None in
  match v with
  | Some d => if N.ltb d radix then Some d else None
  | None => None
  end.

Fixpoint radixValue (radix : N) (acc : N) (s : jstr) : option N :=
  match s with
  | [] => Some acc
  | c :: r =>
      match radixDigit radix c with
      | Some d => radixValue radix (radix * acc + d)%N r
      | None => None
      end
  end.

(** NonDecimalIntegerLiteral: [0x], [0o], [0b] and at least one digit. *)
Definition parseNonDecimal (s : jstr) : option N :=
  match s with
  | z :: p :: (_ :: _) as ds =>
      if N.eqb z 48 then
        if (N.eqb p 120 || N.eqb p 88)%bool then radixValue 16 0 ds
        else if (N.eqb p 111 || N.eqb p 79)%bool then radixValue 8 0 ds
        else if (N.eqb p 98 || N.eqb p 66)%bool then radixValue 2 0 ds
        else None
      else None
  | _ => None
  end.

Definition takeSign (s : jstr) : bool * jstr :=
  match s with
  | c :: r =>
      if N.eqb c 43 then (false, r)
      else if N.eqb c 45 then (true, r)
      else (false, s)
  | [] => (false, s)
  end.

(** ExponentPart (optional) up to the end of the literal. *)
Definition parseExponent (s : jstr) : option Z :=
  match s with
  | [] => Some 0%Z
  | c :: r =>
      if (N.eqb c 101 || N.eqb c 69)%bool then
        let '(neg, r') := takeSign r in
        let '(ds, rest) := takeDigits r' in
        if (negb (isNil ds) && isNil rest)%bool
        then Some (if neg then (- Z.of_N (digitsValue ds))%Z
                   else Z.of_N (digitsValue ds))
        else None
      else None
  end.

(** StrUnsignedDecimalLiteral other than [Infinity]: mantissa digits and
    decimal exponent. *)
Definition parseUnsignedDecimal (s : jstr) : option (N * Z) :=
  let '(ip, r1) := takeDigits s in
  match r1 with
  | c :: r2 =>
      if N.eqb c chDot then
        let '(fp, r3) := takeDigits r2 in
        if (isNil ip && isNil fp)%bool then None
        else match parseExponent r3 with
             | Some e =>
                 Some (digitsValue (ip ++ fp), (e - Z.of_nat (List.length fp))%Z)
             | None => None
             end
      else if isNil ip then None
      else match parseExponent r1 with
           | Some e => Some (digitsValue ip, e)
           | None => None
           end
  | [] => if isNil ip then None else Some (digitsValue ip, 0%Z)
  end.

(** StringToNumber of ECMA-262, which [Number(string)] applies. *)
Definition Number (s : jstr) : number :=
  let t := trim s in
  if isNil t then S754_zero false
  else match parseNonDecimal t with
       | Some n => numberOfN n
       | None =>
           let '(neg, u) := takeSign t in
           if jstr_eqb u (js "Infinity") then S754_infinity neg
           else match parseUnsignedDecimal u with
                | Some (m, e) => roundDecimal neg m e
                | None => S754_nan
                end
       end.

(** ** Value inference: [ConfigParser.parseValue] *)

(** The values the inferencer produces: booleans, numbers, strings and
    arrays of these. *)
Inductive lit :=
| LBool (b : bool)
| LNum (n : number)
| LStr (s : jstr)
| LArr (elems : list lit).

(** [depth] bounds the nesting of the recursive calls made through
    [split(',').map]; an element holds no comma, so one level is used. *)
Fixpoint parseValueAt (depth : nat) (value : jstr) : lit :=
  let trimmed := trim value in
  if jstr_eqb (toLowerCase trimmed) (js "true") then LBool true
  else if jstr_eqb (toLowerCase trimmed) (js "false") then LBool false
  else if negb (isNaN (Number trimmed)) then LNum (Number trimmed)
  else if includes chComma trimmed then
    match depth with
    | S d => LArr (map (fun v => parseValueAt d (trim v)) (split chComma trimmed))
    | O => LArr []
    end
  else LStr (stripQuotes trimmed).

Definition parseValue (value : jstr) : lit := parseValueAt 1 value.

(** ** Values and the store *)

Definition addr := nat.

Inductive value :=
| VUndefined
| VBool (b : bool)
| VNum (n : number)
| VStr (s : jstr)
| VRef (a : addr).

Definition props := list (jstr * value).

(** An ordinary object, or an array with its [length]; the elements of an
    array are the properties named by array indices. *)
Inductive cell :=
| Obj (ps : props)
| Arr (len : N) (ps : props).

Definition heap := list cell.

(** The messages of the validator's issues. *)
Inductive ztype := ZObject | ZArray | ZBoolean | ZNumber | ZNan | ZString | ZUndefined.

Inductive issue :=
| Required
| Expected (expected received : ztype).

Inductive error :=
| TypeError
| RangeError
| ZodError (issues : list issue)
| InvalidConfiguration (issues : list issue)
| FetchError (message : jstr).

(** The result of running a piece of the program on a store. *)
Inductive outcome (A : Type) :=
| Ok (a : A) (h : heap)
| Throw (e : error) (h : heap)
| Host.

Arguments Ok {A} a h.
Arguments Throw {A} e h.
Arguments Host {A}.

Definition M (A : Type) := heap -> outcome A.

Definition ret {A} (a : A) : M A := fun h => Ok a h.

Definition bind {A B} (m : M A) (k : A -> M B) : M B :=
  fun h =>
    match m h with
    | Ok a h' => k a h'
    | Throw e h' => Throw e h'
    | Host => Host
    end.

Definition throw {A} (e : error) : M A := fun h => Throw e h.

Definition host {A} : M A := fun _ => Host.

Definition tryCatch {A} (m : M A) (handler : error -> M A) : M A :=
  fun h =>
    match m h with
    | Throw e h' => handler e h'
    | r => r
    end.

Notation "x <- m ;; k" := (bind m (fun x => k))
  (at level 61, m at next level, right associativity).
Notation "m ;;; k" := (bind m (fun _ => k))
  (at level 61, right associativity).

Fixpoint mapM {A B} (f : A -> M B) (l : list A) : M (list B) :=
  match l with
  | [] => ret []
  | x :: r => y <- f x ;; ys <- mapM f r ;; ret (y :: ys)
  end.

Definition alloc (c : cell) : M addr := fun h => Ok (List.length h) (h ++ [c]).

(** A reference always denotes a cell of the store; a store that lacks it
    is not one the program can be in. *)
Definition readCell (a : addr) : M cell :=
  fun h => match nth_error h a with
           | Some c => Ok c h
           | None => Host
           end.

Fixpoint updateAt (h : heap) (a : addr) (c : cell) : heap :=
  match h, a with
  | [], _ => []
  | _ :: t, O => c :: t
  | x :: t, S a' => x :: updateAt t a' c
  end.

Definition writeCell (a : addr) (c : cell) : M unit :=
  fun h => Ok tt (updateAt h a c).

(** *** Property tables *)

Fixpoint assoc (key : jstr) (ps : props) : option value :=
  match ps with
  | [] => None
  | (k, v) :: r => if jstr_eqb k key then Some v else assoc key r
  end.

(** Assignment to an own property: in place when the key exists, appended
    (creation order) otherwise. *)
Fixpoint assocSet (key : jstr) (v : value) (ps : props) : props :=
  match ps with
  | [] => [(key, v)]
  | (k, w) :: r =>
      if jstr_eqb k key then (k, v) :: r else (k, w) :: assocSet key v r
  end.

Fixpoint decimalDigits (fuel : nat) (n : N) (acc : jstr) : jstr :=
  match fuel with
  | O => acc
  | S f =>
      let acc' := (48 + N.modulo n 10)%N :: acc in
      if N.eqb (N.div n 10) 0 then acc' else decimalDigits f (N.div n 10) acc'
  end.

(** The property key of the array index [n]: its decimal numeral. *)
Definition indexKey (n : N) : jstr :=
  decimalDigits (S (N.to_nat (N.log2 n))) n [].

(** Array index of ECMA-262: a canonical numeral below 2^32 - 1. *)
Definition arrayIndex (key : jstr) : option N :=
  match key with
  | [] => None
  | c :: r =>
      if (forallb isDigit key && (isNil r || negb (N.eqb c 48)))%bool then
        if N.ltb (digitsValue key) 4294967295 then Some (digitsValue key)
        else None
      else None
  end.

Fixpoint insertIndexed (x : N * jstr) (l : list (N * jstr)) : list (N * jstr) :=
  match l with
  | [] => [x]
  | y :: r => if N.leb (fst x) (fst y) then x :: l else y :: insertIndexed x r
  end.

Fixpoint indexedKeys (ks : list jstr) : list (N * jstr) :=
  match ks with
  | [] => []
  | k :: r =>
      match arrayIndex k with
      | Some n => insertIndexed (n, k) (indexedKeys r)
      | None => indexedKeys r
      end
  end.

(** OrdinaryOwnPropertyKeys: array indices in ascending order, then the
    other keys in creation order. *)
Definition ownKeys (ps : props) : list jstr :=
  map snd (indexedKeys (map fst ps))
  ++ filter (fun k => match arrayIndex k with Some _ => false | None => true end)
            (map fst ps).

Definition cellProps (c : cell) : props :=
  match c with
  | Obj ps => ps
  | Arr _ ps => ps
  end.

Fixpoint stringProps (i : N) (s : jstr) : props :=
  match s with
  | [] => []
  | c :: r => (indexKey i, VStr [c]) :: stringProps (N.succ i) r
  end.

(** *** Names found on the built-in prototypes *)

Open Scope string_scope.

(** The string-keyed own properties of [Object.prototype]. *)
Definition objectPrototypeNames : list jstr :=
  map js
    ["__proto__"; "constructor"; "hasOwnProperty"; "isPrototypeOf";
     "propertyIsEnumerable"; "toLocaleString"; "toString"; "valueOf";
     "__defineGetter__"; "__defineSetter__"; "__lookupGetter__";
     "__lookupSetter__"].

(** What an array inherits: [Array.prototype] (ECMAScript 2023), then
    [Object.prototype]. *)
Definition arrayPrototypeNames : list jstr :=
  map js
    ["at"; "concat"; "copyWithin"; "entries"; "every"; "fill"; "filter";
     "find"; "findIndex"; "findLast"; "findLastIndex"; "flat"; "flatMap";
     "forEach"; "includes"; "indexOf"; "join"; "keys"; "lastIndexOf"; "map";
     "pop"; "push"; "reduce"; "reduceRight"; "reverse"; "shift"; "slice";
     "some"; "sort"; "splice"; "toReversed"; "toSorted"; "toSpliced";
     "unshift"; "values"; "with"]
  ++ objectPrototypeNames.

Close Scope string_scope.

Definition keyIn (key : jstr) (names : list jstr) : bool :=
  existsb (jstr_eqb key) names.

Definition keyLength : jstr := js "length".
Definition keyProto : jstr := js "__proto__".

(** [key] is not an own property of [c] but is found on its prototype
    chain. *)
Definition inherits (c : cell) (key : jstr) : bool :=
  match c with
  | Obj _ => keyIn key objectPrototypeNames
  | Arr _ _ => keyIn key arrayPrototypeNames
  end.

Definition getOwn (c : cell) (key : jstr) : option value :=
  match c with
  | Obj ps => assoc key ps
  | Arr len ps =>
      if jstr_eqb key keyLength then Some (VNum (numberOfN len))
      else assoc key ps
  end.

(** *** Conversions *)

Definition truthy (v : value) : bool :=
  match v with
  | VUndefined => false
  | VBool b => b
  | VNum (S754_zero _) => false
  | VNum S754_nan => false
  | VNum _ => true
  | VStr s => negb (isNil s)
  | VRef _ => true
  end.

(** [v instanceof Object]. *)
Definition instanceofObject (v : value) : bool :=
  match v with
  | VRef _ => true
  | _ => false
  end.

(** A number that is its own ToUint32, as an array length must be. *)
Definition uint32OfNumber (x : number) : option N :=
  match x with
  | S754_zero _ => Some 0%N
  | S754_finite false m e =>
      if Z.leb 0 e then
        if Z.ltb (Zpos m * Z.pow 2 e) 4294967296
        then Some (Z.to_N (Zpos m * Z.pow 2 e)) else None
      else if Z.eqb (Z.modulo (Zpos m) (Z.pow 2 (- e))) 0 then
        if Z.ltb (Z.div (Zpos m) (Z.pow 2 (- e))) 4294967296
        then Some (Z.to_N (Z.div (Zpos m) (Z.pow 2 (- e)))) else None
      else None
  | _ => None
  end.

(** What assigning [v] to the [length] of an array asks for:
    [Some (Some n)] a new length, [Some None] a [RangeError], and [None]
    where the conversion of [v] to a number is not described here: [v]
    carries a [toString] or [valueOf] of its own, or is an array with
    fewer than two elements or with an object among them.  A plain object
    converts to a text that is no numeral, and so does an array of two or
    more primitive elements (its text holds a comma).  The path assigner
    only assigns numbers, new empty objects and what [parseValue]
    returned (see [store_inferred]), so it never meets the last case. *)
Definition lengthOfValue (h : heap) (v : value) : option (option N) :=
  match v with
  | VUndefined => Some None
  | VBool b => Some (Some (if b then 1 else 0)%N)
  | VNum x => Some (uint32OfNumber x)
  | VStr s => Some (uint32OfNumber (Number s))
  | VRef a =>
      match nth_error h a with
      | Some c =>
          if (keyIn (js "toString") (map fst (cellProps c))
              || keyIn (js "valueOf") (map fst (cellProps c)))%bool
          then None
          else match c with
               | Obj _ => Some None
               | Arr len ps =>
                   if (N.leb 2 len
                       && negb (existsb (fun kv => instanceofObject (snd kv)) ps))%bool
                   then Some None else None
               end
      | None => None
      end
  end.

(** *** Reading and writing properties *)

(** [base[key]] on an object of the store.  A key that is no own
    property and names a member of the built-in prototype is found on an
    object that the store does not hold: the run goes on there, in
    [Host]. *)
Definition getProp (a : addr) (key : jstr) : M value :=
  c <- readCell a ;;
  match getOwn c key with
  | Some v => ret v
  | None => if inherits c key then host else ret VUndefined
  end.

(** [base[key]] on any value ([deepMerge] reads [source[key]] and
    [target[key]]). *)
Definition getValue (base : value) (key : jstr) : M value :=
  match base with
  | VRef a => getProp a key
  | VStr s =>
      match arrayIndex key with
      | Some i =>
          match nth_error s (N.to_nat i) with
          | Some c => ret (VStr [c])
          | None => ret VUndefined
          end
      | None =>
          if jstr_eqb key keyLength
          then ret (VNum (numberOfN (N.of_nat (List.length s))))
          else host
      end
  | VUndefined => throw TypeError
  | _ => host
  end.

(** [base[key] = v] on an object of the store: ordinary objects take the
    property; arrays also keep their [length] in step.  Where the key is
    no own property and names a member of the built-in prototype, what
    the assignment does is decided by the property found there (a setter
    for [__proto__]): the run goes on in [Host]. *)
Definition setProp (a : addr) (key : jstr) (v : value) : M unit :=
  c <- readCell a ;;
  match c with
  | Obj ps =>
      match assoc key ps with
      | Some _ => writeCell a (Obj (assocSet key v ps))
      | None =>
          if inherits c key then host
          else writeCell a (Obj (assocSet key v ps))
      end
  | Arr len ps =>
      if jstr_eqb key keyLength then
        fun h =>
          match lengthOfValue h v with
          | Some (Some n) =>
              writeCell a
                (Arr n (filter (fun kv =>
                                  match arrayIndex (fst kv) with
                                  | Some i => N.ltb i n
                                  | None => true
                                  end) ps)) h
          | Some None => Throw RangeError h
          | None => Host
          end
      else
        match arrayIndex key with
        | Some i =>
            writeCell a (Arr (if N.leb len i then N.succ i else len)
                             (assocSet key v ps))
        | None =>
            match assoc key ps with
            | Some _ => writeCell a (Arr len (assocSet key v ps))
            | None =>
                if inherits c key then host
                else writeCell a (Arr len (assocSet key v ps))
            end
        end
  end.

(** [base[key] = v] in strict mode code.  A primitive takes no property;
    only [__proto__] finds a setter on the way. *)
Definition setValue (base : value) (key : jstr) (v : value) : M unit :=
  match base with
  | VRef a => setProp a key v
  | VUndefined => throw TypeError
  | _ => if jstr_eqb key keyProto then host else throw TypeError
  end.

(** [key in target]. *)
Definition hasProperty (target : value) (key : jstr) : M bool :=
  match target with
  | VRef a =>
      c <- readCell a ;;
      match getOwn c key with
      | Some _ => ret true
      | None => ret (inherits c key)
      end
  | _ => throw TypeError
  end.

(** The own enumerable properties copied by [{ ...target }]. *)
Definition spreadProps (target : value) : M props :=
  match target with
  | VRef a =>
      c <- readCell a ;;
      ret (map (fun k => (k, match assoc k (cellProps c) with
                             | Some v => v
                             | None => VUndefined
                             end))
               (ownKeys (cellProps c)))
  | VStr s => ret (stringProps 0 s)
  | _ => ret []
  end.

(** The keys visited by [for (const key in source)]: the own keys, the
    built-in prototypes as loaded having no enumerable property.  No run
    described here writes a built-in prototype: a key path that reaches
    one ends in [Host]. *)
Definition forInKeys (source : value) : M (list jstr) :=
  match source with
  | VRef a => c <- readCell a ;; ret (ownKeys (cellProps c))
  | VStr s => ret (map fst (stringProps 0 s))
  | _ => ret []
  end.

(** ** The program *)

(** *** [defaultConfig] and [configSchema] *)

Definition defaultConfig : addr := 0.

(** The store when the module has been loaded: the object literal of
    [defaultConfig], one cell per nested literal. *)
Definition initialHeap : heap :=
  [ Obj [(js "github", VRef 1); (js "stats", VRef 3)];
    Obj [(js "commits", VRef 2)];
    Obj [(js "postToBluesky", VBool true)];
    Obj [(js "enable", VBool true)] ].

Inductive schema :=
| ZObjectSchema (shape : list (jstr * schema))
| ZBooleanDefault (dflt : bool).

Definition configSchema : schema :=
  ZObjectSchema
    [ (js "github",
       ZObjectSchema
         [ (js "commits",
            ZObjectSchema [ (js "postToBluesky", ZBooleanDefault true) ]) ]);
      (js "stats", ZObjectSchema [ (js "enable", ZBooleanDefault true) ]) ].

(** What a successful validation returns, before it is allocated. *)
Inductive validated :=
| VdBool (b : bool)
| VdObject (fields : list (jstr * validated)).

Definition parsedType (h : heap) (v : value) : ztype :=
  match v with
  | VUndefined => ZUndefined
  | VBool _ => ZBoolean
  | VNum x => if isNaN x then ZNan else ZNumber
  | VStr _ => ZString
  | VRef a =>
      match nth_error h a with
      | Some (Arr _ _) => ZArray
      | _ => ZObject
      end
  end.

Definition invalidType (expected : ztype) (h : heap) (v : value) : issue :=
  match v with
  | VUndefined => Required
  | _ => Expected expected (parsedType h v)
  end.

(** The fields of an object schema against the properties [ps] of the
    data; [check] validates one field. *)
Fixpoint validateFields (check : schema -> value -> list issue * option validated)
         (ps : props) (shape : list (jstr * schema))
  : list issue * option (list (jstr * validated)) :=
  match shape with
  | [] => ([], Some [])
  | (k, s) :: rest =>
      let field := match assoc k ps with
                   | Some v => v
                   | None => VUndefined
                   end in
      let '(i1, r1) := check s field in
      let '(i2, r2) := validateFields check ps rest in
      (i1 ++ i2,
       match r1, r2 with
       | Some x, Some fs => Some ((k, x) :: fs)
       | _, _ => None
       end)
  end.

(** The validator reads the declared keys of [data] and collects every
    issue; undeclared keys are dropped. *)
Fixpoint validate (h : heap) (s : schema) (data : value)
  : list issue * option validated :=
  match s with
  | ZBooleanDefault d =>
      match data with
      | VUndefined => ([], Some (VdBool d))
      | VBool b => ([], Some (VdBool b))
      | _ => ([invalidType ZBoolean h data], None)
      end
  | ZObjectSchema shape =>
      match data with
      | VRef a =>
          match nth_error h a with
          | Some (Obj ps) =>
              let '(issues, r) := validateFields (validate h) ps shape in
              (issues, match r with
                       | Some fs => Some (VdObject fs)
                       | None => None
                       end)
          | _ => ([invalidType ZObject h data], None)
          end
      | _ => ([invalidType ZObject h data], None)
      end
  end.

Fixpoint allocFields (allocOne : validated -> M value)
         (fields : list (jstr * validated)) : M props :=
  match fields with
  | [] => ret []
  | (k, x) :: rest =>
      v <- allocOne x ;;
      ps <- allocFields allocOne rest ;;
      ret ((k, v) :: ps)
  end.

(** The fresh objects of a validated result. *)
Fixpoint allocValidated (r : validated) : M value :=
  match r with
  | VdBool b => ret (VBool b)
  | VdObject fields =>
      ps <- allocFields allocValidated fields ;;
      a <- alloc (Obj ps) ;;
      ret (VRef a)
  end.

(** [schema.parse(data)]: the validated copy, or a [ZodError]. *)
Definition schemaParse (s : schema) (data : value) : M value :=
  fun h =>
    match validate h s data with
    | ([], Some r) => allocValidated r h
    | (issues, _) => Throw (ZodError issues) h
    end.

(** *** [ConfigParser] *)

Module ConfigParser.

(** The instance state: [this.config], set by the constructor to the
    shared [defaultConfig] object itself. *)
Record t := { config : value }.

Definition new : t := {| config := VRef defaultConfig |}.

Definition getConfig (this : t) : value := config this.

(** The elements of an array literal as its index properties. *)
Fixpoint elementProps (i : N) (vs : list value) : props :=
  match vs with
  | [] => []
  | v :: r => (indexKey i, v) :: elementProps (N.succ i) r
  end.

(** A value returned by [parseValue], placed in the store: arrays are
    objects. *)
Fixpoint store (l : lit) : M value :=
  match l with
  | LBool b => ret (VBool b)
  | LNum n => ret (VNum n)
  | LStr s => ret (VStr s)
  | LArr elems =>
      vs <- mapM store elems ;;
      a <- alloc (Arr (N.of_nat (List.length vs)) (elementProps 0 vs)) ;;
      ret (VRef a)
  end.

(** One turn of the loop of [setNestedValue]:
    [current[key] = current[key] || {}; current = current[key]]. *)
Definition descend (current : value) (key : jstr) : M value :=
  match current with
  | VRef a =>
      old <- getProp a key ;;
      next <- (if truthy old then ret old
               else (o <- alloc (Obj []) ;; ret (VRef o))) ;;
      setProp a key next ;;;
      ret next
  | VUndefined => throw TypeError
  | _ => if jstr_eqb key keyProto then host else throw TypeError
  end.

(** [setNestedValue(obj, path, value)].  With an empty [path] the loop
    does not run and [path[-1]] is [undefined], which names the property
    [undefined]. *)
Fixpoint setNestedValue (obj : value) (path : list jstr) (v : value) : M unit :=
  match path with
  | [] => setValue obj (js "undefined") v
  | [last] => setValue obj last v
  | key :: rest =>
      current <- descend obj key ;;
      setNestedValue current rest v
  end.

(** The body of the loop of [deepMerge] for one key; [recurse] is the
    recursive call. *)
Definition mergeKey (recurse : value -> value -> M value)
           (target source : value) (output : addr) (key : jstr) : M unit :=
  sk <- getValue source key ;;
  if instanceofObject sk then
    present <- hasProperty target key ;;
    if present then
      tk <- getValue target key ;;
      merged <- recurse tk sk ;;
      setProp output key merged
    else setProp output key sk
  else setProp output key sk.

Fixpoint mergeKeys (recurse : value -> value -> M value)
         (target source : value) (output : addr) (keys : list jstr) : M unit :=
  match keys with
  | [] => ret tt
  | key :: rest =>
      mergeKey recurse target source output key ;;;
      mergeKeys recurse target source output rest
  end.

(** [deepMerge(target, source)]; [depth] is what is left of the call
    stack, whose exhaustion is a [RangeError]. *)
Fixpoint deepMerge (depth : nat) (target source : value) : M value :=
  match depth with
  | O => throw RangeError
  | S d =>
      ps <- spreadProps target ;;
      output <- alloc (Obj ps) ;;
      keys <- forInKeys source ;;
      mergeKeys (deepMerge d) target source output keys ;;;
      ret (VRef output)
  end.

(** Frames available to [deepMerge] when [parseContent] calls it. *)
Definition callStackLimit : nat := 1000.

(** The body of the loop over the lines; the result is the current
    section after the line. *)
Definition parseLine (configObj : value) (currentSection line : jstr) : M jstr :=
  let trimmedLine := trim line in
  if (isNil trimmedLine || startsWith chHash trimmedLine)%bool
  then ret currentSection
  else match sectionMatch trimmedLine with
       | Some name => ret name
       | None =>
           match kvMatch trimmedLine with
           | Some (key, value) =>
               let keyPath :=
                 if negb (isNil currentSection)
                 then currentSection ++ chDot :: key
                 else key in
               v <- store (parseValue value) ;;
               setNestedValue configObj (split chDot keyPath) v ;;;
               ret currentSection
           | None => ret currentSection
           end
       end.

Fixpoint parseLines (configObj : value) (currentSection : jstr)
         (lines : list jstr) : M unit :=
  match lines with
  | [] => ret tt
  | line :: rest =>
      section <- parseLine configObj currentSection line ;;
      parseLines configObj section rest
  end.

(** The structural object built from the text, before the merge. *)
Definition buildConfigObj (content : jstr) : M value :=
  o <- alloc (Obj []) ;;
  parseLines (VRef o) [] (split chNewline content) ;;;
  ret (VRef o).

Definition parseContent (this : t) (content : jstr) : M value :=
  configObj <- buildConfigObj content ;;
  tryCatch
    (mergedConfig <- deepMerge callStackLimit (VRef defaultConfig) configObj ;;
     schemaParse configSchema mergedConfig)
    (fun e =>
       match e with
       | ZodError issues => throw (InvalidConfiguration issues)
       | _ => throw e
       end).

Definition parseFile (this : t) (content : jstr) : M value :=
  tryCatch (parseContent this content) (fun e => throw e).

End ConfigParser.

(** *** [createConfig] *)

(** What the awaited [getFileContent] call produced. *)
Inductive fetched :=
| Content (text : jstr)
| Rejected (e : error).

(** The lines written with [console.log]. *)
Inductive logLine :=
| InvalidRepositoryFormat
| UsingDefaultConfig (e : error).

Section Resolver.

(** The external fetch capability of [utils/fs.ts]. *)
Variable getFileContent : jstr -> jstr -> fetched.

Definition createConfig (repository filePath : jstr)
  : M (value * list logLine) :=
  let parser := ConfigParser.new in
  tryCatch
    (match split chSlash repository with
     | owner :: repo :: _ =>
         if (isNil owner || isNil repo)%bool
         then ret (ConfigParser.getConfig parser, [InvalidRepositoryFormat])
         else
           let fullRepoPath := owner ++ chSlash :: repo in
           match getFileContent fullRepoPath filePath with
           | Content content =>
               c <- ConfigParser.parseFile parser content ;;
               ret (c, [])
           | Rejected e => throw e
           end
     | _ => ret (ConfigParser.getConfig parser, [InvalidRepositoryFormat])
     end)
    (fun e => ret (ConfigParser.getConfig parser, [UsingDefaultConfig e])).

End Resolver.

Definition remConf : jstr := js "rem.conf".

(** Reading [obj.k1.k2...] out of the store, own properties only. *)
Fixpoint readPath (h : heap) (v : value) (path : list jstr) : option value :=
  match path with
  | [] => Some v
  | k :: rest =>
      match v with
      | VRef a =>
          match nth_error h a with
          | Some c =>
              match getOwn c k with
              | Some w => readPath h w rest
              | None => None
              end
          | None => None
          end
      | _ => None
      end
  end.

Definition pathPostToBluesky : list jstr :=
  [js "github"; js "commits"; js "postToBluesky"].
Definition pathEnable : list jstr := [js "stats"; js "enable"].


(** A text between two quote characters [q]. *)
Definition quoted (q : N) (s : jstr) : jstr := q :: s ++ [q].

(** ** The vocabulary of the properties *)

Unset Implicit Arguments.

(** A line whose trimmed text is [<key>=], or [=<value>] with no further
    [=] before the last unit of the value. *)
Definition danglingEquals (t : jstr) : Prop :=
  (exists key, t = key ++ [chEquals] /\ includes chEquals key = false) \/
  (exists value, t = chEquals :: value
                 /\ includes chEquals (removelast value) = false).

(** [h] is [h0] with further cells allocated after it: no cell of [h0]
    has been written. *)
Definition prefix (h0 h : heap) : Prop := exists ext, h = h0 ++ ext.

(** What holds of an outcome: [Q] of a result, [E] of the store left by an
    exception, [Hs] when the run reached a built-in object. *)
Definition post {A} (r : outcome A)
           (Q : A -> heap -> Prop) (E : heap -> Prop) (Hs : Prop) : Prop :=
  match r with
  | Ok a h => Q a h
  | Throw _ h => E h
  | Host => Hs
  end.

(** Names that a key path must avoid for the run to stay in the store:
    what arrays and objects inherit. *)
Definition reservedNames : list jstr := arrayPrototypeNames.

Definition reservedPath (path : list jstr) : bool :=
  existsb (fun seg => keyIn seg reservedNames) path.

(** A reference held by cell [a] denotes a cell of the store; from
    [closedFrom] on, cells only refer to cells allocated from there on. *)
Definition refOk (closedFrom : option nat) (n : nat) (a : addr) (w : value) : Prop :=
  match w with
  | VRef b =>
      b < n /\ match closedFrom with
               | Some n0 => n0 <= a -> n0 <= b
               | None => True
               end
  | _ => True
  end.

Definition entryOk (closedFrom : option nat) (n : nat) (a : addr)
           (kv : jstr * value) : Prop :=
  keyIn (fst kv) objectPrototypeNames = false /\ refOk closedFrom n a (snd kv).

(** The invariant of the store: no own property shadows a member of
    [Object.prototype], and references are in range. *)
Definition good (closedFrom : option nat) (h : heap) : Prop :=
  forall a c, nth_error h a = Some c ->
              Forall (entryOk closedFrom (List.length h) a) (cellProps c).

(** A value that may be stored anywhere at or after [n0]. *)
Definition storable (n0 n : nat) (v : value) : Prop :=
  match v with
  | VRef b => n0 <= b < n
  | _ => True
  end.

(** No property of the store holds a reference to cell [b]. *)
Definition unreferenced (b : addr) (h : heap) : Prop :=
  forall a c, nth_error h a = Some c ->
              Forall (fun kv => snd kv <> VRef b) (cellProps c).

(** A value as the inferencer hands it to the path assigner: it converts
    to an array length without running a method of its own, and when it is
    an array nothing refers to it yet. *)
Definition inferred (h : heap) (v : value) : Prop :=
  lengthOfValue h v <> None /\
  match v with
  | VRef b => unreferenced b h
  | _ => True
  end.

(** [current] is not the object [v]. *)
Definition apart (current v : value) : Prop :=
  match v with
  | VRef b => current <> VRef b
  | _ => True
  end.

(** The value of a literal that is no array. *)
Definition primitiveOf (l : lit) : value :=
  match l with
  | LBool b => VBool b
  | LNum n => VNum n
  | LStr s => VStr s
  | LArr _ => VUndefined
  end.

Definition isArrayLit (l : lit) : bool :=
  match l with
  | LArr _ => true
  | _ => false
  end.

(** While the lines of one text are processed: nothing allocated before
    the parse started has been written, and the invariant of the store
    holds with the new cells closed under reference. *)
Definition walking (h0 h : heap) : Prop :=
  prefix h0 h /\ good (Some (List.length h0)) h.

(** Induction on inferred values, through the elements of arrays. *)
Fixpoint lit_nested_ind (P : lit -> Prop)
         (HB : forall b, P (LBool b)) (HN : forall n, P (LNum n))
         (HS : forall s, P (LStr s))
         (HA : forall elems, Forall P elems -> P (LArr elems))
         (l : lit) : P l :=
  match l with
  | LBool b => HB b
  | LNum n => HN n
  | LStr s => HS s
  | LArr elems =>
      HA elems
         ((fix each (es : list lit) : Forall P es :=
             match es with
             | [] => Forall_nil P
             | x :: r => Forall_cons x (lit_nested_ind P HB HN HS HA x) (each r)
             end) elems)
  end.

(** What the loop of [parseContent] makes of one line. *)
Inductive lineKind :=
| Skipped
| SectionHeader (name : jstr)
| Pair (key value : jstr).

Definition classify (line : jstr) : lineKind :=
  let trimmedLine := trim line in
  if (isNil trimmedLine || startsWith chHash trimmedLine)%bool then Skipped
  else match sectionMatch trimmedLine with
       | Some name => SectionHeader name
       | None =>
           match kvMatch trimmedLine with
           | Some (key, value) => Pair key value
           | None => Skipped
           end
       end.

(** The dotted path a key denotes under the current section. *)
Definition keyPathOf (currentSection key : jstr) : list jstr :=
  split chDot (if negb (isNil currentSection)
               then currentSection ++ chDot :: key else key).

(** The key paths a text assigns, in order. *)
Fixpoint keyPaths (currentSection : jstr) (lines : list jstr) : list (list jstr) :=
  match lines with
  | [] => []
  | line :: rest =>
      match classify line with
      | Skipped => keyPaths currentSection rest
      | SectionHeader name => keyPaths name rest
      | Pair key _ => keyPathOf currentSection key :: keyPaths currentSection rest
      end
  end.

(** Some key path of the text has a segment with a reserved name. *)
Definition mentionsReserved (content : jstr) : bool :=
  existsb reservedPath (keyPaths [] (split chNewline content)).

Definition grows (h0 : heap) (h' : heap) : Prop :=
  prefix h0 h' /\ List.length h0 < List.length h'.

(** The stores the program can be in, as far as the parser goes: the
    cells of [defaultConfig] are as loaded, and the invariant holds. *)
Definition stable (h : heap) : Prop := prefix initialHeap h /\ good None h.

(** A value of the default configuration: one of its objects or a
    primitive. *)
Definition targetOk (v : value) : Prop :=
  match v with
  | VRef a => a < 4
  | _ => True
  end.

Definition sourceOk (n : nat) (v : value) : Prop :=
  match v with
  | VRef s => s < n
  | VStr _ => False
  | _ => True
  end.

(** Both declared fields are present and boolean. *)
Definition fieldsBoolean (h : heap) (r : value) : Prop :=
  exists b1 b2,
    readPath h r pathPostToBluesky = Some (VBool b1) /\
    readPath h r pathEnable = Some (VBool b2).

(** The state of the loop of [deepMerge]: [hb] is the store when the call
    started, and [output] the object it allocated. *)
Definition merging (hb : heap) (output : addr) (h : heap) : Prop :=
  stable h /\ prefix hb h /\ exists ps, nth_error h output = Some (Obj ps).

Definition mergeSpec (recurse : value -> value -> M value) : Prop :=
  forall t s h,
    stable h -> targetOk t -> sourceOk (List.length h) s ->
    post (recurse t s h)
         (fun r h' => stable h' /\ prefix h h'
                      /\ exists o, r = VRef o /\ o < List.length h')
         (fun h' => stable h' /\ prefix h h') False.

(** The shape of every value that [configSchema] validates. *)
Definition configTree (b1 b2 : bool) : validated :=
  VdObject
    [ (js "github",
       VdObject [ (js "commits", VdObject [ (js "postToBluesky", VdBool b1) ]) ]);
      (js "stats", VdObject [ (js "enable", VdBool b2) ]) ].

(** The repository identifier is not of the form [owner/repo] with both
    parts non-empty. *)
Definition invalidRepository (repository : jstr) : bool :=
  match split chSlash repository with
  | owner :: repo :: _ => (isNil owner || isNil repo)%bool
  | _ => true
  end.

(** The path that [createConfig] asks the fetch capability for. *)
Definition fullRepoPath (repository : jstr) : jstr :=
  match split chSlash repository with
  | owner :: repo :: _ => owner ++ chSlash :: repo
  | _ => []
  end.

(** One use of the parser by the rest of the program. *)
Inductive invocation :=
| ParseContent (content : jstr)
| CreateConfig (getFileContent : jstr -> jstr -> fetched) (repository filePath : jstr).

(** The store after an invocation, returned or thrown; [None] when the run
    left the store. *)
Definition invoke (i : invocation) (h : heap) : option heap :=
  match i with
  | ParseContent content =>
      match ConfigParser.parseContent ConfigParser.new content h with
      | Ok _ h' => Some h'
      | Throw _ h' => Some h'
      | Host => None
      end
  | CreateConfig getFileContent repository filePath =>
      match createConfig getFileContent repository filePath h with
      | Ok _ h' => Some h'
      | Throw _ h' => Some h'
      | Host => None
      end
  end.

Fixpoint invokeAll (calls : list invocation) (h : heap) : option heap :=
  match calls with
  | [] => Some h
  | i :: rest =>
      match invoke i h with
      | Some h' => invokeAll rest h'
      | None => None
      end
  end.

(** No segment of the path names a member of [Object.prototype]. *)
Definition plainPath (path : list jstr) : bool :=
  forallb (fun seg => negb (keyIn seg objectPrototypeNames)) path.

Definition isPrimitive (v : value) : bool :=
  match v with
  | VRef _ => false
  | _ => true
  end.

(** The two-line text of the counterexample to C2. *)
Definition bananaText : jstr :=
  js "github.commits.postToBluesky=false" ++ chNewline :: js "stats.enable=banana".

(** The store after the text [stats.enable=banana] has been read, and
    after the merge with the defaults. *)
Definition bananaParsed : heap :=
  initialHeap ++ [ Obj [(js "stats", VRef 5)];
                   Obj [(js "enable", VStr (js "banana"))] ].

Definition bananaMerged : heap :=
  bananaParsed ++ [ Obj [(js "github", VRef 1); (js "stats", VRef 7)];
                    Obj [(js "enable", VStr (js "banana"))] ].

(** The two texts of C8. *)
Definition sectionedText : jstr :=
  js "[github.commits]" ++ chNewline :: js "postToBluesky=false".

Definition dottedText : jstr := js "github.commits.postToBluesky=false".

(** [x] is a positive binary64 number with a full significand that lies
    within half a unit in its last place of the fraction [num / den]
    ([den] positive): a double nearest to it. *)
Definition nearestTo (x : number) (num den : Z) : Prop :=
  match x with
  | S754_finite false m e =>
      let k := Z.max 0 (- e) in
      (2 ^ 52 <= Zpos m < 2 ^ 53)%Z
      /\ (2 * Z.abs (Zpos m * 2 ^ (e + k) * den - num * 2 ^ k)
          <= 2 ^ (e + k) * den)%Z
  | _ => False
  end.


(** ** The push handler of [src/index.ts] *)

(** An awaited call of the API, of [createCommit] or of another capability: it resolved, or it
    rejected with an error object whose [response] is set or not. *)
Inductive awaited (A : Type) :=
| Resolved (a : A)
| Failed (response : bool).

Arguments Resolved {A} a.
Arguments Failed {A} response.

Module Index.

(** [CommitAuthor] and [CommitData] of [events/push.ts]; [File] is an
    entry of the [files] of a commit as the API returns it. *)
Record CommitAuthor := {
  name : jstr;
  email : option jstr;
  username : option jstr;
  avatar_url : option jstr }.

Record CommitData (File : Type) := {
  id : jstr;
  message : jstr;
  timestamp : jstr;
  owner : jstr;
  repository : option jstr;
  author : CommitAuthor;
  files : list File }.

Arguments id {File}.
Arguments message {File}.
Arguments timestamp {File}.
Arguments owner {File}.
Arguments repository {File}.
Arguments author {File}.
Arguments files {File}.

(** What the handler reads of the payload of a push event. *)
Record Committer := {
  committer_name : jstr;
  committer_email : option jstr;
  committer_username : option jstr }.

Record Commit := {
  commit_id : jstr;
  commit_message : jstr;
  commit_timestamp : jstr;
  commit_author : Committer }.

Record Owner := {
  login : option jstr;
  owner_name : option jstr }.

Record Repository := {
  private : bool;
  repository_owner : Owner;
  repository_name : jstr }.

Record Payload := {
  commits : list Commit;
  payload_repository : Repository }.

(** The lines written to the console. *)
Inductive line :=
| SkippingPrivateRepository
| NoOwnerFound
| FromCreateConfig (l : logLine)
| SkippingCommitPush (repository : jstr)
| ErrorFetchingUserData
| ErrorProcessingCommit
| ErrorResponse.

(** What the handler does to the outside, in order. *)
Inductive event (File : Type) :=
| Console (l : line)
| GetCommit (owner repo ref : jstr)
| GetByUsername (username : jstr)
| CreateCommit (commit : CommitData File) (files : list File).

Arguments Console {File} l.
Arguments GetCommit {File} owner repo ref.
Arguments GetByUsername {File} username.
Arguments CreateCommit {File} commit files.

(** [a || b] on optional strings. *)
Definition orElse (a b : option jstr) : option jstr :=
  match a with
  | Some (_ :: _) => a
  | _ => b
  end.

Section Handler.

Variable File : Type.

(** The capabilities: the fetch of [utils/fs.ts], the two calls of the
    API and [createCommit] of [events/push.ts]; the number is the position
    of the commit in the payload, so that each call has an answer of its
    own. *)
Variable getFileContent : jstr -> jstr -> fetched.
Variable getCommit : nat -> jstr -> jstr -> jstr -> awaited (option (list File)).
Variable getByUsername : nat -> jstr -> awaited jstr.
Variable createCommit : nat -> CommitData File -> list File -> awaited unit.

(** The [catch] of the loop body. *)
Definition caught (response : bool) : list (event File) :=
  Console ErrorProcessingCommit
  :: (if response then [Console ErrorResponse] else []).

(** The body of the loop over the commits. *)
Definition processCommit (i : nat) (owner : jstr) (repository : Repository)
           (commit : Commit) : list (event File) :=
  GetCommit owner (repository_name repository) (commit_id commit)
  :: match getCommit i owner (repository_name repository) (commit_id commit) with
     | Failed response => caught response
     | Resolved commitData_files =>
         let enrichedCommit (avatar : option jstr) :=
           {| id := commit_id commit;
              message := commit_message commit;
              timestamp := commit_timestamp commit;
              owner := owner;
              repository := Some (repository_name repository);
              author :=
                {| name := committer_name (commit_author commit);
                   email := committer_email (commit_author commit);
                   username := committer_username (commit_author commit);
                   avatar_url := avatar |};
              files := [] |} in
         let '(avatar, userEvents) :=
           match committer_username (commit_author commit) with
           | Some (c :: r) =>
               match getByUsername i (c :: r) with
               | Resolved avatar => (Some avatar, [GetByUsername (c :: r)])
               | Failed _ =>
                   (None, [GetByUsername (c :: r); Console ErrorFetchingUserData])
               end
           | _ => (None, [])
           end in
         let files := match commitData_files with
                      | Some fs => fs
                      | None => []
                      end in
         userEvents
         ++ CreateCommit (enrichedCommit avatar) files
         :: match createCommit i (enrichedCommit avatar) files with
            | Resolved _ => []
            | Failed response => caught response
            end
     end.

Fixpoint processCommits (i : nat) (owner : jstr) (repository : Repository)
         (commits : list Commit) : list (event File) :=
  match commits with
  | [] => []
  | commit :: rest =>
      processCommit i owner repository commit
      ++ processCommits (S i) owner repository rest
  end.

(** The handler of [app.on('push', ...)]. *)
Definition onPush (payload : Payload) : M (list (event File)) :=
  let commits := commits payload in
  let repository := payload_repository payload in
  if private repository then ret [Console SkippingPrivateRepository]
  else
    match orElse (login (repository_owner repository))
                 (owner_name (repository_owner repository)) with
    | Some (c :: r) =>
        let owner := c :: r in
        r <- createConfig getFileContent
                          (owner ++ chSlash :: repository_name repository) remConf ;;
        let '(config, log) := r in
        github <- getValue config (js "github") ;;
        github_commits <- getValue github (js "commits") ;;
        postToBluesky <- getValue github_commits (js "postToBluesky") ;;
        if negb (truthy postToBluesky)
        then ret (map (fun l => Console (FromCreateConfig l)) log
                  ++ [Console (SkippingCommitPush (repository_name repository))])
        else ret (map (fun l => Console (FromCreateConfig l)) log
                  ++ processCommits 0 owner repository commits)
    | _ => ret [Console NoOwnerFound]
    end.

End Handler.

(** The commits that were looked up, in order. *)
Fixpoint lookedUp {File : Type} (events : list (event File)) : list jstr :=
  match events with
  | [] => []
  | GetCommit _ _ ref :: rest => ref :: lookedUp rest
  | _ :: rest => lookedUp rest
  end.

End Index.

(** A push of two commits to the public repository [owner/repo]. *)
Definition pushOfTwo (repository_name : jstr) : Index.Payload :=
  {| Index.commits :=
       [ {| Index.commit_id := js "c1";
            Index.commit_message := js "one";
            Index.commit_timestamp := js "2024-01-01T00:00:00Z";
            Index.commit_author :=
              {| Index.committer_name := js "a";
                 Index.committer_email := None;
                 Index.committer_username := Some (js "a") |} |};
         {| Index.commit_id := js "c2";
            Index.commit_message := js "two";
            Index.commit_timestamp := js "2024-01-02T00:00:00Z";
            Index.commit_author :=
              {| Index.committer_name := js "b";
                 Index.committer_email := None;
                 Index.committer_username := None |} |} ];
     Index.payload_repository :=
       {| Index.private := false;
          Index.repository_owner :=
            {| Index.login := Some (js "owner"); Index.owner_name := None |};
          Index.repository_name := repository_name |} |}.

(** ** The weekly statistics of [src/services/stats.ts] *)

Module StatsService.

(** What [generateWeeklyStats] reads of a repository of the user. *)
Record Repo := {
  owner_login : jstr;
  name : jstr;
  private : bool }.

(** A listed commit as the loop sees it: [date.getTime()] of its author or
    committer date, NaN when the date does not parse, and what [Date.now()]
    returned in that turn. *)
Record ListedCommit := {
  getTime : number;
  now : number }.

(** The counters shared by the callbacks.  They count in steps of one from
    zero, far below 2^53, where the arithmetic of numbers is that of the
    naturals. *)
Record Counters := {
  totalCommits : N;
  totalIssues : N;
  totalPRs : N;
  dailyCommits : list N;
  activeRepos : N }.

Definition initialCounters : Counters :=
  {| totalCommits := 0;
     totalIssues := 0;
     totalPRs := 0;
     dailyCommits := [0; 0; 0; 0; 0; 0; 0]%N;
     activeRepos := 0 |}.

(** [1000 * 60 * 60 * 24]. *)
Definition msPerDay : number := numberOfN 86400000.

(** [Math.floor] of a finite number, as an integer. *)
Definition floor (x : number) : option Z :=
  match x with
  | S754_zero _ => Some 0%Z
  | S754_finite s m e =>
      let z := if s then Z.neg m else Z.pos m in
      Some (if Z.leb 0 e then z * 2 ^ e else Z.div z (2 ^ (- e)))%Z
  | _ => None
  end.

(** [6 - Math.floor((Date.now() - date.getTime()) / (1000 * 60 * 60 * 24))].
    The subtraction and the division are those of binary64.  [None] stands
    for NaN and the infinities, which fail both comparisons of the guard;
    an integer stands for itself: where [6 - d] is not exact in binary64
    it is, like its rounding, far outside the range of the guard. *)
Definition dayIndex (commit : ListedCommit) : option Z :=
  match floor (SFdiv prec64 emax64
                     (SFsub prec64 emax64 (now commit) (getTime commit))
                     msPerDay) with
  | Some d => Some (6 - d)%Z
  | None => None
  end.

(** [dailyCommits[i]++] for an index within the array. *)
Fixpoint incrementAt (i : nat) (l : list N) : list N :=
  match l, i with
  | [], _ => []
  | x :: r, O => N.succ x :: r
  | x :: r, S j => x :: incrementAt j r
  end.

(** The body of [commits.data.forEach]. *)
Definition countCommit (st : Counters) (commit : ListedCommit) : Counters :=
  match dayIndex commit with
  | Some d =>
      if (Z.leb 0 d && Z.ltb d 7)%bool
      then {| totalCommits := N.succ (totalCommits st);
              totalIssues := totalIssues st;
              totalPRs := totalPRs st;
              dailyCommits := incrementAt (Z.to_nat d) (dailyCommits st);
              activeRepos := activeRepos st |}
      else st
  | None => st
  end.

(** What a callback does to the outside, in order. *)
Inductive event :=
| Console (l : logLine)
| LoggerError
| ListCommits (owner repo : jstr)
| ListIssues (owner repo : jstr)
| ListPulls (owner repo : jstr).

Section Callback.

(** The capabilities: the fetch of [utils/fs.ts] and the three calls of
    the API, which answer with the listed commits and with the lengths of
    the two other lists; the number is the position of the repository. *)
Variable getFileContent : jstr -> jstr -> fetched.
Variable listCommits : nat -> jstr -> jstr -> awaited (list ListedCommit).
Variable listForRepo : nat -> jstr -> jstr -> awaited N.
Variable pullsList : nat -> jstr -> jstr -> awaited N.

(** The callback of [repos.map] for the repository at position [i], on
    the counters as they are when it adds to them. *)
Definition forRepo (i : nat) (repo : Repo) (st : Counters)
  : M (Counters * list event) :=
  fun h =>
    match createConfig getFileContent
                       (owner_login repo ++ chSlash :: name repo) remConf h with
    | Ok (config, log) h1 =>
        tryCatch
          (if private repo then ret (st, map Console log)
           else
             stats <- getValue config (js "stats") ;;
             enable <- getValue stats (js "enable") ;;
             if negb (truthy enable) then ret (st, map Console log)
             else
               let active :=
                 {| totalCommits := totalCommits st;
                    totalIssues := totalIssues st;
                    totalPRs := totalPRs st;
                    dailyCommits := dailyCommits st;
                    activeRepos := N.succ (activeRepos st) |} in
               let calls :=
                 [ ListCommits (owner_login repo) (name repo);
                   ListIssues (owner_login repo) (name repo);
                   ListPulls (owner_login repo) (name repo) ] in
               match listCommits i (owner_login repo) (name repo),
                     listForRepo i (owner_login repo) (name repo),
                     pullsList i (owner_login repo) (name repo) with
               | Resolved commits, Resolved issues, Resolved prs =>
                   let counted := fold_left countCommit commits active in
                   ret ({| totalCommits := totalCommits counted;
                           totalIssues := totalIssues counted + issues;
                           totalPRs := totalPRs counted + prs;
                           dailyCommits := dailyCommits counted;
                           activeRepos := activeRepos counted |},
                        map Console log ++ calls)
               | _, _, _ => ret (active, map Console log ++ calls ++ [LoggerError])
               end)
          (fun _ => ret (st, map Console log ++ [LoggerError])) h1
    | Throw _ h1 => Ok (st, [LoggerError]) h1
    | Host => Host
    end.

(** The callbacks of [Promise.all(repos.map(...))], one after the other.
    They interleave only at their awaits; what runs between two awaits is
    a parse, which allocates new cells and writes no other, or additions
    to the counters, and these commute. *)
Fixpoint forRepos (i : nat) (repos : list Repo) (st : Counters)
  : M (Counters * list event) :=
  match repos with
  | [] => ret (st, [])
  | repo :: rest =>
      r <- forRepo i repo st ;;
      r' <- forRepos (S i) rest (fst r) ;;
      ret (fst r', snd r ++ snd r')
  end.

End Callback.

(** The invariant of the counters: seven days, and every counted commit in
    one of them. *)
Definition counted (st : Counters) : Prop :=
  List.length (dailyCommits st) = 7
  /\ totalCommits st = fold_right N.add 0%N (dailyCommits st).

End StatsService.

(** ** [truncateText] of [src/events/push.ts] *)

(** [a > b] on numbers. *)
Definition greater (a b : number) : bool :=
  match SFcompare a b with
  | Some Gt => true
  | _ => false
  end.

Section TruncateText.

(** [ctx.measureText(text).width], with the font that is set. *)
Variable measureText : jstr -> number.

(** The [while] loop, which runs at most once for each code unit of the
    text. *)
Fixpoint truncating (fuel : nat) (maxWidth : number) (truncated : jstr) : jstr :=
  match fuel with
  | O => truncated
  | S f =>
      if (greater (measureText truncated) maxWidth
          && Nat.ltb 0 (List.length truncated))%bool
      then truncating f maxWidth (removelast truncated)
      else truncated
  end.

Definition truncateText (text : jstr) (maxWidth : number) : jstr :=
  let truncated := truncating (List.length text) maxWidth text in
  if Nat.ltb (List.length truncated) (List.length text)
  then truncated ++ js "..."
  else truncated.

End TruncateText.

(** ** [parsePatch] of [src/events/push.ts] *)

Module Push.

Definition chPlus : N := 43.
Definition chMinus : N := 45.

(** What is left of [s] after the literal [w], when [s] starts with it. *)
Fixpoint afterLiteral (w s : jstr) : option jstr :=
  match w, s with
  | [], _ => Some s
  | c :: w', d :: s' => if N.eqb d c then afterLiteral w' s' else None
  | _ :: _, [] => None
  end.

(** [(\d+)] at the start of [s]: the capture and what is left.  The
    quantifier is greedy, and it never gives a digit back: in the pattern
    each run is followed by a literal that starts with no digit. *)
Definition digitRun (s : jstr) : option (jstr * jstr) :=
  match takeDigits s with
  | ([], _) => None
  | (c :: ds, rest) => Some (c :: ds, rest)
  end.

(** [/@@ -(\d+),(\d+) \+(\d+),(\d+) @@/] at the start of [s]: the four
    captures. *)
Definition hunkAt (s : jstr) : option (jstr * jstr * jstr * jstr) :=
  match afterLiteral (js "@@ -") s with
  | None => None
  | Some s1 =>
  match digitRun s1 with
  | None => None
  | Some (oldStart, s2) =>
  match afterLiteral [chComma] s2 with
  | None => None
  | Some s3 =>
  match digitRun s3 with
  | None => None
  | Some (oldLines, s4) =>
  match afterLiteral (js " +") s4 with
  | None => None
  | Some s5 =>
  match digitRun s5 with
  | None => None
  | Some (newStart, s6) =>
  match afterLiteral [chComma] s6 with
  | None => None
  | Some s7 =>
  match digitRun s7 with
  | None => None
  | Some (newLines, s8) =>
  match afterLiteral (js " @@") s8 with
  | None => None
  | Some _ => Some (oldStart, oldLines, newStart, newLines)
  end end end end end end end end end.

(** [header.match(...)]: the leftmost match. *)
Fixpoint hunkMatch (s : jstr) : option (jstr * jstr * jstr * jstr) :=
  match hunkAt s with
  | Some m => Some m
  | None =>
      match s with
      | [] => None
      | _ :: r => hunkMatch r
      end
  end.

Inductive changeType := Addition | Deletion | Context.

Record Change := {
  type : changeType;
  content : jstr }.

Record Range := {
  start : number;
  lines : number }.

(** The object that [parsePatch] returns; [None] is the [null] hunk. *)
Record ParsedPatch := {
  hunk : option jstr;
  oldRange : Range;
  newRange : Range;
  changes : list Change }.

(** The callback of the second [map]. *)
Definition changeOf (line : jstr) : Change :=
  if startsWith chPlus line then {| type := Addition; content := tl line |}
  else if startsWith chMinus line then {| type := Deletion; content := tl line |}
  else {| type := Context; content := tl line |}.

Definition parsePatch (patch : jstr) : ParsedPatch :=
  let lines := split chNewline patch in
  let header := hd [] lines in
  match hunkMatch header with
  | None =>
      {| hunk := None;
         oldRange := {| start := S754_zero false; lines := S754_zero false |};
         newRange := {| start := S754_zero false; lines := S754_zero false |};
         changes := map (fun line => {| type := Context; content := line |})
                        (tl lines) |}
  | Some (oldStart, oldLines, newStart, newLines) =>
      {| hunk := Some header;
         oldRange := {| start := Number oldStart; lines := Number oldLines |};
         newRange := {| start := Number newStart; lines := Number newLines |};
         changes := map changeOf (tl lines) |}
  end.

(** The text of a hunk header with the four numbers in decimal, followed
    by [tail]. *)
Definition hunkHeader (oldStart oldLines newStart newLines : N) (tail : jstr) : jstr :=
  js "@@ -" ++ indexKey oldStart ++ chComma :: indexKey oldLines
     ++ js " +" ++ indexKey newStart ++ chComma :: indexKey newLines
     ++ js " @@" ++ tail.

End Push.

(** ** The vocabulary of the further properties *)

(** [hB] has every cell of [hA] but [o] as it was. *)
Definition agreeExcept (o : addr) (hA hB : heap) : Prop :=
  List.length hA <= List.length hB /\
  forall a, a < List.length hA -> a <> o -> nth_error hB a = nth_error hA a.

(** What [deepMerge (S depth) target source], called on store [h] with the
    objects [{tps}] and [{sps}], leaves under the key [k] of its result
    when it returns with store [h']: the target's entry where the source
    has none; the source's entry where it is a primitive, or an object
    under a key the target lacks (the object itself, not a copy); and the
    result of the recursive merge where both have the key and the source's
    entry is an object. *)
Definition mergedEntry (depth : nat) (tps sps : props) (h h' : heap)
           (k : jstr) (entry : option value) : Prop :=
  match assoc k sps with
  | None => entry = assoc k tps
  | Some (VRef o) =>
      match assoc k tps with
      | None => entry = Some (VRef o)
      | Some tk =>
          exists m h1 h2,
            prefix h h1
            /\ ConfigParser.deepMerge depth tk (VRef o) h1 = Ok (VRef m) h2
            /\ List.length h < m
            /\ agreeExcept (List.length h) h2 h'
            /\ entry = Some (VRef m)
      end
  | Some p => entry = Some p
  end.


(** The objects that [setNestedValue] makes of a path on a new object
    whose cell is [first]: one per segment, each holding the next, the last
    one holding the value. *)
Fixpoint chainCells (first : addr) (path : list jstr) (v : value) : list cell :=
  match path with
  | [] => []
  | [last] => [Obj [(last, v)]]
  | key :: rest => Obj [(key, VRef (S first))] :: chainCells (S first) rest v
  end.

(** What the validator reads at a declared path of the data: own
    properties of ordinary objects, a missing property reading as
    [undefined]; [None] where the way leads through something that is no
    ordinary object. *)
Fixpoint fieldAt (h : heap) (v : value) (path : list jstr) : option value :=
  match path with
  | [] => Some v
  | k :: rest =>
      match v with
      | VRef a =>
          match nth_error h a with
          | Some (Obj ps) =>
              fieldAt h (match assoc k ps with
                         | Some w => w
                         | None => VUndefined
                         end) rest
          | _ => None
          end
      | _ => None
      end
  end.

(** The boolean that a declared leaf with default [dflt] takes from what
    was read, if any. *)
Definition declared (dflt : bool) (read : option value) : option bool :=
  match read with
  | Some VUndefined => Some dflt
  | Some (VBool b) => Some b
  | _ => None
  end.





Fixpoint path_eqb (p q : list jstr) : bool :=
  match p, q with
  | [], [] => true
  | a :: p', b :: q' => (jstr_eqb a b && path_eqb p' q')%bool
  | _, _ => false
  end.










(** * Properties *)

Arguments keyIn : simpl never.


(** ** Strings *)

Lemma jstr_eqb_eq (a b : jstr) : jstr_eqb a b = true <-> a = b.
Proof.
  revert b; induction a as [|x a IH]; intros [|y b]; simpl; split; intro H;
    try reflexivity; try discriminate.
  - apply andb_true_iff in H as [H1 H2]. apply N.eqb_eq in H1.
    apply IH in H2. congruence.
  - injection H as -> ->. rewrite N.eqb_refl. simpl. now apply IH.
Qed.

Lemma jstr_eqb_refl (a : jstr) : jstr_eqb a a = true.
Proof. now apply jstr_eqb_eq. Qed.

Lemma jstr_eqb_neq (a b : jstr) : jstr_eqb a b = false <-> a <> b.
Proof.
  split; intro H.
  - intro E. apply jstr_eqb_eq in E. congruence.
  - destruct (jstr_eqb a b) eqn:E; [|reflexivity].
    apply jstr_eqb_eq in E. contradiction.
Qed.

Lemma trimStart_suffix (s : jstr) : exists pre, s = pre ++ trimStart s.
Proof.
  induction s as [|c s [pre IH]]; simpl.
  - now exists [].
  - destruct (isStrWhiteSpaceChar c).
    + exists (c :: pre). simpl. now f_equal.
    + now exists [].
Qed.

Lemma existsb_trimStart (f : N -> bool) (s : jstr) :
  existsb f s = false -> existsb f (trimStart s) = false.
Proof.
  intro H. destruct (trimStart_suffix s) as [pre E].
  rewrite E, existsb_app in H. now apply orb_false_iff in H.
Qed.

Lemma existsb_rev_false (f : N -> bool) (s : jstr) :
  existsb f s = false -> existsb f (rev s) = false.
Proof.
  induction s as [|c s IH]; simpl; intro H; [reflexivity|].
  apply orb_false_iff in H as [H1 H2].
  rewrite existsb_app. simpl. rewrite H1, (IH H2). reflexivity.
Qed.

Lemma existsb_trim (f : N -> bool) (s : jstr) :
  existsb f s = false -> existsb f (trim s) = false.
Proof.
  intro H. unfold trim, trimEnd.
  apply existsb_rev_false, existsb_trimStart, existsb_rev_false.
  now apply existsb_trimStart.
Qed.

Lemma split_pieces (sep : N) (s : jstr) :
  Forall (fun p => includes sep p = false) (split sep s).
Proof.
  induction s as [|c s IH]; simpl.
  - now repeat constructor.
  - destruct (N.eqb c sep) eqn:E.
    + constructor; [reflexivity | exact IH].
    + destruct (split sep s) as [|p ps]; inversion IH; subst.
      * constructor; [|constructor]. simpl. rewrite N.eqb_sym, E. reflexivity.
      * constructor; [|assumption]. unfold includes in *. simpl.
        rewrite N.eqb_sym, E. assumption.
Qed.

Lemma split_nonempty (sep : N) (s : jstr) : split sep s <> [].
Proof.
  destruct s as [|c s]; simpl; [discriminate|].
  destruct (N.eqb c sep); [discriminate|].
  destruct (split sep s); discriminate.
Qed.

(** ** [parseValue] *)

(** An element without a comma never takes the array branch, so the bound
    on the nesting does not matter for it. *)
Lemma parseValueAt_no_comma (d d' : nat) (s : jstr) :
  includes chComma (trim s) = false -> parseValueAt d s = parseValueAt d' s.
Proof.
  intro H. destruct d, d'; simpl; rewrite H; reflexivity.
Qed.

Lemma parseValueAt_succ (d : nat) (value : jstr) :
  parseValueAt (S d) value =
  let trimmed := trim value in
  if jstr_eqb (toLowerCase trimmed) (js "true") then LBool true
  else if jstr_eqb (toLowerCase trimmed) (js "false") then LBool false
  else if negb (isNaN (Number trimmed)) then LNum (Number trimmed)
  else if includes chComma trimmed
       then LArr (map (fun v => parseValueAt d (trim v)) (split chComma trimmed))
       else LStr (stripQuotes trimmed).
Proof. reflexivity. Qed.

(** [parseValue] satisfies the recursive equation of the source. *)
Lemma parseValue_equation (value : jstr) :
  parseValue value =
  let trimmed := trim value in
  if jstr_eqb (toLowerCase trimmed) (js "true") then LBool true
  else if jstr_eqb (toLowerCase trimmed) (js "false") then LBool false
  else if negb (isNaN (Number trimmed)) then LNum (Number trimmed)
  else if includes chComma trimmed
       then LArr (map (fun v => parseValue (trim v)) (split chComma trimmed))
       else LStr (stripQuotes trimmed).
Proof.
  unfold parseValue. rewrite parseValueAt_succ. cbv zeta.
  repeat match goal with |- context [if ?c then _ else _] => destruct c; try reflexivity end.
  f_equal. apply map_ext_in. intros seg Hin.
  apply (parseValueAt_no_comma 0 1).
  apply existsb_trim, existsb_trim.
  pose proof (split_pieces chComma (trim value)) as F.
  rewrite Forall_forall in F. now apply F.
Qed.

(** C6: the inference priority on the examples of the specification.
    Each number is given as the binary64 value itself, sign, significand
    and exponent, and is a double nearest to the numeral of the
    example. *)
Theorem parseValue_inference_priority :
  parseValue (js "true") = LBool true /\
  parseValue (js "TRUE") = LBool true /\
  (parseValue (js "42") = LNum (S754_finite false 5910974510923776 (-47))
   /\ nearestTo (S754_finite false 5910974510923776 (-47)) 42 1) /\
  (parseValue (js "3.14") = LNum (S754_finite false 7070651414971679 (-51))
   /\ nearestTo (S754_finite false 7070651414971679 (-51)) 314 100) /\
  (parseValue (js "1,2,3")
   = LArr [ LNum (S754_finite false 4503599627370496 (-52));
            LNum (S754_finite false 4503599627370496 (-51));
            LNum (S754_finite false 6755399441055744 (-51)) ]
   /\ nearestTo (S754_finite false 4503599627370496 (-52)) 1 1
   /\ nearestTo (S754_finite false 4503599627370496 (-51)) 2 1
   /\ nearestTo (S754_finite false 6755399441055744 (-51)) 3 1) /\
  parseValue (js "a,b") = LArr [LStr (js "a"); LStr (js "b")] /\
  parseValue (quoted chDQuote (js "hello")) = LStr (js "hello").
Proof.
  repeat split; try (vm_compute; reflexivity); vm_compute; discriminate.
Qed.

(** The conversion of the embedding gives these doubles. *)
Lemma example_doubles :
  numberOfN 42 = S754_finite false 5910974510923776 (-47) /\
  roundDecimal false 314 (-2) = S754_finite false 7070651414971679 (-51) /\
  numberOfN 1 = S754_finite false 4503599627370496 (-52).
Proof. repeat split; vm_compute; reflexivity. Qed.

(** C3, as stated, fails: the quoted text is not inferred as a boolean. *)
Lemma parseValue_quoted_true_not_boolean :
  parseValue (quoted chDQuote (js "true")) <> LBool true.
Proof. vm_compute. discriminate. Qed.

(** C3, amended: quotes are stripped after the type checks, and the checks
    see the text with its quotes, so the quoted text true is the string
    true; no text that starts with a quote is inferred as a boolean. *)
Theorem parseValue_quoted_text_is_no_boolean :
  forall value q rest b,
    trim value = q :: rest -> isQuote q = true ->
    parseValue value <> LBool b /\
    parseValue (quoted chDQuote (js "true")) = LStr (js "true") /\
    parseValue (quoted chSQuote (js "true")) = LStr (js "true").
Proof.
  intros value q rest b Ht Hq. split; [|split; vm_compute; reflexivity].
  rewrite parseValue_equation. cbv zeta. rewrite Ht.
  assert (Hl : lowerUnit q = q).
  { unfold isQuote in Hq. apply orb_true_iff in Hq as [H|H];
      apply N.eqb_eq in H; subst q; reflexivity. }
  assert (Hn : forall c, N.eqb q c = true -> isQuote c = true).
  { intros c H. apply N.eqb_eq in H. now subst c. }
  assert (E1 : jstr_eqb (toLowerCase (q :: rest)) (js "true") = false).
  { simpl. rewrite Hl. destruct (N.eqb q 116) eqn:E; [|reflexivity].
    apply Hn in E. discriminate. }
  assert (E2 : jstr_eqb (toLowerCase (q :: rest)) (js "false") = false).
  { simpl. rewrite Hl. destruct (N.eqb q 102) eqn:E; [|reflexivity].
    apply Hn in E. discriminate. }
  rewrite E1, E2.
  repeat match goal with |- context [if ?c then _ else _] => destruct c end;
    discriminate.
Qed.

Lemma parseValue_quoted_text_is_no_boolean_witness :
  parseValue (quoted chDQuote (js "true")) <> LBool true /\
  parseValue (quoted chDQuote (js "true")) = LStr (js "true") /\
  parseValue (quoted chSQuote (js "true")) = LStr (js "true").
Proof.
  apply (parseValue_quoted_text_is_no_boolean
           (quoted chDQuote (js "true")) chDQuote (js "true" ++ [chDQuote]) true);
    reflexivity.
Defined.

(** ** The line lexer *)

(** When every [=] after the first unit of the line is its last unit, the
    key/value expression finds no place to split. *)
Lemma kvScan_none (s key : jstr) :
  (forall pre post, s = pre ++ chEquals :: post -> post = []) ->
  kvScan key s = None.
Proof.
  revert key. induction s as [|c r IH]; intros key H; simpl; [reflexivity|].
  destruct (N.eqb c chEquals) eqn:E.
  - apply N.eqb_eq in E. subst c.
    rewrite (H [] r eq_refl). simpl.
    rewrite andb_false_r. reflexivity.
  - rewrite andb_false_r. simpl.
    destruct (isLineTerminator c); [reflexivity|].
    apply IH. intros pre post Hs. apply (H (c :: pre) post).
    simpl. now f_equal.
Qed.

Lemma equals_only_last (s : jstr) :
  includes chEquals (removelast s) = false ->
  forall pre post, s = pre ++ chEquals :: post -> post = [].
Proof.
  intros H pre post Hs. destruct post as [|p post]; [reflexivity|].
  subst s. rewrite removelast_app in H by discriminate.
  unfold includes in H. rewrite existsb_app in H.
  apply orb_false_iff in H as [_ H].
  change (removelast (chEquals :: p :: post))
    with (chEquals :: removelast (p :: post)) in H.
  simpl in H. discriminate.
Qed.

Lemma kvMatch_none (t : jstr) :
  includes chEquals (removelast (tl t)) = false -> kvMatch t = None.
Proof.
  intro H. destruct t as [|c r]; [reflexivity|].
  unfold kvMatch. simpl in *.
  destruct (isLineTerminator c); [reflexivity|].
  apply kvScan_none. now apply equals_only_last.
Qed.

(** The first group of the key/value expression is the text before the
    first [=], exactly as written. *)
Lemma kvScan_verbatim (k v acc : jstr) :
  includes chEquals k = false -> allDot k = true ->
  v <> [] -> allDot v = true -> acc ++ k <> [] ->
  kvScan acc (k ++ chEquals :: v) = Some (rev acc ++ k, v).
Proof.
  revert acc. induction k as [|c k IH]; intros acc Hk Hd Hv Hdv Hne; simpl.
  - rewrite app_nil_r in *. destruct acc as [|a acc]; [contradiction|].
    destruct v as [|w v]; [contradiction|].
    change (allDot (w :: v)) with (negb (isLineTerminator w) && allDot v)%bool in Hdv.
    change (allDot (w :: v)) with (negb (isLineTerminator w) && allDot v)%bool.
    rewrite Hdv. reflexivity.
  - unfold includes in Hk, IH. cbn [existsb] in Hk.
    apply orb_false_iff in Hk as [Hc Hk].
    cbn [allDot forallb] in Hd. apply andb_true_iff in Hd as [Hl Hd].
    rewrite N.eqb_sym in Hc. rewrite Hc, andb_false_r. simpl.
    apply negb_true_iff in Hl. rewrite Hl.
    rewrite (IH (c :: acc)); try assumption.
    + simpl. now rewrite <- app_assoc.
    + discriminate.
Qed.

Lemma kvMatch_verbatim (k v : jstr) :
  k <> [] -> includes chEquals k = false -> allDot k = true ->
  v <> [] -> allDot v = true ->
  kvMatch (k ++ chEquals :: v) = Some (k, v).
Proof.
  intros Hne Hk Hd Hv Hdv. unfold kvMatch.
  now rewrite (kvScan_verbatim k v []).
Qed.

Lemma sectionMatch_last (t name : jstr) :
  sectionMatch t = Some name -> exists m, t = m ++ [chRBracket].
Proof.
  unfold sectionMatch. destruct t as [|c r]; [discriminate|].
  destruct (rev r) as [|d m] eqn:E; [discriminate|].
  destruct (N.eqb c chLBracket && N.eqb d chRBracket
            && negb (isNil m) && allDot m)%bool eqn:C; [|discriminate].
  intros _. repeat (apply andb_true_iff in C as [C ?]).
  match goal with H : N.eqb d chRBracket = true |- _ => apply N.eqb_eq in H; subst d end.
  exists (c :: rev m). simpl. f_equal.
  rewrite <- (rev_involutive r), E. reflexivity.
Qed.

Lemma sectionMatch_first (t name : jstr) :
  sectionMatch t = Some name -> exists r, t = chLBracket :: r.
Proof.
  unfold sectionMatch. destruct t as [|c r]; [discriminate|].
  destruct (rev r) as [|d m]; [discriminate|].
  destruct (N.eqb c chLBracket) eqn:C; [|discriminate].
  apply N.eqb_eq in C. subst c. intros _. now exists r.
Qed.

Lemma danglingEquals_no_match (t : jstr) :
  danglingEquals t -> sectionMatch t = None /\ kvMatch t = None.
Proof.
  intros [[key [-> Hk]] | [value [-> Hv]]]; split.
  - destruct (sectionMatch (key ++ [chEquals])) eqn:E; [|reflexivity].
    apply sectionMatch_last in E as [m E].
    apply app_inj_tail in E as [_ E]. discriminate.
  - apply kvMatch_none. destruct key as [|c key]; [reflexivity|].
    simpl tl. rewrite removelast_last.
    simpl in Hk. now apply orb_false_iff in Hk.
  - destruct (sectionMatch (chEquals :: value)) eqn:E; [|reflexivity].
    apply sectionMatch_first in E as [r E]. discriminate.
  - now apply kvMatch_none.
Qed.

Lemma parseLine_dangling (configObj : value) (section line : jstr) (h : heap) :
  danglingEquals (trim line) ->
  ConfigParser.parseLine configObj section line h = Ok section h.
Proof.
  intro D. apply danglingEquals_no_match in D as [Hs Hk].
  unfold ConfigParser.parseLine.
  destruct (isNil (trim line) || startsWith chHash (trim line))%bool;
    [reflexivity|].
  rewrite Hs, Hk. reflexivity.
Qed.

Lemma parseLines_skip (configObj : value) (line : jstr) :
  (forall section h, ConfigParser.parseLine configObj section line h = Ok section h) ->
  forall pre post section h,
    ConfigParser.parseLines configObj section (pre ++ line :: post) h
    = ConfigParser.parseLines configObj section (pre ++ post) h.
Proof.
  intros Hl pre post. induction pre as [|l pre IH]; intros section h; simpl.
  - unfold bind. now rewrite Hl.
  - unfold bind.
    destruct (ConfigParser.parseLine configObj section l h); try reflexivity.
    apply IH.
Qed.

(** No inferred string is empty: a text that fails the number rule has a
    unit left after trimming, and a pair of quotes is only removed around
    at least one unit. *)
Lemma stripQuotes_nonempty (t : jstr) : t <> [] -> stripQuotes t <> [].
Proof.
  intro H. unfold stripQuotes. destruct t as [|c r]; [contradiction|].
  destruct (rev r) as [|d m] eqn:E; [discriminate|].
  destruct (isQuote c && isQuote d && negb (isNil m) && allDot m)%bool eqn:C;
    [|discriminate].
  repeat (apply andb_true_iff in C as [C ?]).
  destruct m; [discriminate|]. simpl. intro F.
  apply app_eq_nil in F as [_ F]. discriminate.
Qed.

Lemma parseValueAt_no_empty_string (d : nat) (value : jstr) :
  parseValueAt d value <> LStr [].
Proof.
  assert (G : forall t, isNaN (Number t) = true -> trim t <> []).
  { intros t Hn E. unfold Number in Hn. rewrite E in Hn. discriminate. }
  destruct d; simpl;
    repeat match goal with
      | |- context [if ?c then _ else _] => destruct c eqn:?; try discriminate
      end.
  all: intro F; injection F as F; revert F; apply stripQuotes_nonempty.
  all: match goal with H : negb (isNaN _) = false |- _ =>
         apply negb_false_iff in H; apply G in H end.
  all: intro E; rewrite E in *; contradiction.
Qed.

(** ** The store *)

Lemma post_bind {A B} (m : M A) (k : A -> M B) (h : heap)
      (Q1 : A -> heap -> Prop) (E1 : heap -> Prop) (Hs1 : Prop)
      (Q : B -> heap -> Prop) (E : heap -> Prop) (Hs : Prop) :
  post (m h) Q1 E1 Hs1 ->
  (forall a h1, Q1 a h1 -> post (k a h1) Q E Hs) ->
  (forall h1, E1 h1 -> E h1) ->
  (Hs1 -> Hs) ->
  post (bind m k h) Q E Hs.
Proof.
  unfold bind. destruct (m h); simpl; auto.
Qed.

Lemma post_weaken {A} (r : outcome A)
      (Q Q' : A -> heap -> Prop) (E E' : heap -> Prop) (Hs Hs' : Prop) :
  post r Q E Hs ->
  (forall a h, Q a h -> Q' a h) -> (forall h, E h -> E' h) -> (Hs -> Hs') ->
  post r Q' E' Hs'.
Proof. destruct r; simpl; auto. Qed.

Lemma post_conj {A} (r : outcome A)
      (Q1 Q2 : A -> heap -> Prop) (E1 E2 : heap -> Prop) (Hs1 Hs2 : Prop) :
  post r Q1 E1 Hs1 -> post r Q2 E2 Hs2 ->
  post r (fun a h => Q1 a h /\ Q2 a h) (fun h => E1 h /\ E2 h) (Hs1 /\ Hs2).
Proof. destruct r; simpl; auto. Qed.

Lemma post_any {A} (r : outcome A) :
  post r (fun _ _ => True) (fun _ => True) True.
Proof. destruct r; exact I. Qed.

Lemma prefix_refl (h : heap) : prefix h h.
Proof. exists []. now rewrite app_nil_r. Qed.

Lemma prefix_trans (h0 h1 h2 : heap) : prefix h0 h1 -> prefix h1 h2 -> prefix h0 h2.
Proof. intros [e1 ->] [e2 ->]. exists (e1 ++ e2). now rewrite app_assoc. Qed.

Lemma prefix_app (h0 h : heap) (l : list cell) : prefix h0 h -> prefix h0 (h ++ l).
Proof. intros [e ->]. exists (e ++ l). now rewrite app_assoc. Qed.

Lemma prefix_length (h0 h : heap) : prefix h0 h -> List.length h0 <= List.length h.
Proof. intros [e ->]. rewrite length_app. lia. Qed.

Lemma prefix_nth (h0 h : heap) (a : addr) :
  prefix h0 h -> a < List.length h0 -> nth_error h a = nth_error h0 a.
Proof. intros [e ->] H. now apply nth_error_app1. Qed.

Lemma length_updateAt (h : heap) (a : addr) (c : cell) :
  List.length (updateAt h a c) = List.length h.
Proof.
  revert a. induction h as [|x h IH]; intros [|a]; simpl; auto.
Qed.

Lemma nth_updateAt_same (h : heap) (a : addr) (c : cell) :
  a < List.length h -> nth_error (updateAt h a c) a = Some c.
Proof.
  revert a. induction h as [|x h IH]; intros [|a] H; simpl in *; try lia; auto.
  apply IH. lia.
Qed.

Lemma nth_updateAt_other (h : heap) (a b : addr) (c : cell) :
  a <> b -> nth_error (updateAt h a c) b = nth_error h b.
Proof.
  revert a b. induction h as [|x h IH]; intros [|a] [|b] H; simpl; auto.
  contradiction.
Qed.

Lemma updateAt_app (h0 e : heap) (a : addr) (c : cell) :
  List.length h0 <= a ->
  updateAt (h0 ++ e) a c = h0 ++ updateAt e (a - List.length h0) c.
Proof.
  revert a. induction h0 as [|x h0 IH]; intros a H; simpl in *.
  - now rewrite Nat.sub_0_r.
  - destruct a as [|a]; [lia|]. simpl. f_equal. apply IH. lia.
Qed.

Lemma prefix_updateAt (h0 h : heap) (a : addr) (c : cell) :
  prefix h0 h -> List.length h0 <= a -> prefix h0 (updateAt h a c).
Proof.
  intros [e ->] H. rewrite updateAt_app by assumption. now eexists.
Qed.

Lemma updateAt_same (h : heap) (a : addr) (c : cell) :
  nth_error h a = Some c -> updateAt h a c = h.
Proof.
  revert a. induction h as [|x h IH]; intros [|a] H; simpl in *; try discriminate.
  - now injection H as ->.
  - f_equal. now apply IH.
Qed.

Lemma refOk_mono cf n n' a w : refOk cf n a w -> n <= n' -> refOk cf n' a w.
Proof. destruct w; simpl; auto. intros [H1 H2] H. split; [lia|assumption]. Qed.

Lemma entryOk_mono cf n n' a kv : entryOk cf n a kv -> n <= n' -> entryOk cf n' a kv.
Proof. intros [H1 H2] H. split; [assumption|]. eapply refOk_mono; eauto. Qed.

Lemma storable_refOk n0 n a v : storable n0 n v -> refOk (Some n0) n a v.
Proof. destruct v; simpl; auto. intros [H1 H2]. split; auto. Qed.

Lemma storable_mono n0 n n' v : storable n0 n v -> n <= n' -> storable n0 n' v.
Proof. destruct v; simpl; auto. lia. Qed.

Lemma nth_error_in_range {A} (l : list A) (a : nat) (x : A) :
  nth_error l a = Some x -> a < List.length l.
Proof. intro H. apply nth_error_Some. congruence. Qed.

Lemma good_alloc cf (h : heap) (c : cell) :
  good cf h ->
  Forall (entryOk cf (S (List.length h)) (List.length h)) (cellProps c) ->
  good cf (h ++ [c]).
Proof.
  intros G Hc a c' Hn. rewrite length_app. simpl. rewrite Nat.add_1_r.
  destruct (Nat.lt_ge_cases a (List.length h)) as [L|L].
  - rewrite nth_error_app1 in Hn by assumption.
    eapply Forall_impl; [|apply (G _ _ Hn)].
    intros kv H. eapply entryOk_mono; eauto.
  - rewrite nth_error_app2 in Hn by assumption.
    destruct (a - List.length h) as [|k] eqn:K.
    + simpl in Hn. injection Hn as <-.
      assert (a = List.length h) by lia. now subst a.
    + simpl in Hn. destruct k; discriminate.
Qed.

Lemma good_update cf (h : heap) (a : addr) (c : cell) :
  good cf h ->
  Forall (entryOk cf (List.length h) a) (cellProps c) ->
  good cf (updateAt h a c).
Proof.
  intros G Hc b c' Hn. rewrite length_updateAt.
  destruct (Nat.eq_dec a b) as [<-|N].
  - destruct (Nat.lt_ge_cases a (List.length h)) as [L|L].
    + rewrite nth_updateAt_same in Hn by assumption. now injection Hn as <-.
    + apply nth_error_in_range in Hn. rewrite length_updateAt in Hn. lia.
  - rewrite nth_updateAt_other in Hn by assumption. now apply G.
Qed.

Lemma good_forget n0 (h : heap) : good (Some n0) h -> good None h.
Proof.
  intros G a c Hn. eapply Forall_impl; [|apply (G _ _ Hn)].
  intros [k w] [H1 H2]. split; [assumption|].
  destruct w; simpl in *; auto. tauto.
Qed.

Lemma good_close (h : heap) : good None h -> good (Some (List.length h)) h.
Proof.
  intros G a c Hn. eapply Forall_impl; [|apply (G _ _ Hn)].
  intros [k w] [H1 H2]. split; [assumption|].
  destruct w; simpl in *; auto. split; [tauto|].
  intro L. apply nth_error_in_range in Hn. lia.
Qed.

(** *** Names *)

Lemma keyIn_app (key : jstr) (l1 l2 : list jstr) :
  keyIn key (l1 ++ l2) = (keyIn key l1 || keyIn key l2)%bool.
Proof. apply existsb_app. Qed.

Lemma arrayNames_objectNames (key : jstr) :
  keyIn key arrayPrototypeNames = false -> keyIn key objectPrototypeNames = false.
Proof.
  unfold arrayPrototypeNames. rewrite keyIn_app.
  intro H. now apply orb_false_iff in H.
Qed.

Lemma reserved_arrayNames (key : jstr) :
  keyIn key arrayPrototypeNames = true -> keyIn key reservedNames = true.
Proof. intro H. exact H. Qed.

Lemma reserved_objectNames (key : jstr) :
  keyIn key objectPrototypeNames = true -> keyIn key reservedNames = true.
Proof.
  intro H. apply reserved_arrayNames.
  destruct (keyIn key arrayPrototypeNames) eqn:E; [reflexivity|].
  apply arrayNames_objectNames in E. congruence.
Qed.

(** No inherited name starts with a decimal digit. *)
Lemma digit_head_not_inherited (c : N) (r : jstr) :
  isDigit c = true -> keyIn (c :: r) arrayPrototypeNames = false.
Proof.
  intro Hd.
  assert (F : forallb (fun nm => match nm with
                                 | d :: _ => negb (isDigit d)
                                 | [] => true
                                 end) arrayPrototypeNames = true)
    by (vm_compute; reflexivity).
  unfold keyIn. induction arrayPrototypeNames as [|nm l IH]; [reflexivity|].
  simpl in F. apply andb_true_iff in F as [F1 F2].
  cbn [existsb]. rewrite (IH F2), orb_false_r.
  destruct nm as [|d nm]; [reflexivity|].
  cbn [jstr_eqb]. destruct (N.eqb c d) eqn:E; [|reflexivity].
  apply N.eqb_eq in E. subst d. rewrite Hd in F1. discriminate.
Qed.

Lemma arrayIndex_not_inherited (key : jstr) (i : N) :
  arrayIndex key = Some i -> keyIn key arrayPrototypeNames = false.
Proof.
  unfold arrayIndex. destruct key as [|c r]; [discriminate|].
  destruct (forallb isDigit (c :: r) && (isNil r || negb (N.eqb c 48)))%bool eqn:E;
    [|discriminate].
  intros _. apply andb_true_iff in E as [E _].
  cbn [forallb] in E. apply andb_true_iff in E as [E _].
  now apply digit_head_not_inherited.
Qed.

Lemma decimalDigits_head (fuel : nat) (n : N) (acc : jstr) :
  exists d r, decimalDigits (S fuel) n acc = d :: r /\ isDigit d = true.
Proof.
  assert (D : forall m, isDigit (48 + N.modulo m 10) = true).
  { intro m. unfold isDigit.
    pose proof (N.mod_lt m 10 ltac:(discriminate)) as L.
    generalize dependent (N.modulo m 10). intros x L.
    apply andb_true_iff. split; apply N.leb_le; lia. }
  revert n acc. induction fuel as [|f IH]; intros n acc.
  - simpl. destruct (N.eqb (N.div n 10) 0); eauto.
  - change (decimalDigits (S (S f)) n acc)
      with (if N.eqb (N.div n 10) 0 then (48 + N.modulo n 10)%N :: acc
            else decimalDigits (S f) (N.div n 10) ((48 + N.modulo n 10)%N :: acc)).
    destruct (N.eqb (N.div n 10) 0); eauto.
Qed.

Lemma indexKey_not_inherited (i : N) : keyIn (indexKey i) arrayPrototypeNames = false.
Proof.
  unfold indexKey.
  destruct (decimalDigits_head (N.to_nat (N.log2 i)) i []) as [d [r [-> Hd]]].
  now apply digit_head_not_inherited.
Qed.

(** *** Property tables *)

Lemma assoc_In (key : jstr) (ps : props) (v : value) :
  assoc key ps = Some v -> exists k, In (k, v) ps.
Proof.
  induction ps as [|[k w] ps IH]; simpl; [discriminate|].
  destruct (jstr_eqb k key).
  - intro H. injection H as ->. eauto.
  - intro H. destruct (IH H) as [k' Hk]. eauto.
Qed.

Lemma In_assoc (key : jstr) (ps : props) :
  In key (map fst ps) -> exists v, assoc key ps = Some v.
Proof.
  induction ps as [|[k w] ps IH]; simpl; [contradiction|].
  intros [->|H].
  - rewrite jstr_eqb_refl. eauto.
  - destruct (jstr_eqb k key); eauto.
Qed.

Lemma assocSet_same (key : jstr) (v : value) (ps : props) :
  assoc key ps = Some v -> assocSet key v ps = ps.
Proof.
  induction ps as [|[k w] ps IH]; simpl; [discriminate|].
  destruct (jstr_eqb k key).
  - intro H. now injection H as ->.
  - intro H. f_equal. now apply IH.
Qed.

Lemma assoc_assocSet (key : jstr) (v : value) (ps : props) :
  assoc key (assocSet key v ps) = Some v.
Proof.
  induction ps as [|[k w] ps IH]; simpl.
  - now rewrite jstr_eqb_refl.
  - destruct (jstr_eqb k key) eqn:E; simpl; rewrite E; auto.
Qed.

Lemma Forall_assocSet (P : jstr * value -> Prop) (key : jstr) (v : value) (ps : props) :
  Forall P ps ->
  (forall k w, In (k, w) ps -> P (k, w) -> P (k, v)) ->
  (assoc key ps = None -> P (key, v)) ->
  Forall P (assocSet key v ps).
Proof.
  intros F Hr Hn. induction ps as [|[k w] ps IH]; simpl.
  - constructor; [|constructor]. now apply Hn.
  - inversion F as [|? ? Hk Hps]; subst.
    simpl in Hn. destruct (jstr_eqb k key) eqn:E.
    + constructor; [|assumption]. apply (Hr k w); [now left|assumption].
    + constructor; [assumption|]. apply IH; auto.
      intros k' w' Hin. apply Hr. now right.
Qed.

Lemma entries_assocSet cf n a key v ps :
  Forall (entryOk cf n a) ps -> refOk cf n a v ->
  (assoc key ps = None -> keyIn key objectPrototypeNames = false) ->
  Forall (entryOk cf n a) (assocSet key v ps).
Proof.
  intros F Hv Hk. apply Forall_assocSet; [assumption| |].
  - intros k w _ [H1 _]. now split.
  - intro H. split; [now apply Hk | assumption].
Qed.

Lemma Forall_filter {A} (P : A -> Prop) (f : A -> bool) (l : list A) :
  Forall P l -> Forall P (filter f l).
Proof.
  induction 1; simpl; [constructor|]. destruct (f x); auto.
Qed.

Lemma In_insertIndexed (x y : N * jstr) (l : list (N * jstr)) :
  In y (insertIndexed x l) -> y = x \/ In y l.
Proof.
  induction l as [|z l IH]; simpl.
  - intros [<-|[]]. now left.
  - destruct (N.leb (fst x) (fst z)); simpl.
    + intros [<-|H]; auto.
    + intros [<-|H]; auto. destruct (IH H); auto.
Qed.

Lemma In_indexedKeys (y : N * jstr) (ks : list jstr) :
  In y (indexedKeys ks) -> In (snd y) ks.
Proof.
  induction ks as [|k ks IH]; simpl; [auto|].
  destruct (arrayIndex k).
  - intro H. apply In_insertIndexed in H as [->|H]; auto.
  - auto.
Qed.

Lemma In_ownKeys (key : jstr) (ps : props) :
  In key (ownKeys ps) -> In key (map fst ps).
Proof.
  unfold ownKeys. rewrite in_app_iff. intros [H|H].
  - apply in_map_iff in H as [y [<- H]]. now apply In_indexedKeys.
  - now apply filter_In in H.
Qed.

(** *** The path assigner keeps to the cells of the current parse *)

Lemma cell_value_storable (h0 h : heap) (a : addr) (c : cell) (k : jstr) (v : value) :
  walking h0 h -> nth_error h a = Some c -> List.length h0 <= a ->
  In (k, v) (cellProps c) -> storable (List.length h0) (List.length h) v.
Proof.
  intros [_ G] Hc La Hin. specialize (G _ _ Hc).
  rewrite Forall_forall in G. destruct (G _ Hin) as [_ R].
  destruct v; simpl in *; auto. destruct R as [R1 R2]. split; auto.
Qed.

Lemma getOwn_storable (h0 h : heap) (a : addr) (c : cell) (key : jstr) (v : value) :
  walking h0 h -> nth_error h a = Some c -> List.length h0 <= a ->
  getOwn c key = Some v -> storable (List.length h0) (List.length h) v.
Proof.
  intros W Hc La Hg. destruct c as [ps|len ps]; simpl in Hg.
  - apply assoc_In in Hg as [k Hin]. eapply cell_value_storable; eauto.
  - destruct (jstr_eqb key keyLength).
    + injection Hg as <-. exact I.
    + apply assoc_In in Hg as [k Hin]. eapply cell_value_storable; eauto.
Qed.

Lemma inherits_reserved (c : cell) (key : jstr) :
  inherits c key = true -> keyIn key reservedNames = true.
Proof.
  destruct c; simpl; [apply reserved_objectNames | apply reserved_arrayNames].
Qed.

Lemma inherits_objectNames (c : cell) (key : jstr) :
  inherits c key = false -> keyIn key objectPrototypeNames = false.
Proof.
  destruct c; simpl; [auto | apply arrayNames_objectNames].
Qed.

Lemma getProp_walk (h0 h : heap) (a : addr) (key : jstr) :
  walking h0 h -> List.length h0 <= a -> a < List.length h ->
  post (getProp a key h)
       (fun v h' => h' = h /\ storable (List.length h0) (List.length h) v)
       (fun _ => False) (keyIn key reservedNames = true).
Proof.
  intros W La Lb. unfold getProp, bind, readCell.
  destruct (nth_error h a) as [c|] eqn:Hc.
  2:{ apply nth_error_None in Hc. lia. }
  destruct (getOwn c key) as [v|] eqn:Hg.
  - simpl. split; [reflexivity|]. eapply getOwn_storable; eauto.
  - destruct (inherits c key) eqn:Hi; simpl.
    + eapply inherits_reserved; eauto.
    + split; [reflexivity | exact I].
Qed.

(** What a read returns is an own property of the cell, or [undefined]. *)
Lemma getProp_own (a : addr) (key : jstr) (h : heap) :
  post (getProp a key h)
       (fun v h' => h' = h /\
                    (v = VUndefined \/
                     exists c, nth_error h a = Some c /\ getOwn c key = Some v))
       (fun _ => True) True.
Proof.
  unfold getProp, bind, readCell.
  destruct (nth_error h a) as [c|] eqn:Hc; [|exact I].
  destruct (getOwn c key) as [v|] eqn:Hg.
  - simpl. split; [reflexivity|]. right. eauto.
  - destruct (inherits c key); simpl; auto.
Qed.

Lemma walking_update (h0 h : heap) (a : addr) (c : cell) :
  walking h0 h -> List.length h0 <= a ->
  Forall (entryOk (Some (List.length h0)) (List.length h) a) (cellProps c) ->
  walking h0 (updateAt h a c).
Proof.
  intros [P G] La F. split.
  - now apply prefix_updateAt.
  - now apply good_update.
Qed.

Lemma walking_entries (h0 h : heap) (a : addr) (c : cell) :
  walking h0 h -> nth_error h a = Some c ->
  Forall (entryOk (Some (List.length h0)) (List.length h) a) (cellProps c).
Proof. intros [_ G] Hc. now apply G. Qed.

Lemma setProp_walk (h0 h : heap) (a : addr) (key : jstr) (v : value) :
  walking h0 h -> List.length h0 <= a -> a < List.length h ->
  storable (List.length h0) (List.length h) v ->
  (forall len ps, nth_error h a = Some (Arr len ps) ->
                  jstr_eqb key keyLength = true -> lengthOfValue h v <> None) ->
  post (setProp a key v h)
       (fun _ h' => walking h0 h' /\ List.length h' = List.length h)
       (fun h' => h' = h) (keyIn key reservedNames = true).
Proof.
  intros W La Lb Sv Hlen. unfold setProp, bind, readCell.
  destruct (nth_error h a) as [c|] eqn:Hc.
  2:{ apply nth_error_None in Hc. lia. }
  pose proof (walking_entries _ _ _ _ W Hc) as F.
  pose proof (storable_refOk _ _ a _ Sv) as Rv.
  assert (Wr : forall c', Forall (entryOk (Some (List.length h0)) (List.length h) a)
                                 (cellProps c') ->
                          post (writeCell a c' h)
                               (fun _ h' => walking h0 h' /\ List.length h' = List.length h)
                               (fun h' => h' = h) (keyIn key reservedNames = true)).
  { intros c' F'. simpl. split; [now apply walking_update | apply length_updateAt]. }
  destruct c as [ps|len ps]; simpl in F.
  - destruct (assoc key ps) eqn:Ha.
    + apply Wr. simpl. apply entries_assocSet; auto. congruence.
    + destruct (inherits (Obj ps) key) eqn:Hi.
      * simpl. eapply inherits_reserved; eauto.
      * apply Wr. simpl. apply entries_assocSet; auto.
  - destruct (jstr_eqb key keyLength) eqn:Hl.
    + destruct (lengthOfValue h v) as [[n|]|] eqn:El.
      * apply Wr. simpl. now apply Forall_filter.
      * reflexivity.
      * exfalso. now apply (Hlen len ps).
    + destruct (arrayIndex key) as [i|] eqn:Hi.
      * apply Wr. simpl. apply entries_assocSet; auto.
        intros _. eapply arrayNames_objectNames, arrayIndex_not_inherited; eauto.
      * destruct (assoc key ps) eqn:Ha.
        -- apply Wr. simpl. apply entries_assocSet; auto. congruence.
        -- destruct (inherits (Arr len ps) key) eqn:Hh.
           ++ simpl. eapply inherits_reserved; eauto.
           ++ apply Wr. simpl. apply entries_assocSet; auto.
              intros _. eapply inherits_objectNames; eauto.
Qed.

Lemma keyProto_reserved (key : jstr) :
  jstr_eqb key keyProto = true -> keyIn key reservedNames = true.
Proof.
  intro H. apply jstr_eqb_eq in H. subst key. vm_compute. reflexivity.
Qed.

Lemma setValue_walk (h0 h : heap) (base : value) (key : jstr) (v : value) :
  walking h0 h ->
  storable (List.length h0) (List.length h) base ->
  storable (List.length h0) (List.length h) v ->
  lengthOfValue h v <> None ->
  post (setValue base key v h)
       (fun _ h' => walking h0 h' /\ List.length h' = List.length h)
       (fun h' => h' = h) (keyIn key reservedNames = true).
Proof.
  intros W Sb Sv Hlen. destruct base; simpl;
    try (destruct (jstr_eqb key keyProto) eqn:E; simpl;
         [now apply keyProto_reserved | reflexivity]).
  - reflexivity.
  - simpl in Sb. apply setProp_walk; auto; lia.
Qed.

(** *** A value that nothing refers to stays as it is *)

Lemma lengthOfValue_in_range (h : heap) (b : addr) :
  lengthOfValue h (VRef b) <> None -> b < List.length h.
Proof.
  simpl. destruct (nth_error h b) eqn:E; [|congruence].
  intros _. eapply nth_error_in_range; eauto.
Qed.

Lemma lengthOfValue_frame (h h' : heap) (v : value) :
  (forall b, v = VRef b -> nth_error h' b = nth_error h b) ->
  lengthOfValue h' v = lengthOfValue h v.
Proof.
  intro H. destruct v; try reflexivity. simpl. now rewrite (H a eq_refl).
Qed.

Lemma unreferenced_update (b : addr) (h : heap) (a : addr) (c : cell) :
  unreferenced b h ->
  Forall (fun kv => snd kv <> VRef b) (cellProps c) ->
  unreferenced b (updateAt h a c).
Proof.
  intros U F a' c' Hn.
  destruct (Nat.eq_dec a a') as [<-|N].
  - destruct (Nat.lt_ge_cases a (List.length h)) as [L|L].
    + rewrite nth_updateAt_same in Hn by assumption. now injection Hn as <-.
    + apply nth_error_in_range in Hn. rewrite length_updateAt in Hn. lia.
  - rewrite nth_updateAt_other in Hn by assumption. now apply (U a').
Qed.

Lemma unreferenced_alloc (b : addr) (h : heap) (c : cell) :
  unreferenced b h ->
  Forall (fun kv => snd kv <> VRef b) (cellProps c) ->
  unreferenced b (h ++ [c]).
Proof.
  intros U F a c' Hn.
  destruct (Nat.lt_ge_cases a (List.length h)) as [L|L].
  - rewrite nth_error_app1 in Hn by assumption. now apply (U a).
  - rewrite nth_error_app2 in Hn by assumption.
    destruct (a - List.length h) as [|k]; simpl in Hn.
    + now injection Hn as <-.
    + destruct k; discriminate.
Qed.

(** In a store whose references are in range nothing refers to the next
    cell to be allocated. *)
Lemma good_unreferenced cf (h : heap) (b : addr) :
  good cf h -> List.length h <= b -> unreferenced b h.
Proof.
  intros G L a c Hn. eapply Forall_impl; [|apply (G _ _ Hn)].
  intros [k w] [_ R] E. simpl in E. subst w. simpl in R. lia.
Qed.

Lemma In_assocSet (key : jstr) (v : value) (ps : props) (kv : jstr * value) :
  In kv (assocSet key v ps) -> In kv ps \/ snd kv = v.
Proof.
  induction ps as [|[k w] ps IH]; simpl.
  - intros [<-|[]]. now right.
  - destruct (jstr_eqb k key); simpl.
    + intros [<-|H]; auto.
    + intros [<-|H]; auto. destruct (IH H); auto.
Qed.

(** An assignment changes one cell, and adds nothing to it but the
    assigned value. *)
Lemma setProp_cell (a : addr) (key : jstr) (v : value) (h : heap) :
  post (setProp a key v h)
       (fun _ h' => exists c c',
            nth_error h a = Some c /\ h' = updateAt h a c'
            /\ forall kv, In kv (cellProps c') -> In kv (cellProps c) \/ snd kv = v)
       (fun h' => h' = h) True.
Proof.
  unfold setProp, bind, readCell. destruct (nth_error h a) as [c|] eqn:Hc; [|exact I].
  assert (Wr : forall c', (forall kv, In kv (cellProps c') ->
                                      In kv (cellProps c) \/ snd kv = v) ->
                          post (writeCell a c' h)
                               (fun _ h' => exists c0 c1,
                                    Some c = Some c0 /\ h' = updateAt h a c1
                                    /\ forall kv, In kv (cellProps c1) ->
                                                  In kv (cellProps c0) \/ snd kv = v)
                               (fun h' => h' = h) True).
  { intros c' F. simpl. exists c, c'. auto. }
  destruct c as [ps|len ps].
  - destruct (assoc key ps).
    + apply Wr. simpl. apply In_assocSet.
    + destruct (inherits (Obj ps) key); [exact I|].
      apply Wr. simpl. apply In_assocSet.
  - destruct (jstr_eqb key keyLength).
    + destruct (lengthOfValue h v) as [[n|]|]; [|reflexivity|exact I].
      apply Wr. simpl. intros kv Hin. apply filter_In in Hin. tauto.
    + destruct (arrayIndex key).
      * apply Wr. simpl. apply In_assocSet.
      * destruct (assoc key ps).
        -- apply Wr. simpl. apply In_assocSet.
        -- destruct (inherits (Arr len ps) key); [exact I|].
           apply Wr. simpl. apply In_assocSet.
Qed.

Lemma setProp_keeps (b a : addr) (key : jstr) (v : value) (h : heap) :
  unreferenced b h -> a <> b -> v <> VRef b ->
  post (setProp a key v h)
       (fun _ h' => unreferenced b h' /\ nth_error h' b = nth_error h b)
       (fun _ => True) True.
Proof.
  intros U Na Nv.
  eapply post_weaken; [apply setProp_cell | | auto | auto].
  intros _ h' [c [c' [Hc [-> F]]]]. split.
  - apply unreferenced_update; [assumption|].
    apply Forall_forall. intros kv Hin.
    destruct (F kv Hin) as [H|H].
    + pose proof (U _ _ Hc) as Fc. rewrite Forall_forall in Fc. now apply Fc.
    + now rewrite H.
  - now apply nth_updateAt_other.
Qed.

Lemma getOwn_unreferenced (b : addr) (h : heap) (a : addr) (c : cell)
      (key : jstr) (v : value) :
  unreferenced b h -> nth_error h a = Some c -> getOwn c key = Some v ->
  v <> VRef b.
Proof.
  intros U Hc Hg.
  assert (A : forall ps, cellProps c = ps -> assoc key ps = Some v -> v <> VRef b).
  { intros ps <- Ha. apply assoc_In in Ha as [k Hin].
    pose proof (U _ _ Hc) as F. rewrite Forall_forall in F.
    apply (F _ Hin). }
  destruct c as [ps|len ps]; simpl in Hg.
  - now apply (A ps).
  - destruct (jstr_eqb key keyLength).
    + injection Hg as <-. discriminate.
    + now apply (A ps).
Qed.

Lemma descend_keeps (b : addr) (h : heap) (current : value) (key : jstr) :
  unreferenced b h -> b < List.length h -> current <> VRef b ->
  post (ConfigParser.descend current key h)
       (fun next h' => unreferenced b h' /\ nth_error h' b = nth_error h b
                       /\ next <> VRef b)
       (fun _ => True) True.
Proof.
  intros U Lb Nc. destruct current as [| | | |a]; simpl;
    try (destruct (jstr_eqb key keyProto); exact I).
  assert (Na : a <> b) by congruence.
  eapply post_bind; [apply (getProp_own a key h) | | auto | auto].
  intros old h1 [-> Ho].
  assert (No : old <> VRef b).
  { destruct Ho as [->|[c [Hc Hg]]]; [discriminate|].
    eapply getOwn_unreferenced; eauto. }
  destruct (truthy old).
  - unfold bind at 1. unfold ret at 1.
    eapply post_bind; [apply (setProp_keeps b a key old h U Na No) | | auto | auto].
    intros u h2 [U2 E2]. simpl. auto.
  - unfold bind at 1. unfold bind at 1. unfold alloc, ret at 1.
    assert (U1 : unreferenced b (h ++ [Obj []])).
    { apply unreferenced_alloc; [assumption | constructor]. }
    assert (N1 : VRef (List.length h) <> VRef b).
    { intro E. injection E as E. lia. }
    eapply post_bind;
      [apply (setProp_keeps b a key (VRef (List.length h)) (h ++ [Obj []]) U1 Na N1)
      | | auto | auto].
    intros u h2 [U2 E2]. simpl.
    split; [assumption|]. split; [|assumption].
    rewrite E2. now apply nth_error_app1.
Qed.

Lemma descend_inferred (v : value) (h : heap) (current : value) (key : jstr) :
  inferred h v -> apart current v ->
  post (ConfigParser.descend current key h)
       (fun next h' => inferred h' v /\ apart next v)
       (fun _ => True) True.
Proof.
  intros [Hl Hu] Ha.
  destruct v as [| | | |b];
    try (eapply post_weaken; [apply post_any | | auto | auto];
         intros next h' _; split; [split; [discriminate | exact I] | exact I]).
  simpl in Ha.
  pose proof (lengthOfValue_in_range h b Hl) as Lb.
  eapply post_weaken; [apply (descend_keeps b h current key Hu Lb Ha) | | auto | auto].
  intros next h' [U' [E' N']]. split; [split|]; [|exact U'|exact N'].
  rewrite (lengthOfValue_frame h h' (VRef b)); [exact Hl|].
  intros b' E. injection E as <-. exact E'.
Qed.

Lemma walking_alloc (h0 h : heap) (c : cell) :
  walking h0 h ->
  Forall (entryOk (Some (List.length h0)) (S (List.length h)) (List.length h))
         (cellProps c) ->
  walking h0 (h ++ [c]).
Proof.
  intros [P G] F. split; [now apply prefix_app | now apply good_alloc].
Qed.

Lemma descend_walk (h0 h : heap) (current : value) (key : jstr) :
  walking h0 h ->
  storable (List.length h0) (List.length h) current ->
  post (ConfigParser.descend current key h)
       (fun next h' => walking h0 h' /\ List.length h <= List.length h'
                       /\ storable (List.length h0) (List.length h') next)
       (walking h0) (keyIn key reservedNames = true).
Proof.
  intros W Sc. destruct current; simpl;
    try (destruct (jstr_eqb key keyProto) eqn:E; simpl;
         [now apply keyProto_reserved | assumption]).
  - assumption.
  - simpl in Sc. destruct Sc as [La Lb].
    pose proof (prefix_length _ _ (proj1 W)) as PL.
    eapply post_bind;
      [apply (post_conj _ _ _ _ _ _ _ (getProp_walk _ _ _ key W La Lb)
                        (getProp_own a key h))
      | | intros h1 [[] _] | intros [H _]; exact H].
    intros old h1 [[-> So] [_ Ho]].
    destruct (truthy old) eqn:Et.
    + unfold bind at 1. unfold ret at 1.
      assert (Hlen : forall len ps, nth_error h a = Some (Arr len ps) ->
                                    jstr_eqb key keyLength = true ->
                                    lengthOfValue h old <> None).
      { intros len ps Hc Hk.
        destruct Ho as [->|[c [Hc' Hg]]]; [discriminate Et|].
        rewrite Hc in Hc'. injection Hc' as <-.
        simpl in Hg. rewrite Hk in Hg. injection Hg as <-. discriminate. }
      eapply post_bind; [apply (setProp_walk _ _ _ key _ W La Lb So Hlen) | | | auto].
      * intros u h2 [W2 L2]. simpl. rewrite L2. auto.
      * intros h2 ->. assumption.
    + unfold bind at 1. unfold bind at 1. unfold alloc, ret at 1.
      assert (W1 : walking h0 (h ++ [Obj []])).
      { apply walking_alloc; [assumption | constructor]. }
      assert (L1 : List.length (h ++ [Obj []]) = S (List.length h)).
      { rewrite length_app. simpl. lia. }
      assert (S1 : storable (List.length h0) (List.length (h ++ [Obj []]))
                            (VRef (List.length h))).
      { simpl. lia. }
      assert (Hlen : lengthOfValue (h ++ [Obj []]) (VRef (List.length h)) <> None).
      { simpl. rewrite nth_error_app2 by lia. rewrite Nat.sub_diag. discriminate. }
      eapply post_bind;
        [apply (setProp_walk h0 (h ++ [Obj []]) a key (VRef (List.length h)));
         auto; lia | | | auto].
      * intros u h2 [W2 L2]. simpl. rewrite L2, L1.
        split; [assumption | lia].
      * intros h2 ->. assumption.
Qed.

Lemma reservedPath_cons (key : jstr) (rest : list jstr) :
  reservedPath (key :: rest)
  = (keyIn key reservedNames || reservedPath rest)%bool.
Proof. reflexivity. Qed.

Lemma setNestedValue_walk (h0 : heap) (path : list jstr) :
  forall (obj v : value) (h : heap),
    walking h0 h ->
    storable (List.length h0) (List.length h) obj ->
    storable (List.length h0) (List.length h) v ->
    inferred h v -> apart obj v ->
    post (ConfigParser.setNestedValue obj path v h)
         (fun _ h' => walking h0 h' /\ List.length h <= List.length h')
         (walking h0) (reservedPath path = true).
Proof.
  induction path as [|key rest IH]; intros obj v h W So Sv Iv Av.
  - eapply post_weaken;
      [apply (setValue_walk h0 h obj (js "undefined") v W So Sv (proj1 Iv)) | | | ].
    + intros u h' [W' L']. split; [assumption | lia].
    + intros h' ->. assumption.
    + vm_compute. discriminate.
  - destruct rest as [|k2 rest].
    + eapply post_weaken; [apply (setValue_walk h0 h obj key v W So Sv (proj1 Iv)) | | | ].
      * intros u h' [W' L']. split; [assumption | lia].
      * intros h' ->. assumption.
      * intro H. rewrite reservedPath_cons, H. reflexivity.
    + change (ConfigParser.setNestedValue obj (key :: k2 :: rest) v)
        with (bind (ConfigParser.descend obj key)
                   (fun current => ConfigParser.setNestedValue current (k2 :: rest) v)).
      eapply post_bind;
        [apply (post_conj _ _ _ _ _ _ _ (descend_walk h0 h obj key W So)
                          (descend_inferred v h obj key Iv Av))
        | | intros h1 [H _]; exact H | ].
      * intros current h1 [[W1 [L1 S1]] [I1 A1]].
        eapply post_weaken; [apply (IH current v h1 W1 S1) | | | ]; auto.
        -- eapply storable_mono; eauto.
        -- intros u h' [W' L']. split; [assumption | lia].
        -- intro H. rewrite reservedPath_cons, H. apply orb_true_r.
      * intros [H _]. rewrite reservedPath_cons, H. reflexivity.
Qed.

Lemma elementProps_entries (n0 n : nat) (a : addr) (vs : list value) :
  forall i,
    Forall (storable n0 n) vs ->
    Forall (entryOk (Some n0) n a) (ConfigParser.elementProps i vs).
Proof.
  induction vs as [|v vs IH]; intros i F; simpl; [constructor|].
  inversion F; subst. constructor; [|now apply IH].
  split; simpl.
  - apply arrayNames_objectNames, indexKey_not_inherited.
  - now apply storable_refOk.
Qed.

Lemma mapM_store_walk (h0 : heap) (elems : list lit) :
  Forall (fun l => forall h, walking h0 h ->
                             post (ConfigParser.store l h)
                                  (fun v h' => walking h0 h' /\ List.length h <= List.length h'
                                               /\ storable (List.length h0) (List.length h') v)
                                  (fun _ => False) False) elems ->
  forall h, walking h0 h ->
            post (mapM ConfigParser.store elems h)
                 (fun vs h' => walking h0 h' /\ List.length h <= List.length h'
                               /\ Forall (storable (List.length h0) (List.length h')) vs)
                 (fun _ => False) False.
Proof.
  induction 1 as [|l elems Hl _ IH]; intros h W; simpl.
  - split; [assumption | split; [lia | constructor]].
  - eapply post_bind; [apply (Hl h W) | | auto | auto].
    intros v h1 [W1 [L1 S1]].
    eapply post_bind; [apply (IH h1 W1) | | auto | auto].
    intros vs h2 [W2 [L2 S2]]. simpl.
    split; [assumption|]. split; [lia|].
    constructor; [|assumption]. eapply storable_mono; eauto.
Qed.

Lemma store_walk (h0 : heap) (l : lit) :
  forall h, walking h0 h ->
            post (ConfigParser.store l h)
                 (fun v h' => walking h0 h' /\ List.length h <= List.length h'
                              /\ storable (List.length h0) (List.length h') v)
                 (fun _ => False) False.
Proof.
  induction l as [b|n|s|elems IH] using lit_nested_ind; intros h W;
    try (simpl; split; [assumption | split; [lia | exact I]]).
  change (ConfigParser.store (LArr elems))
    with (bind (mapM ConfigParser.store elems)
               (fun vs => bind (alloc (Arr (N.of_nat (List.length vs))
                                           (ConfigParser.elementProps 0 vs)))
                               (fun a => ret (VRef a)))).
  eapply post_bind; [apply (mapM_store_walk h0 elems IH h W) | | auto | auto].
  intros vs h1 [W1 [L1 S1]]. simpl.
  pose proof (prefix_length _ _ (proj1 W1)) as PL.
  rewrite length_app. simpl. split; [|split; lia].
  apply walking_alloc; [assumption|]. simpl.
  apply elementProps_entries.
  eapply Forall_impl; [|exact S1].
  intros v Hv. eapply storable_mono; eauto.
Qed.

(** *** The lines of a text *)

Lemma parseLine_classify (configObj : value) (section line : jstr) :
  ConfigParser.parseLine configObj section line =
  match classify line with
  | Skipped => ret section
  | SectionHeader name => ret name
  | Pair key value =>
      v <- ConfigParser.store (parseValue value) ;;
      ConfigParser.setNestedValue configObj (keyPathOf section key) v ;;;
      ret section
  end.
Proof.
  unfold ConfigParser.parseLine, classify, keyPathOf.
  destruct (isNil (trim line) || startsWith chHash (trim line))%bool; [reflexivity|].
  destruct (sectionMatch (trim line)); [reflexivity|].
  destruct (kvMatch (trim line)) as [[key value]|]; reflexivity.
Qed.

(** *** What the inferencer hands over *)

Lemma split_two (sep : N) (s : jstr) :
  includes sep s = true -> 2 <= List.length (split sep s).
Proof.
  induction s as [|c s IH]; simpl; [discriminate|].
  rewrite N.eqb_sym. destruct (N.eqb c sep).
  - intros _. pose proof (split_nonempty sep s) as N.
    destruct (split sep s); [contradiction | simpl; lia].
  - simpl. intro H. specialize (IH H).
    destruct (split sep s) as [|p ps]; simpl in *; lia.
Qed.

Lemma parseValueAt_not_array (d : nat) (s : jstr) :
  includes chComma (trim s) = false -> isArrayLit (parseValueAt d s) = false.
Proof.
  intro H. destruct d; simpl; rewrite H;
    repeat match goal with |- context [if ?c then _ else _] => destruct c end;
    reflexivity.
Qed.

(** An inferred array has two or more elements, none of them an array. *)
Lemma parseValue_flat (value : jstr) (elems : list lit) :
  parseValue value = LArr elems ->
  2 <= List.length elems
  /\ forallb (fun e => negb (isArrayLit e)) elems = true.
Proof.
  unfold parseValue. rewrite parseValueAt_succ. cbv zeta.
  destruct (jstr_eqb (toLowerCase (trim value)) (js "true")); [discriminate|].
  destruct (jstr_eqb (toLowerCase (trim value)) (js "false")); [discriminate|].
  destruct (negb (isNaN (Number (trim value)))); [discriminate|].
  destruct (includes chComma (trim value)) eqn:Hc; [|discriminate].
  intro E. injection E as <-. split.
  - rewrite length_map. now apply split_two.
  - apply forallb_forall. intros e Hin.
    apply in_map_iff in Hin as [seg [<- Hseg]].
    apply negb_true_iff. apply (parseValueAt_not_array 0 (trim seg)).
    apply existsb_trim, existsb_trim.
    pose proof (split_pieces chComma (trim value)) as F.
    rewrite Forall_forall in F. now apply F.
Qed.

Lemma mapM_store_flat (elems : list lit) (h : heap) :
  forallb (fun e => negb (isArrayLit e)) elems = true ->
  mapM ConfigParser.store elems h = Ok (map primitiveOf elems) h.
Proof.
  induction elems as [|e elems IH]; intro F; [reflexivity|].
  simpl in F. apply andb_true_iff in F as [Fe F].
  cbn [mapM map]. unfold bind at 1.
  destruct e; try discriminate; simpl; unfold bind; rewrite (IH F); reflexivity.
Qed.

Lemma name_not_index (c : N) (r : jstr) (j : N) :
  isDigit c = false -> jstr_eqb (c :: r) (indexKey j) = false.
Proof.
  intro Hc. unfold indexKey.
  destruct (decimalDigits_head (N.to_nat (N.log2 j)) j []) as [d [r' [-> Hd]]].
  cbn [jstr_eqb]. destruct (N.eqb c d) eqn:E; [|reflexivity].
  apply N.eqb_eq in E. subst d. congruence.
Qed.

Lemma elementProps_keys (c : N) (r : jstr) (vs : list value) :
  isDigit c = false ->
  forall i, keyIn (c :: r) (map fst (ConfigParser.elementProps i vs)) = false.
Proof.
  intro Hc. unfold keyIn.
  induction vs as [|v vs IH]; intro i; [reflexivity|].
  cbn [ConfigParser.elementProps map fst existsb].
  now rewrite (name_not_index c r i Hc), IH.
Qed.

Lemma elementProps_primitive (elems : list lit) :
  forall i,
    existsb (fun kv => instanceofObject (snd kv))
            (ConfigParser.elementProps i (map primitiveOf elems)) = false.
Proof.
  induction elems as [|e elems IH]; intro i; [reflexivity|].
  cbn [map ConfigParser.elementProps existsb snd]. rewrite IH.
  destruct e; reflexivity.
Qed.

Lemma elementProps_unreferenced (b : addr) (elems : list lit) :
  forall i,
    Forall (fun kv => snd kv <> VRef b)
           (ConfigParser.elementProps i (map primitiveOf elems)).
Proof.
  induction elems as [|e elems IH]; intro i; [constructor|].
  cbn [map ConfigParser.elementProps]. constructor; [|apply IH].
  destruct e; discriminate.
Qed.

(** What [parseValue] returns is placed in the store as a primitive or as
    a new array that nothing refers to. *)
Lemma store_inferred cf (value : jstr) (h : heap) :
  good cf h ->
  post (ConfigParser.store (parseValue value) h)
       (fun v h' => inferred h' v /\ forall b, v = VRef b -> List.length h <= b)
       (fun _ => False) False.
Proof.
  intro G. destruct (parseValue value) as [b|n|s|elems] eqn:E;
    try (simpl; split; [split; [discriminate | exact I] | intros; discriminate]).
  destruct (parseValue_flat value elems E) as [L F].
  change (ConfigParser.store (LArr elems))
    with (bind (mapM ConfigParser.store elems)
               (fun vs => bind (alloc (Arr (N.of_nat (List.length vs))
                                           (ConfigParser.elementProps 0 vs)))
                               (fun a => ret (VRef a)))).
  unfold bind at 1. rewrite (mapM_store_flat elems h F).
  unfold bind, alloc, ret. cbn [post].
  split; [split|].
  - cbn [lengthOfValue]. rewrite nth_error_app2 by lia. rewrite Nat.sub_diag.
    cbn [nth_error cellProps].
    rewrite (elementProps_keys 116 (js "oString")%string _ eq_refl).
    rewrite (elementProps_keys 118 (js "alueOf")%string _ eq_refl).
    rewrite elementProps_primitive. rewrite length_map.
    replace (N.leb 2 (N.of_nat (List.length elems))) with true; [discriminate|].
    symmetry. apply N.leb_le. lia.
  - apply unreferenced_alloc.
    + eapply good_unreferenced; eauto.
    + apply elementProps_unreferenced.
  - intros b Eb. injection Eb as <-. lia.
Qed.

Lemma pair_walk (h0 : heap) (configObj : value) (section key value : jstr) (h : heap) :
  walking h0 h ->
  storable (List.length h0) (List.length h) configObj ->
  post ((v <- ConfigParser.store (parseValue value) ;;
         ConfigParser.setNestedValue configObj (keyPathOf section key) v ;;;
         ret section) h)
       (fun s h' => s = section /\ walking h0 h' /\ List.length h <= List.length h')
       (walking h0)
       (reservedPath (keyPathOf section key) = true).
Proof.
  intros W So.
  eapply post_bind;
    [apply (post_conj _ _ _ _ _ _ _ (store_walk h0 (parseValue value) h W)
                      (store_inferred _ value h (proj2 W)))
    | | intros h1 [[] _] | intros [[] _]].
  intros v h1 [[W1 [L1 S1]] [I1 B1]].
  assert (Av : apart configObj v).
  { destruct v as [| | | |b]; simpl; auto.
    intros ->. simpl in So. specialize (B1 b eq_refl). lia. }
  eapply post_bind;
    [apply (setNestedValue_walk h0 (keyPathOf section key) configObj v h1 W1)
    | | auto | auto]; auto.
  - eapply storable_mono; eauto.
  - intros u h2 [W2 L2]. simpl. split; [reflexivity | split; [assumption | lia]].
Qed.

Lemma parseLines_walk (h0 : heap) (configObj : value) (lines : list jstr) :
  forall (section : jstr) (h : heap),
    walking h0 h ->
    storable (List.length h0) (List.length h) configObj ->
    post (ConfigParser.parseLines configObj section lines h)
         (fun _ h' => walking h0 h' /\ List.length h <= List.length h')
         (walking h0)
         (existsb reservedPath (keyPaths section lines) = true).
Proof.
  induction lines as [|line rest IH]; intros section h W So; simpl.
  - split; [assumption | lia].
  - rewrite parseLine_classify.
    destruct (classify line) as [|name|key value].
    + unfold bind at 1. unfold ret at 1. apply IH; assumption.
    + unfold bind at 1. unfold ret at 1. apply IH; assumption.
    + eapply post_bind; [apply (pair_walk h0 configObj section key value h W So) | | auto | ].
      * intros section' h1 [-> [W1 L1]].
        eapply post_weaken; [apply (IH section h1 W1) | | | ].
        -- eapply storable_mono; eauto.
        -- intros u h2 [W2 L2]. split; [assumption | lia].
        -- auto.
        -- intro H. cbn [existsb]. rewrite H. apply orb_true_r.
      * intro H. cbn [existsb]. rewrite H. reflexivity.
Qed.

(** *** [deepMerge] writes nothing but its own output *)

Lemma readCell_pure (a : addr) (h : heap) :
  post (readCell a h) (fun c h' => h' = h /\ nth_error h a = Some c)
       (fun _ => False) (nth_error h a = None).
Proof.
  unfold readCell. destruct (nth_error h a); simpl; auto.
Qed.

Lemma getProp_pure (a : addr) (key : jstr) (h : heap) :
  post (getProp a key h) (fun _ h' => h' = h) (fun _ => False) True.
Proof.
  unfold getProp, bind, readCell. destruct (nth_error h a) as [c|]; simpl; auto.
  destruct (getOwn c key); simpl; auto.
  destruct (inherits c key); simpl; auto.
Qed.

Lemma getValue_pure (base : value) (key : jstr) (h : heap) :
  post (getValue base key h) (fun _ h' => h' = h) (fun h' => h' = h) True.
Proof.
  destruct base; simpl; auto.
  - destruct (arrayIndex key).
    + destruct (nth_error s (N.to_nat n)); simpl; auto.
    + destruct (jstr_eqb key keyLength); simpl; auto.
  - eapply post_weaken; [apply getProp_pure | | | ]; simpl; auto. contradiction.
Qed.

Lemma hasProperty_pure (target : value) (key : jstr) (h : heap) :
  post (hasProperty target key h) (fun _ h' => h' = h) (fun h' => h' = h) True.
Proof.
  destruct target; simpl; auto.
  unfold bind, readCell. destruct (nth_error h a) as [c|]; simpl; auto.
  destruct (getOwn c key); simpl; auto.
Qed.

Lemma spreadProps_pure (target : value) (h : heap) :
  post (spreadProps target h) (fun _ h' => h' = h) (fun _ => False) True.
Proof.
  destruct target; simpl; auto.
  unfold bind, readCell. destruct (nth_error h a); simpl; auto.
Qed.

Lemma forInKeys_pure (source : value) (h : heap) :
  post (forInKeys source h) (fun _ h' => h' = h) (fun _ => False) True.
Proof.
  destruct source; simpl; auto.
  unfold bind, readCell. destruct (nth_error h a); simpl; auto.
Qed.

(** An assignment writes the cell it is made on, and only that one. *)
Lemma setProp_frame (a : addr) (key : jstr) (v : value) (h : heap) :
  post (setProp a key v h)
       (fun _ h' => exists c, h' = updateAt h a c)
       (fun h' => h' = h) True.
Proof.
  unfold setProp, bind, readCell. destruct (nth_error h a) as [c|]; simpl; auto.
  destruct c as [ps|len ps].
  - destruct (assoc key ps); [simpl; eauto|].
    destruct (inherits (Obj ps) key); simpl; eauto.
  - destruct (jstr_eqb key keyLength).
    + destruct (lengthOfValue h v) as [[n|]|]; simpl; eauto.
    + destruct (arrayIndex key); [simpl; eauto|].
      destruct (assoc key ps); [simpl; eauto|].
      destruct (inherits (Arr len ps) key); simpl; eauto.
Qed.

Lemma setOutput_grows (h0 : heap) (output : addr) (key : jstr) (v : value) (h : heap) :
  List.length h0 <= output -> grows h0 h ->
  post (setProp output key v h) (fun _ h' => grows h0 h') (grows h0) True.
Proof.
  intros Lo [P L].
  eapply post_weaken; [apply setProp_frame | | | auto].
  - intros u h' [c ->]. split; [now apply prefix_updateAt|].
    now rewrite length_updateAt.
  - intros h' ->. now split.
Qed.

Lemma mergeKey_grows (recurse : value -> value -> M value)
      (target source : value) (output : addr) (h0 : heap) (key : jstr) (h : heap) :
  (forall t s h, post (recurse t s h) (fun _ h' => prefix h h')
                      (fun h' => prefix h h') True) ->
  List.length h0 <= output ->
  grows h0 h ->
  post (ConfigParser.mergeKey recurse target source output key h)
       (fun _ h' => grows h0 h') (grows h0) True.
Proof.
  intros Hrec Lo G.
  unfold ConfigParser.mergeKey.
  eapply post_bind; [apply getValue_pure | | intros h1 ->; exact G | auto].
  intros sk h1 ->.
  destruct (instanceofObject sk); [|now apply setOutput_grows].
  eapply post_bind; [apply hasProperty_pure | | intros h1 ->; exact G | auto].
  intros present h1 ->.
  destruct present; [|now apply setOutput_grows].
  eapply post_bind; [apply getValue_pure | | intros h1 ->; exact G | auto].
  intros tk h1 ->.
  assert (Gr : forall h', prefix h h' -> grows h0 h').
  { intros h' P. destruct G as [P0 L0]. split.
    - eapply prefix_trans; eauto.
    - apply prefix_length in P. lia. }
  eapply post_bind; [apply Hrec | | exact Gr | auto].
  intros merged h1 P1. apply setOutput_grows; [assumption|]. now apply Gr.
Qed.

Lemma mergeKeys_grows (recurse : value -> value -> M value)
      (target source : value) (output : addr) (h0 : heap) :
  (forall t s h, post (recurse t s h) (fun _ h' => prefix h h')
                      (fun h' => prefix h h') True) ->
  List.length h0 <= output ->
  forall (keys : list jstr) (h : heap),
    grows h0 h ->
    post (ConfigParser.mergeKeys recurse target source output keys h)
         (fun _ h' => grows h0 h') (grows h0) True.
Proof.
  intros Hrec Lo.
  induction keys as [|key rest IH]; intros h G; simpl; [assumption|].
  eapply post_bind;
    [apply (mergeKey_grows recurse target source output h0 key h Hrec Lo G)
    | intros u h1 G1; apply (IH h1 G1) | auto | auto].
Qed.

(** The merge leaves every existing cell as it was, [target] and [source]
    and what they refer to included, and returns a newly allocated
    object. *)
Lemma deepMerge_grows (depth : nat) :
  forall (target source : value) (h : heap),
    post (ConfigParser.deepMerge depth target source h)
         (fun r h' => prefix h h' /\ r = VRef (List.length h)
                      /\ List.length h < List.length h')
         (fun h' => prefix h h') True.
Proof.
  induction depth as [|d IH]; intros target source h; simpl.
  - apply prefix_refl.
  - eapply post_bind; [apply spreadProps_pure | | contradiction | auto].
    intros ps h1 ->.
    unfold bind at 1. unfold alloc at 1.
    assert (G : grows h (h ++ [Obj ps])).
    { split; [apply prefix_app, prefix_refl|]. rewrite length_app. simpl. lia. }
    eapply post_bind; [apply forInKeys_pure | | contradiction | auto].
    intros keys h1 ->.
    eapply post_bind;
      [apply (mergeKeys_grows (ConfigParser.deepMerge d) target source
                              (List.length h) h) | | | auto]; auto.
    + intros t s h1. eapply post_weaken; [apply (IH t s h1) | | | ]; simpl; auto.
      now intros r h' [P _].
    + intros u h1 [P L]. simpl. auto.
    + intros h1 [P L]. exact P.
Qed.

(** *** The states of the program *)

Lemma stable_initial : stable initialHeap.
Proof.
  split; [apply prefix_refl|].
  intros a c Hn.
  do 4 (destruct a as [|a]; [injection Hn as <-; simpl;
                            repeat constructor; simpl; lia|]).
  destruct a; discriminate.
Qed.

Lemma initial_cells (h : heap) (a : addr) :
  prefix initialHeap h -> a < 4 ->
  exists ps, nth_error h a = Some (Obj ps)
             /\ forall k w, In (k, w) ps -> targetOk w.
Proof.
  intros P L. rewrite (prefix_nth _ _ _ P) by (simpl; lia).
  do 4 (destruct a as [|a];
        [eexists; split; [reflexivity|];
         intros k w Hin; simpl in Hin;
         repeat (destruct Hin as [Hin|Hin]; [injection Hin as _ <-; simpl; lia|]);
         contradiction|]).
  lia.
Qed.

Lemma stable_default_fields (h : heap) :
  stable h ->
  readPath h (VRef defaultConfig) pathPostToBluesky = Some (VBool true) /\
  readPath h (VRef defaultConfig) pathEnable = Some (VBool true).
Proof.
  intros [[ext ->] _]. split; reflexivity.
Qed.

Lemma stable_length (h : heap) : stable h -> 4 <= List.length h.
Proof. intros [P _]. apply prefix_length in P. exact P. Qed.

Lemma good_key_safe (cf : option nat) (h : heap) (a : addr) (c : cell) (key : jstr) :
  good cf h -> nth_error h a = Some c -> In key (map fst (cellProps c)) ->
  keyIn key objectPrototypeNames = false.
Proof.
  intros G Hc Hin. apply in_map_iff in Hin as [[k w] [<- Hin]].
  specialize (G _ _ Hc). rewrite Forall_forall in G.
  now destruct (G _ Hin).
Qed.

Lemma good_value_ref (cf : option nat) (h : heap) (a : addr) (c : cell)
      (key : jstr) (v : value) :
  good cf h -> nth_error h a = Some c -> getOwn c key = Some v ->
  forall b, refOk None (List.length h) b v.
Proof.
  intros G Hc Hg b.
  assert (R : forall k, In (k, v) (cellProps c) -> refOk None (List.length h) b v).
  { intros k Hin. specialize (G _ _ Hc). rewrite Forall_forall in G.
    destruct (G _ Hin) as [_ R]. destruct v; simpl in *; auto. tauto. }
  destruct c as [ps|len ps]; simpl in Hg.
  - apply assoc_In in Hg as [k Hin]. eauto.
  - destruct (jstr_eqb key keyLength).
    + injection Hg as <-. exact I.
    + apply assoc_In in Hg as [k Hin]. eauto.
Qed.

Lemma stable_update (h : heap) (a : addr) (c : cell) :
  stable h -> 4 <= a ->
  Forall (entryOk None (List.length h) a) (cellProps c) ->
  stable (updateAt h a c).
Proof.
  intros [P G] La F. split.
  - apply prefix_updateAt; [assumption | simpl; lia].
  - now apply good_update.
Qed.

Lemma stable_alloc (h : heap) (c : cell) :
  stable h ->
  Forall (entryOk None (S (List.length h)) (List.length h)) (cellProps c) ->
  stable (h ++ [c]).
Proof.
  intros [P G] F. split; [now apply prefix_app | now apply good_alloc].
Qed.

Lemma setOutput_stable (hb : heap) (output : addr) (key : jstr) (v : value) (h : heap)
      (E : heap -> Prop) :
  stable hb -> output = List.length hb ->
  merging hb output h ->
  keyIn key objectPrototypeNames = false ->
  refOk None (List.length h) output v ->
  post (setProp output key v h) (fun _ h' => merging hb output h') E False.
Proof.
  intros Sb -> [S [P [ps Ho]]] Hk Rv.
  pose proof (stable_length _ Sb) as L4.
  pose proof (nth_error_in_range _ _ _ Ho) as Lo.
  unfold setProp, bind, readCell. rewrite Ho.
  assert (W : post (writeCell (List.length hb) (Obj (assocSet key v ps)) h)
                   (fun _ h' => merging hb (List.length hb) h') E False).
  { simpl. split; [|split].
    - apply stable_update; [assumption | lia |]. simpl.
      apply entries_assocSet; auto.
      destruct S as [_ G]. apply (G _ _ Ho).
    - apply prefix_updateAt; [assumption | lia].
    - rewrite nth_updateAt_same by assumption. eauto. }
  destruct (assoc key ps); [exact W|].
  unfold inherits. rewrite Hk. exact W.
Qed.

Lemma mergeKey_stable (recurse : value -> value -> M value)
      (target source : value) (hb : heap) (output : addr) (key : jstr) (h : heap) :
  mergeSpec recurse ->
  stable hb -> output = List.length hb ->
  targetOk target ->
  (exists s c, source = VRef s /\ nth_error hb s = Some c
               /\ In key (map fst (cellProps c))) ->
  merging hb output h ->
  post (ConfigParser.mergeKey recurse target source output key h)
       (fun _ h' => merging hb output h')
       (fun h' => stable h' /\ prefix hb h') False.
Proof.
  intros Hrec Sb Eo Ht [s [c [-> [Hc Hin]]]] Mg.
  pose proof Mg as [S [P [pso Ho]]].
  pose proof (nth_error_in_range _ _ _ Hc) as Ls.
  assert (Hc' : nth_error h s = Some c).
  { now rewrite (prefix_nth _ _ _ P). }
  pose proof (good_key_safe _ _ _ _ _ (proj2 S) Hc' Hin) as Hk.
  assert (Hg : exists sk, getOwn c key = Some sk).
  { destruct (In_assoc _ _ Hin) as [v Hv].
    destruct c as [ps|len ps]; simpl in *; eauto.
    destruct (jstr_eqb key keyLength); eauto. }
  destruct Hg as [sk Hg].
  pose proof (good_value_ref _ _ _ _ _ _ (proj2 S) Hc' Hg) as Rsk.
  assert (Gs : getValue (VRef s) key h = Ok sk h).
  { simpl. unfold getProp, bind, readCell. rewrite Hc', Hg. reflexivity. }
  unfold ConfigParser.mergeKey. unfold bind at 1. rewrite Gs.
  destruct sk as [| | | |b]; cbn [instanceofObject];
    try (apply setOutput_stable; auto; fail).
  destruct target as [| | | |a];
    try (unfold bind at 1; simpl; split; assumption).
  simpl in Ht.
  destruct (initial_cells h a (proj1 S) Ht) as [pst [Ha Hvals]].
  assert (Hp : hasProperty (VRef a) key h
               = Ok (match assoc key pst with Some _ => true | None => false end) h).
  { simpl. unfold bind, readCell. rewrite Ha. simpl.
    destruct (assoc key pst); [reflexivity|].
    unfold ret, inherits. now rewrite Hk. }
  unfold bind at 1. rewrite Hp.
  destruct (assoc key pst) as [tk|] eqn:Hak.
  - assert (Gt : getValue (VRef a) key h = Ok tk h).
    { simpl. unfold getProp, bind, readCell. rewrite Ha. simpl. now rewrite Hak. }
    unfold bind at 1. rewrite Gt.
    assert (Htk : targetOk tk).
    { apply assoc_In in Hak as [k Hin']. eauto. }
    assert (Hsk : sourceOk (List.length h) (VRef b)).
    { specialize (Rsk 0). simpl in Rsk. simpl. tauto. }
    eapply post_bind; [apply (Hrec tk (VRef b) h S Htk Hsk) | | | auto].
    + intros merged h1 [S1 [P1 [o [-> Lo]]]].
      apply setOutput_stable; auto.
      * split; [assumption|]. split; [eapply prefix_trans; eauto|].
        exists pso. rewrite (prefix_nth _ _ _ P1); [assumption|].
        eapply nth_error_in_range; eauto.
      * simpl. auto.
    + intros h1 [S1 P1]. split; [assumption | eapply prefix_trans; eauto].
  - apply setOutput_stable; auto.
Qed.

Lemma mergeKeys_stable (recurse : value -> value -> M value)
      (target source : value) (hb : heap) (output : addr) :
  mergeSpec recurse ->
  stable hb -> output = List.length hb ->
  targetOk target ->
  forall (keys : list jstr) (h : heap),
    (forall key, In key keys ->
                 exists s c, source = VRef s /\ nth_error hb s = Some c
                             /\ In key (map fst (cellProps c))) ->
    merging hb output h ->
    post (ConfigParser.mergeKeys recurse target source output keys h)
         (fun _ h' => merging hb output h')
         (fun h' => stable h' /\ prefix hb h') False.
Proof.
  intros Hrec Sb Eo Ht.
  induction keys as [|key rest IH]; intros h Hkeys Mg; simpl; [assumption|].
  eapply post_bind;
    [apply (mergeKey_stable recurse target source hb output key h); auto
    | | auto | auto].
  - apply Hkeys. now left.
  - intros u h1 M1. apply IH; [|assumption].
    intros k Hin. apply Hkeys. now right.
Qed.

Lemma stringProps_entries (n : nat) (a : addr) (s : jstr) :
  forall i, Forall (entryOk None n a) (stringProps i s).
Proof.
  induction s as [|c s IH]; intro i; simpl; constructor; [|apply IH].
  split; simpl; [|exact I].
  apply arrayNames_objectNames, indexKey_not_inherited.
Qed.

Lemma spread_entries (h : heap) (a : addr) (c : cell) (n : nat) (o : addr) :
  good None h -> nth_error h a = Some c -> List.length h <= n ->
  Forall (entryOk None n o)
         (map (fun k => (k, match assoc k (cellProps c) with
                            | Some v => v
                            | None => VUndefined
                            end))
              (ownKeys (cellProps c))).
Proof.
  intros G Hc Ln. apply Forall_forall. intros [k v] Hin.
  apply in_map_iff in Hin as [k' [E Hk]]. injection E as -> <-.
  apply In_ownKeys in Hk. split; simpl.
  - eapply good_key_safe; eauto.
  - destruct (assoc k (cellProps c)) as [v|] eqn:Ha; [|exact I].
    apply assoc_In in Ha as [k' Hin].
    specialize (G _ _ Hc). rewrite Forall_forall in G.
    destruct (G _ Hin) as [_ R].
    destruct v; simpl in *; auto. split; [lia | exact I].
Qed.

Lemma deepMerge_stable (depth : nat) : mergeSpec (ConfigParser.deepMerge depth).
Proof.
  induction depth as [|d IH]; intros target source h S Ht Hs; simpl.
  - split; [assumption | apply prefix_refl].
  - pose proof (stable_length _ S) as L4.
    assert (Sp : exists ps, spreadProps target h = Ok ps h
                            /\ Forall (entryOk None (Datatypes.S (List.length h))
                                               (List.length h)) ps).
    { destruct target as [| | |s|a]; simpl; try (eexists; split; [reflexivity|constructor]).
      - eexists; split; [reflexivity|]. apply stringProps_entries.
      - simpl in Ht. destruct (initial_cells h a (proj1 S) Ht) as [pst [Ha _]].
        unfold bind, readCell. rewrite Ha. eexists; split; [reflexivity|].
        apply (spread_entries h a (Obj pst)); [apply S | assumption | lia]. }
    destruct Sp as [ps [Esp Fps]].
    unfold bind at 1. rewrite Esp.
    unfold bind at 1. unfold alloc at 1.
    assert (S1 : stable (h ++ [Obj ps])) by (now apply stable_alloc).
    assert (M1 : merging h (List.length h) (h ++ [Obj ps])).
    { split; [assumption|]. split; [apply prefix_app, prefix_refl|].
      exists ps. rewrite nth_error_app2 by lia. now rewrite Nat.sub_diag. }
    assert (Fk : exists keys,
               forInKeys source (h ++ [Obj ps]) = Ok keys (h ++ [Obj ps])
               /\ forall key, In key keys ->
                    exists s c, source = VRef s /\ nth_error h s = Some c
                                /\ In key (map fst (cellProps c))).
    { destruct source as [| | |s|s]; simpl;
        try (eexists; split; [reflexivity | intros key []]).
      - contradiction.
      - simpl in Hs. destruct (nth_error h s) as [c|] eqn:Hc.
        2:{ apply nth_error_None in Hc. lia. }
        unfold bind, readCell. rewrite nth_error_app1 by assumption. rewrite Hc.
        eexists; split; [reflexivity|].
        intros key Hin. exists s, c. repeat split; auto. now apply In_ownKeys. }
    destruct Fk as [keys [Ek Hkeys]].
    unfold bind at 1. rewrite Ek.
    eapply post_bind;
      [apply (mergeKeys_stable (ConfigParser.deepMerge d) target source h
                               (List.length h) IH S eq_refl Ht keys _ Hkeys M1)
      | | auto | auto].
    intros u h1 [S' [P' [pso Ho]]]. simpl.
    split; [assumption|]. split; [assumption|].
    eexists; split; [reflexivity|]. eapply nth_error_in_range; eauto.
Qed.

(** *** The schema *)

Lemma validate_boolean (h : heap) (d : bool) (v : value)
      (issues : list issue) (r : validated) :
  validate h (ZBooleanDefault d) v = (issues, Some r) -> exists b, r = VdBool b.
Proof.
  destruct v; simpl; intro H; inversion H; eauto.
Qed.

Lemma validate_object1 (h : heap) (k : jstr) (s : schema) (v : value)
      (issues : list issue) (r : validated) :
  validate h (ZObjectSchema [(k, s)]) v = (issues, Some r) ->
  exists field i x, validate h s field = (i, Some x) /\ r = VdObject [(k, x)].
Proof.
  destruct v as [| | | |a]; simpl; try discriminate.
  destruct (nth_error h a) as [[ps|len ps]|]; try discriminate.
  destruct (validate h s _) as [i1 [x|]] eqn:E; simpl; try discriminate.
  intro H. injection H as _ <-. eauto.
Qed.

Lemma validate_object2 (h : heap) (k1 k2 : jstr) (s1 s2 : schema) (v : value)
      (issues : list issue) (r : validated) :
  validate h (ZObjectSchema [(k1, s1); (k2, s2)]) v = (issues, Some r) ->
  exists f1 i1 x1 f2 i2 x2,
    validate h s1 f1 = (i1, Some x1) /\ validate h s2 f2 = (i2, Some x2)
    /\ r = VdObject [(k1, x1); (k2, x2)].
Proof.
  destruct v as [| | | |a]; simpl; try discriminate.
  destruct (nth_error h a) as [[ps|len ps]|]; try discriminate.
  destruct (validate h s1 _) as [i1 [x1|]] eqn:E1;
    destruct (validate h s2 _) as [i2 [x2|]] eqn:E2; simpl; try discriminate.
  intro H. injection H as _ <-. eauto 10.
Qed.

Lemma validate_configSchema (h : heap) (data : value)
      (issues : list issue) (r : validated) :
  validate h configSchema data = (issues, Some r) ->
  exists b1 b2, r = configTree b1 b2.
Proof.
  unfold configSchema. intro H.
  apply validate_object2 in H as [f1 [i1 [x1 [f2 [i2 [x2 [E1 [E2 ->]]]]]]]].
  apply validate_object1 in E1 as [g1 [j1 [y1 [E1 ->]]]].
  apply validate_object1 in E1 as [g1' [j1' [y1' [E1 ->]]]].
  apply validate_boolean in E1 as [b1 ->].
  apply validate_object1 in E2 as [g2 [j2 [y2 [E2 ->]]]].
  apply validate_boolean in E2 as [b2 ->].
  now exists b1, b2.
Qed.

Lemma allocValidated_configTree (b1 b2 : bool) (h : heap) :
  allocValidated (configTree b1 b2) h
  = Ok (VRef (3 + List.length h))
       (h ++ [ Obj [(js "postToBluesky", VBool b1)];
               Obj [(js "commits", VRef (List.length h))];
               Obj [(js "enable", VBool b2)];
               Obj [(js "github", VRef (1 + List.length h));
                    (js "stats", VRef (2 + List.length h))] ]).
Proof.
  unfold configTree. simpl. unfold bind, ret, alloc. simpl.
  repeat rewrite length_app. simpl.
  repeat rewrite <- app_assoc. simpl.
  repeat rewrite Nat.add_1_r. reflexivity.
Qed.

Lemma nth_error_past {A} (l ext : list A) (i : nat) :
  nth_error (l ++ ext) (i + List.length l) = nth_error ext i.
Proof.
  rewrite nth_error_app2 by lia. f_equal. lia.
Qed.

Lemma readPath_step (h : heap) (a : addr) (c : cell) (k : jstr) (w : value)
      (rest : list jstr) :
  nth_error h a = Some c -> getOwn c k = Some w ->
  readPath h (VRef a) (k :: rest) = readPath h w rest.
Proof. intros Hc Hg. simpl. now rewrite Hc, Hg. Qed.

Lemma schemaParse_stable (data : value) (h : heap) :
  stable h ->
  post (schemaParse configSchema data h)
       (fun r h' => stable h' /\ prefix h h' /\ fieldsBoolean h' r)
       (fun h' => h' = h) False.
Proof.
  intro S. unfold schemaParse.
  destruct (validate h configSchema data) as [issues r] eqn:E.
  destruct issues as [|i issues]; [|reflexivity].
  destruct r as [r|]; [|reflexivity].
  apply validate_configSchema in E as [b1 [b2 ->]].
  rewrite allocValidated_configTree. simpl.
  split; [|split].
  - match goal with
    | |- stable (h ++ [?c1; ?c2; ?c3; ?c4]) =>
        replace (h ++ [c1; c2; c3; c4])
          with ((((h ++ [c1]) ++ [c2]) ++ [c3]) ++ [c4])
          by (repeat rewrite <- app_assoc; reflexivity)
    end.
    repeat (apply stable_alloc;
            [| repeat rewrite length_app; simpl;
               repeat (constructor; [split; [reflexivity | simpl; try lia; exact I]|]);
               constructor]).
    assumption.
  - apply prefix_app, prefix_refl.
  - exists b1, b2.
    match goal with
    | |- context [h ++ ?ext] =>
        assert (N : forall i c, nth_error ext i = Some c ->
                                nth_error (h ++ ext) (i + List.length h) = Some c)
          by (intros i c Hc; now rewrite nth_error_past)
    end.
    unfold pathPostToBluesky, pathEnable. split.
    + rewrite (readPath_step _ _ _ (js "github") _ _ (N 3 _ eq_refl) eq_refl).
      rewrite (readPath_step _ _ _ (js "commits") _ _ (N 1 _ eq_refl) eq_refl).
      rewrite (readPath_step _ _ _ (js "postToBluesky") _ _ (N 0 _ eq_refl) eq_refl).
      reflexivity.
    + rewrite (readPath_step _ _ _ (js "stats") _ _ (N 3 _ eq_refl) eq_refl).
      rewrite (readPath_step _ _ _ (js "enable") _ _ (N 2 _ eq_refl) eq_refl).
      reflexivity.
Qed.

(** *** [parseContent] and [createConfig] *)

Lemma post_tryCatch {A} (m : M A) (handler : error -> M A) (h : heap)
      (Q : A -> heap -> Prop) (E : heap -> Prop) (Hs : Prop) :
  post (m h) Q E Hs ->
  (forall e h', exists e', handler e h' = Throw e' h') ->
  post (tryCatch m handler h) Q E Hs.
Proof.
  intros H Hh. unfold tryCatch. destruct (m h) as [a h'|e h'|]; simpl in *; auto.
  destruct (Hh e h') as [e' ->]. exact H.
Qed.

Lemma walking_stable (h0 h : heap) :
  stable h0 -> walking h0 h -> stable h /\ prefix h0 h.
Proof.
  intros [P0 _] [P G]. split; [split|]; auto.
  - eapply prefix_trans; eauto.
  - eapply good_forget; eauto.
Qed.

Lemma buildConfigObj_stable (content : jstr) (h : heap) :
  stable h ->
  post (ConfigParser.buildConfigObj content h)
       (fun r h' => stable h' /\ prefix h h' /\ sourceOk (List.length h') r)
       (fun h' => stable h' /\ prefix h h')
       (mentionsReserved content = true).
Proof.
  intro S. unfold ConfigParser.buildConfigObj.
  unfold bind at 1. unfold alloc at 1.
  assert (L1 : List.length (h ++ [Obj []]) = Datatypes.S (List.length h)).
  { rewrite length_app. simpl. lia. }
  assert (W1 : walking h (h ++ [Obj []])).
  { split; [apply prefix_app, prefix_refl|].
    apply good_alloc; [apply good_close, S | constructor]. }
  eapply post_bind;
    [apply (parseLines_walk h (VRef (List.length h)) (split chNewline content)
                            [] (h ++ [Obj []]) W1)
    | | | auto].
  - simpl. lia.
  - intros u h1 [W L]. simpl.
    destruct (walking_stable h h1 S W) as [S1 P1].
    repeat split; try apply S1; try assumption. lia.
  - intros h1 W. now apply walking_stable.
Qed.

Lemma parseContent_stable (this : ConfigParser.t) (content : jstr) (h : heap) :
  stable h ->
  post (ConfigParser.parseContent this content h)
       (fun r h' => stable h' /\ prefix h h' /\ fieldsBoolean h' r)
       (fun h' => stable h' /\ prefix h h')
       (mentionsReserved content = true).
Proof.
  intro S. unfold ConfigParser.parseContent.
  eapply post_bind; [apply (buildConfigObj_stable content h S) | | auto | auto].
  intros configObj h1 [S1 [P1 So]].
  apply post_tryCatch.
  2:{ intros e h'. destruct e; eexists; reflexivity. }
  eapply post_bind;
    [apply (deepMerge_stable ConfigParser.callStackLimit (VRef defaultConfig)
                             configObj h1 S1)
    | | | contradiction]; auto.
  - unfold defaultConfig. simpl. lia.
  - intros merged h2 [S2 [P2 _]].
    eapply post_weaken; [apply (schemaParse_stable merged h2 S2) | | | contradiction].
    + intros r h3 [S3 [P3 F3]]. split; [assumption|]. split; [|assumption].
      eapply prefix_trans; eauto. eapply prefix_trans; eauto.
    + intros h3 ->. split; [assumption | eapply prefix_trans; eauto].
  - intros h2 [S2 P2]. split; [assumption | eapply prefix_trans; eauto].
Qed.

Lemma parseFile_stable (this : ConfigParser.t) (content : jstr) (h : heap) :
  stable h ->
  post (ConfigParser.parseFile this content h)
       (fun r h' => stable h' /\ prefix h h' /\ fieldsBoolean h' r)
       (fun h' => stable h' /\ prefix h h')
       (mentionsReserved content = true).
Proof.
  intro S. unfold ConfigParser.parseFile. apply post_tryCatch.
  - now apply parseContent_stable.
  - intros e h'. eexists. reflexivity.
Qed.

Lemma createConfig_cases (getFileContent : jstr -> jstr -> fetched)
      (repository filePath : jstr) (h : heap) :
  createConfig getFileContent repository filePath h =
  if invalidRepository repository
  then Ok (VRef defaultConfig, [InvalidRepositoryFormat]) h
  else match getFileContent (fullRepoPath repository) filePath with
       | Content content =>
           match ConfigParser.parseFile ConfigParser.new content h with
           | Ok c h' => Ok (c, []) h'
           | Throw e h' => Ok (VRef defaultConfig, [UsingDefaultConfig e]) h'
           | Host => Host
           end
       | Rejected e => Ok (VRef defaultConfig, [UsingDefaultConfig e]) h
       end.
Proof.
  unfold createConfig, invalidRepository, fullRepoPath, tryCatch.
  destruct (split chSlash repository) as [|owner [|repo rest]]; try reflexivity.
  destruct (isNil owner || isNil repo)%bool; [reflexivity|].
  destruct (getFileContent (owner ++ chSlash :: repo) filePath); [|reflexivity].
  unfold bind.
  destruct (ConfigParser.parseFile ConfigParser.new text h); reflexivity.
Qed.

Lemma createConfig_stable (getFileContent : jstr -> jstr -> fetched)
      (repository filePath : jstr) (h : heap) :
  stable h ->
  post (createConfig getFileContent repository filePath h)
       (fun r h' => stable h' /\ prefix h h' /\ fieldsBoolean h' (fst r))
       (fun _ => False)
       (exists content,
           getFileContent (fullRepoPath repository) filePath = Content content
           /\ mentionsReserved content = true).
Proof.
  intro S. rewrite createConfig_cases.
  assert (D : forall l h', stable h' -> prefix h h' ->
                post (Ok (VRef defaultConfig, l) h')
                     (fun (r : value * list logLine) h'' =>
                        stable h'' /\ prefix h h'' /\ fieldsBoolean h'' (fst r))
                     (fun _ => False)
                     (exists content,
                         getFileContent (fullRepoPath repository) filePath = Content content
                         /\ mentionsReserved content = true)).
  { intros l h' S' P'. simpl. repeat split; try apply S'; try assumption.
    destruct (stable_default_fields h' S') as [F1 F2].
    exists true, true. auto. }
  destruct (invalidRepository repository); [apply D; [assumption | apply prefix_refl]|].
  destruct (getFileContent (fullRepoPath repository) filePath) as [content|e] eqn:Ef;
    [|apply D; [assumption | apply prefix_refl]].
  pose proof (parseFile_stable ConfigParser.new content h S) as PF.
  destruct (ConfigParser.parseFile ConfigParser.new content h) as [c h'|e h'|];
    simpl in PF.
  - simpl. exact PF.
  - destruct PF as [S' P']. now apply D.
  - simpl. eauto.
Qed.

Lemma invoke_stable (i : invocation) (h h' : heap) :
  stable h -> invoke i h = Some h' -> stable h' /\ prefix h h'.
Proof.
  intros S. destruct i as [content | f r p]; simpl.
  - pose proof (parseContent_stable ConfigParser.new content h S) as H.
    destruct (ConfigParser.parseContent ConfigParser.new content h);
      simpl in H; intro E; inversion E; subst; tauto.
  - pose proof (createConfig_stable f r p h S) as H.
    destruct (createConfig f r p h); simpl in H; intro E; inversion E; subst; tauto.
Qed.

Lemma invokeAll_stable (calls : list invocation) :
  forall h h', stable h -> invokeAll calls h = Some h' -> stable h' /\ prefix h h'.
Proof.
  induction calls as [|i rest IH]; intros h h' S; simpl.
  - intro E. injection E as <-. split; [assumption | apply prefix_refl].
  - destruct (invoke i h) as [h1|] eqn:E1; [|discriminate].
    intro E. destruct (invoke_stable i h h1 S E1) as [S1 P1].
    destruct (IH h1 h' S1 E) as [S' P'].
    split; [assumption | eapply prefix_trans; eauto].
Qed.

(** ** The claims about the resolver *)



(** A text without reserved names in its key paths always yields a
    result. *)
Lemma createConfig_returns (getFileContent : jstr -> jstr -> fetched)
      (repository filePath : jstr) (h : heap) :
  stable h ->
  (forall content,
      getFileContent (fullRepoPath repository) filePath = Content content ->
      mentionsReserved content = false) ->
  exists config log h',
    createConfig getFileContent repository filePath h = Ok (config, log) h'
    /\ stable h' /\ fieldsBoolean h' config.
Proof.
  intros S Hc. pose proof (createConfig_stable getFileContent repository filePath h S) as H.
  destruct (createConfig getFileContent repository filePath h)
    as [[config log] h'|e h'|]; simpl in H.
  - exists config, log, h'. tauto.
  - contradiction.
  - destruct H as [content [E M]]. rewrite (Hc content E) in M. discriminate.
Qed.

(** Where the store ends: a key path through a member of a built-in
    prototype reaches a built-in object, while the [length] of an array is
    a property of the store like any other. *)
Lemma createConfig_boundary :
  createConfig (fun _ _ => Content (js "constructor.name=x"))
               (js "owner/repo") remConf initialHeap = Host
  /\ exists h',
      createConfig
        (fun _ _ => Content (js "a=1,2" ++ chNewline :: js "a.length=0"
                                ++ chNewline :: js "a.length.x=1"))
        (js "owner/repo") remConf initialHeap
      = Ok (VRef defaultConfig, [UsingDefaultConfig RangeError]) h'.
Proof.
  split; [vm_compute; reflexivity|].
  eexists. vm_compute. reflexivity.
Qed.

(** The texts named by the claim: empty, comments only, and bytes that
    form no line of the dialect. *)
Lemma createConfig_degenerate_texts :
  forall text,
    In text [ []; js "# only a comment"; [0; 255; 65533; 27; 7]%N ] ->
    forall repository h,
      stable h ->
      exists config log h',
        createConfig (fun _ _ => Content text) repository remConf h
        = Ok (config, log) h'
        /\ fieldsBoolean h' config.
Proof.
  intros text Hin repository h S.
  destruct (createConfig_returns (fun _ _ => Content text) repository remConf h S)
    as [config [log [h' [E [_ F]]]]].
  - intros content E. injection E as <-.
    simpl in Hin. repeat (destruct Hin as [<-|Hin]; [vm_compute; reflexivity|]).
    contradiction.
  - eauto.
Qed.

(** C4: when the repository identifier is malformed or the fetch fails,
    [createConfig] returns the default configuration object, whose two
    fields are [true], and throws nothing. *)
Theorem createConfig_falls_back_to_default :
  forall (getFileContent : jstr -> jstr -> fetched)
         (repository filePath : jstr) (h : heap),
    stable h ->
    invalidRepository repository = true
    \/ (exists e, getFileContent (fullRepoPath repository) filePath = Rejected e) ->
    exists log,
      createConfig getFileContent repository filePath h
      = Ok (VRef defaultConfig, log) h
      /\ readPath h (VRef defaultConfig) pathPostToBluesky = Some (VBool true)
      /\ readPath h (VRef defaultConfig) pathEnable = Some (VBool true).
Proof.
  intros f r p h S Hfail. rewrite createConfig_cases.
  destruct (stable_default_fields h S) as [F1 F2].
  destruct (invalidRepository r) eqn:Ei; [eauto|].
  destruct Hfail as [Hf | [e Hf]]; [discriminate|].
  rewrite Hf. eauto.
Qed.

Lemma createConfig_falls_back_to_default_witness :
  ((stable initialHeap /\
    (invalidRepository (js "no-slash") = true
     \/ exists e, (fun _ _ : jstr => Content (js "stats.enable=false"))
                    (fullRepoPath (js "no-slash")) remConf = Rejected e)) /\
   exists log,
     createConfig (fun _ _ => Content (js "stats.enable=false"))
                  (js "no-slash") remConf initialHeap
     = Ok (VRef defaultConfig, log) initialHeap
     /\ readPath initialHeap (VRef defaultConfig) pathPostToBluesky = Some (VBool true)
     /\ readPath initialHeap (VRef defaultConfig) pathEnable = Some (VBool true))
  /\
  ((stable initialHeap /\
    (invalidRepository (js "owner/repo") = true
     \/ exists e, (fun _ _ : jstr => Rejected (FetchError (js "404")))
                    (fullRepoPath (js "owner/repo")) remConf = Rejected e)) /\
   exists log,
     createConfig (fun _ _ => Rejected (FetchError (js "404")))
                  (js "owner/repo") remConf initialHeap
     = Ok (VRef defaultConfig, log) initialHeap
     /\ readPath initialHeap (VRef defaultConfig) pathPostToBluesky = Some (VBool true)
     /\ readPath initialHeap (VRef defaultConfig) pathEnable = Some (VBool true)).
Proof.
  split; split.
  - split; [exact stable_initial | left; reflexivity].
  - apply (createConfig_falls_back_to_default
             (fun _ _ => Content (js "stats.enable=false"))
             (js "no-slash") remConf initialHeap).
    + exact stable_initial.
    + left. reflexivity.
  - split; [exact stable_initial | right; eexists; reflexivity].
  - apply (createConfig_falls_back_to_default
             (fun _ _ => Rejected (FetchError (js "404")))
             (js "owner/repo") remConf initialHeap).
    + exact stable_initial.
    + right. eexists. reflexivity.
Defined.



(** ** The path assigner on leaves *)

Lemma nth_error_alloc_old (h : heap) (c : cell) (a : addr) :
  a < List.length h -> nth_error (h ++ [c]) a = nth_error h a.
Proof. intro L. now apply nth_error_app1. Qed.

Lemma nth_error_alloc_new (h : heap) (c : cell) :
  nth_error (h ++ [c]) (List.length h) = Some c.
Proof. rewrite nth_error_app2 by lia. now rewrite Nat.sub_diag. Qed.

Lemma setProp_fresh_key (h : heap) (o : addr) (key : jstr) (v : value) :
  nth_error h o = Some (Obj []) ->
  keyIn key objectPrototypeNames = false ->
  setProp o key v h = Ok tt (updateAt h o (Obj [(key, v)])).
Proof.
  intros Ho Hk. unfold setProp, bind, readCell. rewrite Ho. simpl.
  unfold inherits. rewrite Hk. reflexivity.
Qed.

(** From an empty object the walk creates one object per segment and
    stores the value under the last one; no other cell is written. *)
Lemma setNestedValue_from_empty (path : list jstr) :
  path <> [] ->
  forall (v : value) (h : heap) (o : addr),
    nth_error h o = Some (Obj []) ->
    plainPath path = true ->
    exists h',
      ConfigParser.setNestedValue (VRef o) path v h = Ok tt h'
      /\ readPath h' (VRef o) path = Some v
      /\ List.length h <= List.length h'
      /\ forall b, b < List.length h -> b <> o -> nth_error h' b = nth_error h b.
Proof.
  induction path as [|key rest IH]; [contradiction|].
  intros _ v h o Ho Hp.
  pose proof (nth_error_in_range _ _ _ Ho) as Lo.
  simpl in Hp. apply andb_true_iff in Hp as [Hk Hp].
  apply negb_true_iff in Hk.
  destruct rest as [|k2 rest].
  - exists (updateAt h o (Obj [(key, v)])).
    simpl ConfigParser.setNestedValue. unfold setValue.
    rewrite (setProp_fresh_key h o key v Ho Hk).
    split; [reflexivity|]. split; [|split].
    + simpl. rewrite nth_updateAt_same by assumption.
      simpl. now rewrite jstr_eqb_refl.
    + now rewrite length_updateAt.
    + intros b _ Hb. now apply nth_updateAt_other.
  - change (ConfigParser.setNestedValue (VRef o) (key :: k2 :: rest) v)
      with (bind (ConfigParser.descend (VRef o) key)
                 (fun current => ConfigParser.setNestedValue current (k2 :: rest) v)).
    set (o' := List.length h).
    set (h1 := h ++ [Obj []]).
    set (h2 := updateAt h1 o (Obj [(key, VRef o')])).
    assert (D : ConfigParser.descend (VRef o) key h = Ok (VRef o') h2).
    { unfold ConfigParser.descend, getProp, bind, readCell. rewrite Ho. simpl.
      unfold inherits. rewrite Hk. unfold ret. simpl. unfold alloc.
      rewrite (setProp_fresh_key (h ++ [Obj []]) o key (VRef (List.length h)));
        [reflexivity | | assumption].
      now rewrite nth_error_alloc_old. }
    assert (Ho' : nth_error h2 o' = Some (Obj [])).
    { unfold h2, h1, o'. rewrite nth_updateAt_other by lia.
      apply nth_error_alloc_new. }
    assert (L2 : List.length h2 = S (List.length h)).
    { unfold h2, h1. rewrite length_updateAt, length_app. simpl. lia. }
    destruct (IH ltac:(discriminate) v h2 o' Ho' Hp) as [h' [E [R [L F]]]].
    exists h'. unfold bind. rewrite D. split; [exact E|]. split; [|split].
    + assert (Hc : nth_error h' o = Some (Obj [(key, VRef o')])).
      { rewrite F by (unfold o'; lia).
        unfold h2. apply nth_updateAt_same. unfold h1.
        rewrite length_app. simpl. lia. }
      rewrite (readPath_step h' o _ key (VRef o') _ Hc); [exact R|].
      simpl. now rewrite jstr_eqb_refl.
    + lia.
    + intros b Lb Hb. rewrite F by (unfold o'; lia).
      unfold h2. rewrite nth_updateAt_other by auto.
      unfold h1. now apply nth_error_alloc_old.
Qed.

(** C7, as stated, fails: over the leaf [true] the assignment raises
    [TypeError] and the root is left as it was; a text that does this
    is answered with the default configuration. *)
Lemma setNestedValue_truthy_leaf_throws :
  ConfigParser.setNestedValue (VRef 0) [js "a"; js "b"] (VNum (numberOfN 1))
                              [Obj [(js "a", VBool true)]]
  = Throw TypeError [Obj [(js "a", VBool true)]]
  /\ exists h',
      createConfig (fun _ _ => Content (js "a=true" ++ chNewline :: js "a.b=1"))
                   (js "owner/repo") remConf initialHeap
      = Ok (VRef defaultConfig, [UsingDefaultConfig TypeError]) h'.
Proof.
  split; [vm_compute; reflexivity|].
  eexists. vm_compute. reflexivity.
Qed.

(** C7, amended: a falsy primitive at an intermediate segment ([false],
    a zero, [NaN], the empty string) is replaced by a new mapping and the
    value is assigned under the remaining segments; a truthy primitive
    stays, and the assignment that follows raises [TypeError] with the
    store unchanged. *)
Theorem setNestedValue_leaf_policy :
  forall (h : heap) (a : addr) (ps : props) (key next : jstr)
         (rest : list jstr) (v leaf : value),
    nth_error h a = Some (Obj ps) ->
    assoc key ps = Some leaf ->
    isPrimitive leaf = true ->
    (truthy leaf = false ->
     plainPath (next :: rest) = true ->
     exists h',
       ConfigParser.setNestedValue (VRef a) (key :: next :: rest) v h = Ok tt h'
       /\ readPath h' (VRef a) [key] = Some (VRef (List.length h))
       /\ readPath h' (VRef a) (key :: next :: rest) = Some v)
    /\ (truthy leaf = true ->
        jstr_eqb next keyProto = false ->
        ConfigParser.setNestedValue (VRef a) (key :: next :: rest) v h
        = Throw TypeError h).
Proof.
  intros h a ps key next rest v leaf Ha Hk Hprim.
  pose proof (nth_error_in_range _ _ _ Ha) as La.
  change (ConfigParser.setNestedValue (VRef a) (key :: next :: rest) v)
    with (bind (ConfigParser.descend (VRef a) key)
               (fun current => ConfigParser.setNestedValue current (next :: rest) v)).
  split.
  - intros Hf Hp.
    set (o := List.length h).
    set (h2 := updateAt (h ++ [Obj []]) a (Obj (assocSet key (VRef o) ps))).
    assert (D : ConfigParser.descend (VRef a) key h = Ok (VRef o) h2).
    { unfold ConfigParser.descend, getProp, bind, readCell. rewrite Ha. simpl.
      rewrite Hk. unfold ret at 1. rewrite Hf. unfold alloc, ret.
      cbv beta iota.
      unfold setProp, bind, readCell. rewrite nth_error_alloc_old by assumption.
      rewrite Ha, Hk. reflexivity. }
    assert (Ho : nth_error h2 o = Some (Obj [])).
    { unfold h2, o. rewrite nth_updateAt_other by lia. apply nth_error_alloc_new. }
    destruct (setNestedValue_from_empty (next :: rest) ltac:(discriminate)
                                        v h2 o Ho Hp) as [h' [E [R [L F]]]].
    assert (Hc : nth_error h' a = Some (Obj (assocSet key (VRef o) ps))).
    { assert (L2 : List.length h2 = S (List.length h)).
      { unfold h2. rewrite length_updateAt, length_app. simpl. lia. }
      rewrite F by (unfold o; lia).
      unfold h2. apply nth_updateAt_same. rewrite length_app. simpl. lia. }
    exists h'. unfold bind. rewrite D. split; [exact E|].
    assert (G : getOwn (Obj (assocSet key (VRef o) ps)) key = Some (VRef o)).
    { simpl. apply assoc_assocSet. }
    split.
    + now rewrite (readPath_step h' a _ key (VRef o) [] Hc G).
    + now rewrite (readPath_step h' a _ key (VRef o) (next :: rest) Hc G).
  - intros Ht Hn.
    assert (D : ConfigParser.descend (VRef a) key h = Ok leaf h).
    { unfold ConfigParser.descend, getProp, bind, readCell. rewrite Ha. simpl.
      rewrite Hk. unfold ret at 1. rewrite Ht. unfold ret.
      cbv beta iota.
      unfold setProp, bind, readCell. rewrite Ha, Hk.
      unfold writeCell. rewrite (assocSet_same key leaf ps Hk).
      now rewrite (updateAt_same h a (Obj ps) Ha). }
    unfold bind. rewrite D.
    destruct leaf; try discriminate; destruct rest; simpl; rewrite Hn; reflexivity.
Qed.

Lemma setNestedValue_leaf_policy_witness :
  ((nth_error [Obj [(js "a", VBool false); (js "c", VStr (js "x"))]] 0
    = Some (Obj [(js "a", VBool false); (js "c", VStr (js "x"))])
    /\ assoc (js "a") [(js "a", VBool false); (js "c", VStr (js "x"))]
       = Some (VBool false)
    /\ isPrimitive (VBool false) = true
    /\ truthy (VBool false) = false
    /\ plainPath [js "b"] = true)
   /\ exists h',
       ConfigParser.setNestedValue (VRef 0) [js "a"; js "b"] (VBool true)
         [Obj [(js "a", VBool false); (js "c", VStr (js "x"))]] = Ok tt h'
       /\ readPath h' (VRef 0) [js "a"] = Some (VRef 1)
       /\ readPath h' (VRef 0) [js "a"; js "b"] = Some (VBool true))
  /\ ((nth_error [Obj [(js "a", VStr (js "x"))]] 0 = Some (Obj [(js "a", VStr (js "x"))])
       /\ assoc (js "a") [(js "a", VStr (js "x"))] = Some (VStr (js "x"))
       /\ isPrimitive (VStr (js "x")) = true
       /\ truthy (VStr (js "x")) = true
       /\ jstr_eqb (js "b") keyProto = false)
      /\ ConfigParser.setNestedValue (VRef 0) [js "a"; js "b"] (VBool true)
           [Obj [(js "a", VStr (js "x"))]]
         = Throw TypeError [Obj [(js "a", VStr (js "x"))]]).
Proof.
  split; (split; [repeat split; reflexivity|]).
  - apply (proj1 (setNestedValue_leaf_policy
                    [Obj [(js "a", VBool false); (js "c", VStr (js "x"))]] 0
                    [(js "a", VBool false); (js "c", VStr (js "x"))]
                    (js "a") (js "b") [] (VBool true) (VBool false)
                    eq_refl eq_refl eq_refl));
      reflexivity.
  - apply (proj2 (setNestedValue_leaf_policy
                    [Obj [(js "a", VStr (js "x"))]] 0 [(js "a", VStr (js "x"))]
                    (js "a") (js "b") [] (VBool true) (VStr (js "x"))
                    eq_refl eq_refl eq_refl));
      reflexivity.
Defined.

(** ** Strict validation *)

Lemma validateFields_field (check : schema -> value -> list issue * option validated)
      (ps : props) (shape : list (jstr * schema)) (k : jstr) (s : schema) :
  forall issues fs,
    validateFields check ps shape = (issues, Some fs) ->
    In (k, s) shape ->
    exists i x,
      check s (match assoc k ps with Some v => v | None => VUndefined end)
      = (i, Some x).
Proof.
  induction shape as [|[k' s'] shape IH]; intros issues fs H Hin; [contradiction|].
  simpl in H.
  destruct (check s' _) as [i1 [x1|]] eqn:E1;
    destruct (validateFields check ps shape) as [i2 [fs2|]] eqn:E2;
    try discriminate.
  destruct Hin as [Hin|Hin].
  - injection Hin as -> ->. eauto.
  - eapply IH; eauto.
Qed.

(** A declared field that validates was valid at the value held by the
    data. *)
Lemma validate_field (h : heap) (shape : list (jstr * schema)) (data : value)
      (issues : list issue) (r : validated) (k : jstr) (s : schema)
      (rest : list jstr) (v : value) :
  validate h (ZObjectSchema shape) data = (issues, Some r) ->
  In (k, s) shape ->
  readPath h data (k :: rest) = Some v ->
  exists w i x, validate h s w = (i, Some x) /\ readPath h w rest = Some v.
Proof.
  intros H Hin R.
  destruct data as [| | | |a]; try discriminate.
  simpl in H, R.
  destruct (nth_error h a) as [[ps|len ps]|]; try discriminate.
  destruct (validateFields (validate h) ps shape) as [i [fs|]] eqn:E;
    try discriminate.
  destruct (validateFields_field _ _ _ k s _ _ E Hin) as [i1 [x Hc]].
  simpl in R. destruct (assoc k ps) as [w|]; [|discriminate].
  eauto.
Qed.

Lemma validate_boolean_value (h : heap) (d : bool) (w : value)
      (issues : list issue) (r : validated) :
  validate h (ZBooleanDefault d) w = (issues, Some r) ->
  w = VUndefined \/ exists b, w = VBool b.
Proof.
  destruct w; simpl; intro H; try discriminate; eauto.
Qed.

Lemma validate_leaves (h : heap) (data : value) (issues : list issue)
      (r : validated) (v : value) :
  validate h configSchema data = (issues, Some r) ->
  readPath h data pathPostToBluesky = Some v
  \/ readPath h data pathEnable = Some v ->
  v = VUndefined \/ exists b, v = VBool b.
Proof.
  unfold configSchema, pathPostToBluesky, pathEnable. intros H [R|R].
  - eapply validate_field in H as [w1 [i1 [x1 [H R1]]]];
      [| left; reflexivity | exact R].
    eapply validate_field in H as [w2 [i2 [x2 [H R2]]]];
      [| left; reflexivity | exact R1].
    eapply validate_field in H as [w3 [i3 [x3 [H R3]]]];
      [| left; reflexivity | exact R2].
    injection R3 as ->. eapply validate_boolean_value; eauto.
  - eapply validate_field in H as [w1 [i1 [x1 [H R1]]]];
      [| right; left; reflexivity | exact R].
    eapply validate_field in H as [w2 [i2 [x2 [H R2]]]];
      [| left; reflexivity | exact R1].
    injection R2 as ->. eapply validate_boolean_value; eauto.
Qed.

(** C2, as stated, fails: with [stats.enable=banana] in the text the
    valid [postToBluesky=false] is lost too; alone it is kept. *)
Lemma wrong_typed_field_discards_the_others :
  (exists log h',
      createConfig (fun _ _ => Content bananaText) (js "owner/repo") remConf initialHeap
      = Ok (VRef defaultConfig, log) h'
      /\ readPath h' (VRef defaultConfig) pathPostToBluesky = Some (VBool true))
  /\ (exists config h',
         createConfig (fun _ _ => Content (js "github.commits.postToBluesky=false"))
                      (js "owner/repo") remConf initialHeap
         = Ok (config, []) h'
         /\ readPath h' config pathPostToBluesky = Some (VBool false)).
Proof.
  split; do 2 eexists; (split; [vm_compute; reflexivity|]); vm_compute; reflexivity.
Qed.

(** C2, amended: validation is strict.  When a declared leaf of the merged
    object holds a value that is neither a boolean nor [undefined],
    [configSchema.parse] fails, [parseContent] throws the invalid
    configuration error, and [createConfig] returns the default
    configuration object: every declared field has its default. *)
Theorem schema_validation_is_strict :
  forall (getFileContent : jstr -> jstr -> fetched)
         (repository filePath content : jstr)
         (h h1 h2 : heap) (configObj mergedConfig v : value),
    stable h ->
    invalidRepository repository = false ->
    getFileContent (fullRepoPath repository) filePath = Content content ->
    ConfigParser.buildConfigObj content h = Ok configObj h1 ->
    ConfigParser.deepMerge ConfigParser.callStackLimit
                           (VRef defaultConfig) configObj h1
    = Ok mergedConfig h2 ->
    (readPath h2 mergedConfig pathPostToBluesky = Some v
     \/ readPath h2 mergedConfig pathEnable = Some v) ->
    v <> VUndefined -> (forall b, v <> VBool b) ->
    exists issues,
      schemaParse configSchema mergedConfig h2 = Throw (ZodError issues) h2
      /\ createConfig getFileContent repository filePath h
         = Ok (VRef defaultConfig,
               [UsingDefaultConfig (InvalidConfiguration issues)]) h2
      /\ readPath h2 (VRef defaultConfig) pathPostToBluesky = Some (VBool true)
      /\ readPath h2 (VRef defaultConfig) pathEnable = Some (VBool true).
Proof.
  intros f repository filePath content h h1 h2 configObj merged v
         S Hr Hf Hb Hm Hv Hu Hnb.
  assert (Hz : exists issues,
             schemaParse configSchema merged h2 = Throw (ZodError issues) h2).
  { unfold schemaParse.
    destruct (validate h2 configSchema merged) as [issues [r|]] eqn:E.
    - destruct (validate_leaves h2 merged issues r v E Hv) as [->|[b ->]].
      + contradiction.
      + exfalso. now apply (Hnb b).
    - exists issues. destruct issues; reflexivity. }
  destruct Hz as [issues Hz]. exists issues.
  assert (Hc : createConfig f repository filePath h
               = Ok (VRef defaultConfig,
                     [UsingDefaultConfig (InvalidConfiguration issues)]) h2).
  { rewrite createConfig_cases, Hr, Hf.
    unfold ConfigParser.parseFile, ConfigParser.parseContent, tryCatch, bind.
    rewrite Hb, Hm, Hz. reflexivity. }
  split; [exact Hz|]. split; [exact Hc|].
  pose proof (createConfig_stable f repository filePath h S) as P.
  rewrite Hc in P. simpl in P.
  apply stable_default_fields. apply P.
Qed.

Lemma schema_validation_is_strict_witness :
  (stable initialHeap
   /\ invalidRepository (js "owner/repo") = false
   /\ (fun _ _ : jstr => Content (js "stats.enable=banana"))
        (fullRepoPath (js "owner/repo")) remConf
      = Content (js "stats.enable=banana")
   /\ ConfigParser.buildConfigObj (js "stats.enable=banana") initialHeap
      = Ok (VRef 4) bananaParsed
   /\ ConfigParser.deepMerge ConfigParser.callStackLimit
                             (VRef defaultConfig) (VRef 4) bananaParsed
      = Ok (VRef 6) bananaMerged
   /\ (readPath bananaMerged (VRef 6) pathPostToBluesky = Some (VStr (js "banana"))
       \/ readPath bananaMerged (VRef 6) pathEnable = Some (VStr (js "banana")))
   /\ VStr (js "banana") <> VUndefined
   /\ (forall b, VStr (js "banana") <> VBool b))
  /\ exists issues,
    schemaParse configSchema (VRef 6) bananaMerged = Throw (ZodError issues) bananaMerged
    /\ createConfig (fun _ _ => Content (js "stats.enable=banana"))
                    (js "owner/repo") remConf initialHeap
       = Ok (VRef defaultConfig,
             [UsingDefaultConfig (InvalidConfiguration issues)]) bananaMerged
    /\ readPath bananaMerged (VRef defaultConfig) pathPostToBluesky = Some (VBool true)
    /\ readPath bananaMerged (VRef defaultConfig) pathEnable = Some (VBool true).
Proof.
  assert (B : ConfigParser.buildConfigObj (js "stats.enable=banana") initialHeap
              = Ok (VRef 4) bananaParsed)
    by (vm_compute; reflexivity).
  assert (D : ConfigParser.deepMerge ConfigParser.callStackLimit (VRef defaultConfig)
                (VRef 4) bananaParsed
              = Ok (VRef 6) bananaMerged)
    by (vm_compute; reflexivity).
  split.
  - split; [exact stable_initial|]. split; [reflexivity|]. split; [reflexivity|].
    split; [exact B|]. split; [exact D|].
    split; [right; vm_compute; reflexivity|].
    split; [discriminate | intros b; discriminate].
  - apply (schema_validation_is_strict
             (fun _ _ => Content (js "stats.enable=banana"))
             (js "owner/repo") remConf (js "stats.enable=banana")
             initialHeap bananaParsed bananaMerged (VRef 4) (VRef 6)
             (VStr (js "banana")));
      [exact stable_initial | reflexivity | reflexivity | exact B | exact D
      | right; vm_compute; reflexivity | discriminate | intros b; discriminate].
Defined.

(** ** Sections, keys and lines *)

Lemma parseLines_no_pair (obj : value) (lines : list jstr) :
  forall section h,
    keyPaths section lines = [] ->
    ConfigParser.parseLines obj section lines h = Ok tt h.
Proof.
  induction lines as [|line rest IH]; intros section h Hk; [reflexivity|].
  cbn [keyPaths ConfigParser.parseLines] in *. rewrite parseLine_classify.
  destruct (classify line); try discriminate; unfold bind, ret; now apply IH.
Qed.

(** A text with a single key/value line makes a single assignment. *)
Lemma parseLines_one_pair (obj : value) (path : list jstr) (l : lit)
      (lines : list jstr) :
  forall section h,
    keyPaths section lines = [path] ->
    Forall (fun line => match classify line with
                        | Pair _ value => parseValue value = l
                        | _ => True
                        end) lines ->
    ConfigParser.parseLines obj section lines h
    = (v <- ConfigParser.store l ;;
       ConfigParser.setNestedValue obj path v ;;;
       ret tt) h.
Proof.
  induction lines as [|line rest IH]; intros section h Hk Hv; [discriminate|].
  inversion Hv as [|? ? Hl Hrest]; subst.
  cbn [keyPaths ConfigParser.parseLines] in *. rewrite parseLine_classify.
  destruct (classify line) as [|name|key value].
  - unfold bind at 1. unfold ret at 1. now apply IH.
  - unfold bind at 1. unfold ret at 1. now apply IH.
  - injection Hk as <- Hk. rewrite Hl. unfold bind.
    destruct (ConfigParser.store l h) as [v h2|e h2|]; try reflexivity.
    destruct (ConfigParser.setNestedValue obj (keyPathOf section key) v h2)
      as [u h3|e h3|]; try reflexivity.
    unfold ret. now apply parseLines_no_pair.
Qed.

Lemma buildConfigObj_one_pair (content : jstr) (path : list jstr) (l : lit) (h : heap) :
  keyPaths [] (split chNewline content) = [path] ->
  Forall (fun line => match classify line with
                      | Pair _ value => parseValue value = l
                      | _ => True
                      end) (split chNewline content) ->
  ConfigParser.buildConfigObj content h
  = (v <- ConfigParser.store l ;;
     ConfigParser.setNestedValue (VRef (List.length h)) path v ;;;
     ret (VRef (List.length h))) (h ++ [Obj []]).
Proof.
  intros Hk Hv.
  unfold ConfigParser.buildConfigObj. unfold bind at 1. unfold alloc at 1.
  unfold bind at 1.
  rewrite (parseLines_one_pair _ path l _ _ _ Hk Hv). unfold bind.
  destruct (ConfigParser.store l (h ++ [Obj []])) as [v h2|e h2|]; try reflexivity.
  destruct (ConfigParser.setNestedValue (VRef (List.length h)) path v h2);
    reflexivity.
Qed.

(** C8: the text with the section header and the text with the dotted key
    run the same assignment, build the same structural object
    [{github:{commits:{postToBluesky:false}}}] and resolve alike; a
    section and a key are joined into one dotted path. *)
Theorem section_header_equals_dotted_key :
  (forall h, ConfigParser.buildConfigObj sectionedText h
             = ConfigParser.buildConfigObj dottedText h) /\
  (forall this h, ConfigParser.parseContent this sectionedText h
                  = ConfigParser.parseContent this dottedText h) /\
  ConfigParser.buildConfigObj sectionedText initialHeap
  = Ok (VRef 4)
       (initialHeap ++ [ Obj [(js "github", VRef 5)];
                         Obj [(js "commits", VRef 6)];
                         Obj [(js "postToBluesky", VBool false)] ]) /\
  (forall c section key,
      keyPathOf (c :: section) key = keyPathOf [] ((c :: section) ++ chDot :: key)).
Proof.
  assert (B : forall h, ConfigParser.buildConfigObj sectionedText h
                        = ConfigParser.buildConfigObj dottedText h).
  { intro h.
    assert (Es : split chNewline sectionedText
                 = [js "[github.commits]"; js "postToBluesky=false"])
      by (vm_compute; reflexivity).
    assert (Ed : split chNewline dottedText = [dottedText])
      by (vm_compute; reflexivity).
    rewrite (buildConfigObj_one_pair sectionedText
               [js "github"; js "commits"; js "postToBluesky"] (LBool false) h).
    - rewrite (buildConfigObj_one_pair dottedText
                 [js "github"; js "commits"; js "postToBluesky"] (LBool false) h).
      + reflexivity.
      + vm_compute. reflexivity.
      + rewrite Ed. repeat constructor.
    - vm_compute. reflexivity.
    - rewrite Es. repeat constructor. }
  split; [exact B|]. split; [|split].
  - intros this h. unfold ConfigParser.parseContent, bind. now rewrite B.
  - vm_compute. reflexivity.
  - reflexivity.
Qed.

(** C9: the value is trimmed but the key is not.  The line
    [stats.enable = false] assigns [false] at the path whose last segment
    is [enable] followed by a space; nothing is assigned at
    [stats.enable], and the resolved configuration keeps its default
    [true] there. *)
Theorem key_whitespace_is_kept :
  keyPaths [] (split chNewline (js "stats.enable = false"))
  = [[js "stats"; js "enable "]]
  /\ ConfigParser.buildConfigObj (js "stats.enable = false") initialHeap
     = Ok (VRef 4)
          (initialHeap ++ [ Obj [(js "stats", VRef 5)];
                            Obj [(js "enable ", VBool false)] ])
  /\ readPath (initialHeap ++ [ Obj [(js "stats", VRef 5)];
                                Obj [(js "enable ", VBool false)] ])
              (VRef 4) [js "stats"; js "enable"] = None
  /\ exists config h',
      createConfig (fun _ _ => Content (js "stats.enable = false"))
                   (js "owner/repo") remConf initialHeap
      = Ok (config, []) h'
      /\ readPath h' config pathEnable = Some (VBool true).
Proof.
  split; [vm_compute; reflexivity|].
  split; [vm_compute; reflexivity|].
  split; [vm_compute; reflexivity|].
  do 2 eexists. split; vm_compute; reflexivity.
Qed.

(** The line is trimmed and the value is trimmed again by [parseValue],
    but the key is the text before the first [=] as it stands: whitespace
    between the key and [=] stays in the last segment of the path. *)
Lemma key_is_taken_verbatim :
  forall (line key value : jstr),
    trim line = key ++ chEquals :: value ->
    key <> [] -> includes chEquals key = false -> allDot key = true ->
    value <> [] -> allDot value = true ->
    startsWith chHash key = false ->
    sectionMatch (trim line) = None ->
    classify line = Pair key value
    /\ (forall section, keyPaths section [line] = [keyPathOf section key])
    /\ (forall value', trim value' = trim value -> parseValue value' = parseValue value)
    /\ classify (js "  stats.enable = false  ") = Pair (js "stats.enable ") (js " false")
    /\ parseValue (js " false") = LBool false.
Proof.
  intros line key value Ht Hk He Hd Hv Hdv Hh Hs.
  assert (C : classify line = Pair key value).
  { unfold classify. rewrite Hs, Ht.
    rewrite (kvMatch_verbatim key value Hk He Hd Hv Hdv).
    destruct key as [|c key]; [contradiction|].
    simpl in Hh. simpl. now rewrite Hh. }
  split; [exact C|]. split; [|split; [|split]].
  - intro section. simpl. now rewrite C.
  - intros value' E. unfold parseValue, parseValueAt. now rewrite E.
  - vm_compute. reflexivity.
  - vm_compute. reflexivity.
Qed.

Lemma key_is_taken_verbatim_witness :
  (trim (js "  stats.enable = false  ") = js "stats.enable " ++ chEquals :: js " false"
   /\ js "stats.enable " <> []
   /\ includes chEquals (js "stats.enable ") = false
   /\ allDot (js "stats.enable ") = true
   /\ js " false" <> [] /\ allDot (js " false") = true
   /\ startsWith chHash (js "stats.enable ") = false
   /\ sectionMatch (trim (js "  stats.enable = false  ")) = None)
  /\ classify (js "  stats.enable = false  ") = Pair (js "stats.enable ") (js " false")
  /\ (forall section,
         keyPaths section [js "  stats.enable = false  "]
         = [keyPathOf section (js "stats.enable ")])
  /\ (forall value', trim value' = trim (js " false") ->
                     parseValue value' = parseValue (js " false"))
  /\ classify (js "  stats.enable = false  ") = Pair (js "stats.enable ") (js " false")
  /\ parseValue (js " false") = LBool false.
Proof.
  split.
  - repeat split; try (vm_compute; reflexivity); discriminate.
  - apply (key_is_taken_verbatim (js "  stats.enable = false  ")
                                 (js "stats.enable ") (js " false"));
      try (vm_compute; reflexivity); discriminate.
Defined.

(** C10, as stated, fails for a value that holds a further [=]: the line
    [=a=b] is a key/value line with key [=a] and value [b]. *)
Lemma leading_equals_can_match :
  kvMatch (js "=a=b") = Some (js "=a", js "b")
  /\ ConfigParser.parseLine (VRef 0) [] (js "=a=b") [Obj []]
     = Ok [] [Obj [(js "=a", VStr (js "b"))]].
Proof. split; vm_compute; reflexivity. Qed.

(** C10, amended: a line whose trimmed text is [<key>=] with no [=] in the
    key, or [=<value>] with no [=] in the value before its last unit,
    matches no rule: the loop passes over it, the text resolves as if the
    line were absent, and no value is ever the empty string. *)
Theorem dangling_equals_is_ignored :
  forall line : jstr,
    danglingEquals (trim line) ->
    sectionMatch (trim line) = None /\ kvMatch (trim line) = None
    /\ (forall configObj section h,
           ConfigParser.parseLine configObj section line h = Ok section h)
    /\ (forall this content content' before after h,
           split chNewline content = before ++ line :: after ->
           split chNewline content' = before ++ after ->
           ConfigParser.parseContent this content h
           = ConfigParser.parseContent this content' h)
    /\ (forall value, parseValue value <> LStr []
                      /\ forall elems, parseValue value = LArr elems ->
                                       ~ In (LStr []) elems).
Proof.
  intros line D.
  destruct (danglingEquals_no_match _ D) as [Hs Hk].
  split; [exact Hs|]. split; [exact Hk|]. split; [|split].
  - intros configObj section h. now apply parseLine_dangling.
  - intros this content content' before after h E E'.
    unfold ConfigParser.parseContent, ConfigParser.buildConfigObj, bind, alloc.
    rewrite E, E'.
    rewrite (parseLines_skip (VRef (List.length h)) line); [reflexivity|].
    intros section h1. now apply parseLine_dangling.
  - intro value. split; [apply parseValueAt_no_empty_string|].
    intros elems E Hin. rewrite parseValue_equation in E. cbv zeta in E.
    repeat match type of E with
           | (if ?c then _ else _) = _ => destruct c; try discriminate
           end.
    injection E as <-. apply in_map_iff in Hin as [seg [Hseg _]].
    now apply (parseValueAt_no_empty_string 1 (trim seg)).
Qed.

Lemma dangling_equals_is_ignored_witness :
  danglingEquals (trim (js " stats.enable= "))
  /\ sectionMatch (trim (js " stats.enable= ")) = None
  /\ kvMatch (trim (js " stats.enable= ")) = None
  /\ (forall configObj section h,
         ConfigParser.parseLine configObj section (js " stats.enable= ") h
         = Ok section h)
  /\ (forall this content content' before after h,
         split chNewline content = before ++ js " stats.enable= " :: after ->
         split chNewline content' = before ++ after ->
         ConfigParser.parseContent this content h
         = ConfigParser.parseContent this content' h)
  /\ (forall value, parseValue value <> LStr []
                    /\ forall elems, parseValue value = LArr elems ->
                                     ~ In (LStr []) elems)
  /\ (forall this h,
         ConfigParser.parseContent this
           (js "a=1" ++ chNewline :: js " stats.enable= " ++ chNewline :: js "b=2") h
         = ConfigParser.parseContent this (js "a=1" ++ chNewline :: js "b=2") h).
Proof.
  assert (D : danglingEquals (trim (js " stats.enable= "))).
  { left. exists (js "stats.enable"). split; vm_compute; reflexivity. }
  split; [exact D|].
  pose proof (dangling_equals_is_ignored (js " stats.enable= ") D) as [H1 [H2 [H3 [H4 H5]]]].
  repeat (split; [assumption|]).
  intros this h. apply (H4 this _ _ [js "a=1"] [js "b=2"] h); vm_compute; reflexivity.
Defined.

(** * Further properties *)

(** ** Whitespace *)

Lemma trimStart_head (s : jstr) (c : N) (r : jstr) :
  trimStart s = c :: r -> isStrWhiteSpaceChar c = false.
Proof.
  induction s as [|d s IH]; simpl; [discriminate|].
  destruct (isStrWhiteSpaceChar d) eqn:E; [exact IH|].
  intro H. injection H as <- _. exact E.
Qed.

Lemma trimStart_fixed (c : N) (r : jstr) :
  isStrWhiteSpaceChar c = false -> trimStart (c :: r) = c :: r.
Proof. intro H. simpl. now rewrite H. Qed.

Lemma trimStart_idempotent (s : jstr) : trimStart (trimStart s) = trimStart s.
Proof.
  destruct (trimStart s) as [|c r] eqn:E; [reflexivity|].
  apply trimStart_fixed. eapply trimStart_head; eauto.
Qed.

Lemma trimStart_app_keep (l : jstr) (c : N) (r : jstr) :
  isStrWhiteSpaceChar c = false ->
  trimStart (l ++ c :: r) = trimStart l ++ c :: r.
Proof.
  intro H. induction l as [|d l IH]; simpl.
  - now rewrite H.
  - destruct (isStrWhiteSpaceChar d); [exact IH | reflexivity].
Qed.

Lemma trimStart_blank (ws s : jstr) :
  forallb isStrWhiteSpaceChar ws = true -> trimStart (ws ++ s) = trimStart s.
Proof.
  induction ws as [|c ws IH]; simpl; intro H; [reflexivity|].
  apply andb_true_iff in H as [Hc H]. rewrite Hc. now apply IH.
Qed.

(** The trimmed text is empty, or begins and ends with a unit that is no
    white space. *)
Lemma trim_shape (s : jstr) :
  trim s = [] \/
  exists c m d, isStrWhiteSpaceChar c = false /\ isStrWhiteSpaceChar d = false
                /\ (trim s = c :: m ++ [d] \/ (trim s = [c] /\ d = c)).
Proof.
  unfold trim, trimEnd.
  destruct (trimStart s) as [|c r] eqn:E; [now left|].
  pose proof (trimStart_head _ _ _ E) as Hc. right.
  change (rev (c :: r)) with (rev r ++ [c]).
  rewrite (trimStart_app_keep (rev r) c [] Hc).
  rewrite rev_app_distr. simpl.
  destruct (trimStart (rev r)) as [|d u] eqn:Eu.
  - exists c, [], c. simpl. auto.
  - pose proof (trimStart_head _ _ _ Eu) as Hd.
    exists c, (rev u), d. simpl. auto.
Qed.

Lemma trim_fixed_ends (c : N) (m : jstr) (d : N) :
  isStrWhiteSpaceChar c = false -> isStrWhiteSpaceChar d = false ->
  trim (c :: m ++ [d]) = c :: m ++ [d].
Proof.
  intros Hc Hd. unfold trim, trimEnd.
  rewrite (trimStart_fixed c _ Hc).
  change (rev (c :: m ++ [d])) with (rev (m ++ [d]) ++ [c]).
  rewrite rev_app_distr. simpl. rewrite Hd. simpl.
  rewrite rev_app_distr. simpl. now rewrite rev_involutive.
Qed.

Lemma trim_fixed_single (c : N) :
  isStrWhiteSpaceChar c = false -> trim [c] = [c].
Proof. intro Hc. unfold trim, trimEnd. simpl. rewrite Hc. simpl. now rewrite Hc. Qed.

Lemma trim_idempotent (s : jstr) : trim (trim s) = trim s.
Proof.
  destruct (trim_shape s) as [E | [c [m [d [Hc [Hd [E | [E _]]]]]]]]; rewrite E.
  - reflexivity.
  - now apply trim_fixed_ends.
  - now apply trim_fixed_single.
Qed.

Lemma trimEnd_blank (s ws : jstr) :
  forallb isStrWhiteSpaceChar ws = true -> trimEnd (s ++ ws) = trimEnd s.
Proof.
  intro H. unfold trimEnd. rewrite rev_app_distr.
  rewrite trimStart_blank; [reflexivity|].
  rewrite forallb_forall in *. intros x Hx. apply H. now apply in_rev.
Qed.

Lemma trimStart_all_blank (ws : jstr) :
  forallb isStrWhiteSpaceChar ws = true -> trimStart ws = [].
Proof.
  intro H. rewrite <- (app_nil_r ws). now rewrite trimStart_blank.
Qed.

Lemma trimStart_app_blank (v ws : jstr) :
  forallb isStrWhiteSpaceChar ws = true ->
  trimStart (v ++ ws) = match trimStart v with
                        | [] => []
                        | t => t ++ ws
                        end.
Proof.
  intro H. induction v as [|c v IH]; simpl.
  - now apply trimStart_all_blank.
  - destruct (isStrWhiteSpaceChar c); [exact IH | reflexivity].
Qed.

Lemma trim_padding (ws1 v ws2 : jstr) :
  forallb isStrWhiteSpaceChar ws1 = true ->
  forallb isStrWhiteSpaceChar ws2 = true ->
  trim (ws1 ++ v ++ ws2) = trim v.
Proof.
  intros H1 H2. unfold trim.
  rewrite trimStart_blank by assumption.
  rewrite trimStart_app_blank by assumption.
  destruct (trimStart v) as [|c r]; [reflexivity|].
  now apply trimEnd_blank.
Qed.

(** ** Numbers *)

Lemma takeDigits_spec (s : jstr) :
  s = fst (takeDigits s) ++ snd (takeDigits s)
  /\ forallb isDigit (fst (takeDigits s)) = true.
Proof.
  induction s as [|c s [IH1 IH2]]; simpl; [auto|].
  destruct (isDigit c) eqn:E; simpl; [|auto].
  destruct (takeDigits s) as [d rest]. simpl in *.
  split; [now f_equal | now rewrite E].
Qed.

Lemma includes_app (c : N) (a b : jstr) :
  includes c (a ++ b) = (includes c a || includes c b)%bool.
Proof. apply existsb_app. Qed.

Lemma includes_cons (c d : N) (s : jstr) :
  includes c (d :: s) = (N.eqb c d || includes c s)%bool.
Proof. reflexivity. Qed.

Lemma digits_no_comma (ds : jstr) :
  forallb isDigit ds = true -> includes chComma ds = false.
Proof.
  induction ds as [|c ds IH]; intro H; [reflexivity|].
  cbn [forallb] in H. apply andb_true_iff in H as [Hc H].
  rewrite includes_cons, (IH H), orb_false_r.
  apply N.eqb_neq. intro E. subst c. discriminate.
Qed.

Lemma radixValue_no_comma (radix : N) (s : jstr) :
  forall acc n, radixValue radix acc s = Some n -> includes chComma s = false.
Proof.
  induction s as [|c s IH]; intros acc n; [reflexivity|].
  cbn [radixValue].
  destruct (radixDigit radix c) as [d|] eqn:E; [|discriminate].
  intro H. rewrite includes_cons, (IH _ _ H), orb_false_r.
  apply N.eqb_neq. intro Ec. subst c. unfold radixDigit in E. simpl in E. discriminate.
Qed.

Lemma takeSign_no_comma (s : jstr) :
  includes chComma (snd (takeSign s)) = false -> includes chComma s = false.
Proof.
  unfold takeSign. destruct s as [|c r]; [auto|].
  destruct (N.eqb c 43) eqn:E1.
  - apply N.eqb_eq in E1. subst c. simpl. auto.
  - destruct (N.eqb c 45) eqn:E2; [|auto].
    apply N.eqb_eq in E2. subst c. simpl. auto.
Qed.

Lemma parseExponent_no_comma (s : jstr) (e : Z) :
  parseExponent s = Some e -> includes chComma s = false.
Proof.
  unfold parseExponent. destruct s as [|c r]; [reflexivity|].
  destruct (N.eqb c 101 || N.eqb c 69)%bool eqn:E; [|discriminate].
  destruct (takeSign r) as [neg r'] eqn:Es.
  destruct (takeDigits r') as [ds rest] eqn:Ed.
  destruct (negb (isNil ds) && isNil rest)%bool eqn:C; [|discriminate].
  intros _. apply andb_true_iff in C as [_ C].
  destruct rest; [|discriminate].
  pose proof (takeDigits_spec r') as [S1 S2]. rewrite Ed in S1, S2. simpl in S1, S2.
  rewrite app_nil_r in S1.
  rewrite includes_cons.
  assert (Hc : N.eqb chComma c = false).
  { destruct (N.eqb chComma c) eqn:Ec; [|reflexivity].
    apply N.eqb_eq in Ec. subst c. discriminate. }
  rewrite Hc. simpl. apply takeSign_no_comma. rewrite Es. simpl.
  rewrite S1. now apply digits_no_comma.
Qed.

Lemma parseUnsignedDecimal_no_comma (s : jstr) (r : N * Z) :
  parseUnsignedDecimal s = Some r -> includes chComma s = false.
Proof.
  unfold parseUnsignedDecimal.
  pose proof (takeDigits_spec s) as [S1 S2].
  destruct (takeDigits s) as [ip r1]. simpl in S1, S2.
  pose proof (digits_no_comma ip S2) as Hip.
  destruct r1 as [|c r2].
  - intros _. rewrite S1, includes_app, Hip. reflexivity.
  - destruct (N.eqb c chDot) eqn:Ec.
    + apply N.eqb_eq in Ec. subst c.
      pose proof (takeDigits_spec r2) as [T1 T2].
      destruct (takeDigits r2) as [fp r3]. simpl in T1, T2.
      destruct (isNil ip && isNil fp)%bool; [discriminate|].
      destruct (parseExponent r3) as [e|] eqn:Ee; [|discriminate].
      intros _. rewrite S1, includes_app, Hip, includes_cons. simpl.
      rewrite T1, includes_app, (digits_no_comma fp T2).
      now rewrite (parseExponent_no_comma _ _ Ee).
    + destruct (isNil ip); [discriminate|].
      destruct (parseExponent (c :: r2)) as [e|] eqn:Ee; [|discriminate].
      intros _. rewrite S1, includes_app, Hip.
      now rewrite (parseExponent_no_comma _ _ Ee).
Qed.

Lemma parseNonDecimal_no_comma (s : jstr) (n : N) :
  parseNonDecimal s = Some n -> includes chComma s = false.
Proof.
  unfold parseNonDecimal. destruct s as [|z [|p [|d ds]]]; try discriminate.
  destruct (N.eqb z 48) eqn:Ez; [|discriminate].
  apply N.eqb_eq in Ez. subst z.
  assert (G : forall radix, radixValue radix 0 (d :: ds) = Some n ->
                            N.eqb chComma p = false ->
                            includes chComma (48%N :: p :: d :: ds) = false).
  { intros radix H Hp. rewrite includes_cons, includes_cons, Hp.
    now rewrite (radixValue_no_comma _ _ _ _ H). }
  assert (P : forall x, N.eqb p x = true -> x <> chComma -> N.eqb chComma p = false).
  { intros x Hx Hn. apply N.eqb_eq in Hx. subst x.
    apply N.eqb_neq. congruence. }
  destruct (N.eqb p 120) eqn:E1; [intro H; apply (G 16%N H), (P _ E1); discriminate|].
  destruct (N.eqb p 88) eqn:E2; [intro H; apply (G 16%N H), (P _ E2); discriminate|].
  destruct (N.eqb p 111) eqn:E3; [intro H; apply (G 8%N H), (P _ E3); discriminate|].
  destruct (N.eqb p 79) eqn:E4; [intro H; apply (G 8%N H), (P _ E4); discriminate|].
  destruct (N.eqb p 98) eqn:E5; [intro H; apply (G 2%N H), (P _ E5); discriminate|].
  destruct (N.eqb p 66) eqn:E6; [intro H; apply (G 2%N H), (P _ E6); discriminate|].
  discriminate.
Qed.

(** No numeric literal holds a comma. *)
Lemma Number_comma (s : jstr) :
  includes chComma (trim s) = true -> Number s = S754_nan.
Proof.
  intro H. unfold Number.
  destruct (trim s) as [|c r] eqn:E; [discriminate|]. rewrite <- E in *.
  replace (isNil (trim s)) with false by (rewrite E; reflexivity).
  destruct (parseNonDecimal (trim s)) as [n|] eqn:En.
  { apply parseNonDecimal_no_comma in En. congruence. }
  destruct (takeSign (trim s)) as [neg u] eqn:Es.
  assert (Hu : includes chComma u = true).
  { destruct (includes chComma u) eqn:Eu; [reflexivity|].
    pose proof (takeSign_no_comma (trim s)) as T. rewrite Es in T.
    specialize (T Eu). congruence. }
  destruct (jstr_eqb u (js "Infinity")) eqn:Ei.
  { apply jstr_eqb_eq in Ei. subst u. discriminate. }
  destruct (parseUnsignedDecimal u) as [[m e]|] eqn:Ep; [|reflexivity].
  apply parseUnsignedDecimal_no_comma in Ep. congruence.
Qed.

Lemma includes_trim_keep (c : N) (s : jstr) :
  isStrWhiteSpaceChar c = false -> includes c s = true -> includes c (trim s) = true.
Proof.
  intros Hc H.
  assert (T : forall t, includes c t = true -> includes c (trimStart t) = true).
  { induction t as [|d t IH]; simpl; [auto|].
    destruct (isStrWhiteSpaceChar d) eqn:Ed; [|auto].
    intro G. apply orb_true_iff in G as [G|G]; [|auto].
    apply N.eqb_eq in G. subst d. congruence. }
  assert (R : forall t, includes c t = true -> includes c (rev t) = true).
  { intros t G. unfold includes in *. apply existsb_exists in G as [x [Hx Ex]].
    apply existsb_exists. exists x. split; [now apply in_rev in Hx|assumption]. }
  unfold trim, trimEnd. auto.
Qed.

(** ** Value inference *)

Lemma toLowerCase_comma (t : jstr) :
  includes chComma t = true -> includes chComma (toLowerCase t) = true.
Proof.
  induction t as [|c t IH]; [discriminate|].
  rewrite includes_cons. intro H. cbn [toLowerCase map]. rewrite includes_cons.
  apply orb_true_iff in H as [H|H].
  - apply N.eqb_eq in H. subst c. reflexivity.
  - unfold toLowerCase in IH. rewrite (IH H). apply orb_true_r.
Qed.

Lemma comma_is_no_boolean (t w : jstr) :
  includes chComma t = true -> includes chComma w = false ->
  jstr_eqb (toLowerCase t) w = false.
Proof.
  intros Ht Hw. apply jstr_eqb_neq. intro E.
  apply toLowerCase_comma in Ht. congruence.
Qed.

(** X1: a value that holds a comma is always inferred as an array, quoted
    or not: its elements are the inferred values of the pieces between the
    commas, there are at least two of them, and none is an array. *)
Theorem parseValue_comma_is_array (value : jstr) :
  includes chComma value = true ->
  parseValue value
  = LArr (map (fun v => parseValue (trim v)) (split chComma (trim value)))
  /\ 2 <= List.length (split chComma (trim value))
  /\ Forall (fun v => isArrayLit (parseValue (trim v)) = false)
            (split chComma (trim value)).
Proof.
  intro H.
  assert (Ht : includes chComma (trim value) = true)
    by (apply includes_trim_keep; [reflexivity | assumption]).
  split; [|split].
  - rewrite parseValue_equation. cbv zeta.
    rewrite (comma_is_no_boolean _ (js "true") Ht eq_refl).
    rewrite (comma_is_no_boolean _ (js "false") Ht eq_refl).
    rewrite (Number_comma (trim value)).
    + simpl. now rewrite Ht.
    + now rewrite trim_idempotent.
  - now apply split_two.
  - pose proof (split_pieces chComma (trim value)) as F.
    eapply Forall_impl; [|exact F].
    intros v Hv. apply parseValueAt_not_array.
    now apply existsb_trim, existsb_trim.
Qed.

Lemma parseValue_comma_is_array_witness :
  includes chComma (quoted chDQuote (js "a,b")) = true
  /\ parseValue (quoted chDQuote (js "a,b"))
     = LArr [LStr (chDQuote :: js "a"); LStr (js "b" ++ [chDQuote])].
Proof.
  split; [reflexivity|].
  destruct (parseValue_comma_is_array (quoted chDQuote (js "a,b")) eq_refl) as [E _].
  rewrite E. vm_compute. reflexivity.
Defined.

Lemma isQuote_units (q : N) :
  isQuote q = true -> q = chDQuote \/ q = chSQuote.
Proof.
  unfold isQuote. intro H. apply orb_true_iff in H as [H|H];
    apply N.eqb_eq in H; auto.
Qed.

Lemma allDot_rev (s : jstr) : allDot (rev s) = allDot s.
Proof.
  unfold allDot. induction s as [|c s IH]; [reflexivity|].
  simpl. rewrite forallb_app, IH. simpl. rewrite andb_true_r. apply andb_comm.
Qed.

(** A text that starts with a quote is no numeric literal. *)
Lemma Number_quote (q : N) (r : jstr) :
  isQuote q = true -> trim (q :: r) = q :: r -> Number (q :: r) = S754_nan.
Proof.
  intros Hq Ht. unfold Number. rewrite Ht.
  apply isQuote_units in Hq as [-> | ->].
  - destruct r as [|p [|d ds]]; reflexivity.
  - destruct r as [|p [|d ds]]; reflexivity.
Qed.

(** X2: a text between two quote characters, the same or not, is inferred
    as the string between them when that holds no comma: the quotes keep a
    numeral or a boolean word a string. *)
Theorem parseValue_quoted_string (q1 q2 : N) (s : jstr) :
  isQuote q1 = true -> isQuote q2 = true ->
  s <> [] -> allDot s = true -> includes chComma s = false ->
  parseValue (q1 :: s ++ [q2]) = LStr s.
Proof.
  intros H1 H2 Hs Hd Hc.
  assert (W : forall q, isQuote q = true -> isStrWhiteSpaceChar q = false).
  { intros q Hq. apply isQuote_units in Hq as [-> | ->]; reflexivity. }
  assert (Ht : trim (q1 :: s ++ [q2]) = q1 :: s ++ [q2])
    by (apply trim_fixed_ends; auto).
  assert (L : forall q, isQuote q = true -> lowerUnit q = q).
  { intros q Hq. apply isQuote_units in Hq as [-> | ->]; reflexivity. }
  assert (B : forall w c r, w = c :: r -> isQuote c = false ->
                            jstr_eqb (toLowerCase (q1 :: s ++ [q2])) w = false).
  { intros w c r -> Hcq. cbn [toLowerCase map jstr_eqb]. rewrite (L q1 H1).
    destruct (N.eqb q1 c) eqn:E; [|reflexivity].
    apply N.eqb_eq in E. subst c. congruence. }
  assert (C : includes chComma (q1 :: s ++ [q2]) = false).
  { rewrite includes_cons, includes_app, Hc, includes_cons. simpl.
    destruct (isQuote_units _ H1) as [-> | ->];
      destruct (isQuote_units _ H2) as [-> | ->]; reflexivity. }
  rewrite parseValue_equation. cbv zeta. rewrite Ht.
  rewrite (B (js "true") _ _ eq_refl eq_refl).
  rewrite (B (js "false") _ _ eq_refl eq_refl).
  rewrite (Number_quote q1 _ H1 Ht). simpl negb. cbv iota.
  rewrite C.
  unfold stripQuotes. rewrite rev_app_distr. simpl rev. simpl app.
  rewrite H1, H2, allDot_rev, Hd. simpl.
  destruct (rev s) eqn:E.
  - apply (f_equal (@rev N)) in E. rewrite rev_involutive in E. contradiction.
  - cbn [isNil negb andb]. rewrite <- E. now rewrite rev_involutive.
Qed.

Lemma parseValue_quoted_string_witness :
  (isQuote chSQuote = true /\ isQuote chDQuote = true /\ js "42" <> []
   /\ allDot (js "42") = true /\ includes chComma (js "42") = false)
  /\ parseValue (chSQuote :: js "42" ++ [chDQuote]) = LStr (js "42").
Proof.
  split.
  - repeat split; try reflexivity. discriminate.
  - apply (parseValue_quoted_string chSQuote chDQuote (js "42"));
      try reflexivity. discriminate.
Defined.

(** ** Numerals *)

Lemma digit_not_blank (c : N) : isDigit c = true -> isStrWhiteSpaceChar c = false.
Proof.
  unfold isDigit. intro H. apply andb_true_iff in H as [H1 H2].
  apply N.leb_le in H1, H2.
  unfold isStrWhiteSpaceChar, isWhiteSpace, isLineTerminator.
  repeat match goal with
         | |- context [N.eqb c ?k] =>
             replace (N.eqb c k) with false by (symmetry; apply N.eqb_neq; lia)
         end.
  replace (N.leb 8192 c) with false by (symmetry; apply N.leb_gt; lia).
  reflexivity.
Qed.

Lemma digit_neq (c k : N) :
  isDigit c = true -> (k < 48 \/ 57 < k)%N -> N.eqb c k = false.
Proof.
  unfold isDigit. intros H Hk. apply andb_true_iff in H as [H1 H2].
  apply N.leb_le in H1, H2. apply N.eqb_neq. lia.
Qed.

Lemma trim_digits (ds : jstr) : forallb isDigit ds = true -> trim ds = ds.
Proof.
  intro H. destruct ds as [|c r]; [reflexivity|].
  cbn [forallb] in H. apply andb_true_iff in H as [Hc Hr].
  destruct r as [|d r'] using rev_ind.
  - apply trim_fixed_single. now apply digit_not_blank.
  - rewrite forallb_app in Hr. apply andb_true_iff in Hr as [_ Hd].
    simpl in Hd. rewrite andb_true_r in Hd.
    apply trim_fixed_ends; now apply digit_not_blank.
Qed.

Lemma takeDigits_all (ds : jstr) :
  forallb isDigit ds = true -> takeDigits ds = (ds, []).
Proof.
  induction ds as [|c ds IH]; intro H; [reflexivity|].
  cbn [forallb] in H. apply andb_true_iff in H as [Hc H].
  simpl. rewrite Hc, (IH H). reflexivity.
Qed.

(** A text of decimal digits denotes the double nearest to its value. *)
Lemma Number_digits (ds : jstr) :
  ds <> [] -> forallb isDigit ds = true ->
  Number ds = numberOfN (digitsValue ds).
Proof.
  intros Hne H. unfold Number. rewrite (trim_digits ds H).
  destruct ds as [|c r]; [contradiction|].
  pose proof H as H'. cbn [forallb] in H'. apply andb_true_iff in H' as [Hc Hr].
  cbn [isNil].
  assert (Pn : parseNonDecimal (c :: r) = None).
  { unfold parseNonDecimal. destruct r as [|p [|d ds]]; try reflexivity.
    cbn [forallb] in Hr. apply andb_true_iff in Hr as [Hp _].
    destruct (N.eqb c 48); [|reflexivity].
    repeat rewrite (digit_neq p) by (auto; lia). reflexivity. }
  rewrite Pn. unfold takeSign.
  repeat rewrite (digit_neq c) by (auto; lia).
  assert (Pi : jstr_eqb (c :: r) (js "Infinity") = false).
  { cbn [js map list_ascii_of_string jstr_eqb].
    change (N_of_ascii "I") with 73%N.
    rewrite (digit_neq c) by (auto; lia). reflexivity. }
  rewrite Pi. unfold parseUnsignedDecimal.
  rewrite (takeDigits_all _ H). reflexivity.
Qed.

Lemma decimalDigits_digits (fuel : nat) :
  forall n acc, forallb isDigit acc = true ->
                forallb isDigit (decimalDigits fuel n acc) = true.
Proof.
  assert (D : forall m, isDigit (48 + N.modulo m 10) = true).
  { intro m. unfold isDigit.
    pose proof (N.mod_lt m 10 ltac:(discriminate)) as L.
    generalize dependent (N.modulo m 10). intros x L.
    apply andb_true_iff. split; apply N.leb_le; lia. }
  induction fuel as [|f IH]; intros n acc H; [exact H|].
  cbn [decimalDigits].
  assert (H' : forallb isDigit ((48 + N.modulo n 10)%N :: acc) = true).
  { cbn [forallb]. now rewrite D, H. }
  destruct (N.eqb (N.div n 10) 0); [exact H' | now apply IH].
Qed.

Lemma digitsValue_decimalDigits (fuel : nat) :
  forall n acc,
    (n < 2 ^ N.of_nat fuel)%N ->
    fold_left (fun a c => (10 * a + (c - 48))%N) (decimalDigits fuel n acc) 0%N
    = fold_left (fun a c => (10 * a + (c - 48))%N) acc n.
Proof.
  induction fuel as [|f IH]; intros n acc L.
  - simpl in L. assert (n = 0%N) by lia. now subst n.
  - cbn [decimalDigits].
    pose proof (N.div_mod n 10 ltac:(discriminate)) as Dm.
    pose proof (N.mod_lt n 10 ltac:(discriminate)) as Ml.
    rewrite Nat2N.inj_succ, N.pow_succ_r' in L.
    set (q := (n / 10)%N) in *. set (r := (n mod 10)%N) in *.
    clearbody q r.
    destruct (N.eqb q 0) eqn:E.
    + apply N.eqb_eq in E. cbn [fold_left].
      replace (10 * 0 + (48 + r - 48))%N with n by lia.
      reflexivity.
    + rewrite IH by lia. cbn [fold_left].
      replace (10 * q + (48 + r - 48))%N with n by lia.
      reflexivity.
Qed.

Lemma digitsValue_indexKey (n : N) : digitsValue (indexKey n) = n.
Proof.
  unfold digitsValue, indexKey. apply digitsValue_decimalDigits.
  rewrite Nat2N.inj_succ, N2Nat.id.
  destruct n as [|p]; [reflexivity|].
  apply N.log2_spec. reflexivity.
Qed.

(** *** Rounding yields no NaN *)

Lemma shr_1_nonneg (mrs : shr_record) :
  (0 <= shr_m mrs)%Z -> (0 <= shr_m (shr_1 mrs))%Z.
Proof.
  destruct mrs as [m r s]. simpl. intro H.
  destruct m as [|p|p]; [simpl; lia | | lia].
  destruct p; simpl; lia.
Qed.

Lemma iter_pos_nonneg (p : positive) :
  forall mrs, (0 <= shr_m mrs)%Z -> (0 <= shr_m (iter_pos shr_1 p mrs))%Z.
Proof.
  induction p as [p IH|p IH|]; intros mrs H; simpl.
  - apply IH, IH. now apply shr_1_nonneg.
  - now apply IH, IH.
  - now apply shr_1_nonneg.
Qed.

Lemma shr_fexp_nonneg (m e : Z) (l : location) :
  (0 <= m)%Z -> (0 <= shr_m (fst (shr_fexp prec64 emax64 m e l)))%Z.
Proof.
  intro H. unfold shr_fexp, shr.
  assert (H0 : (0 <= shr_m (shr_record_of_loc m l))%Z).
  { destruct l as [|[| |]]; exact H. }
  destruct (fexp prec64 emax64 (Zdigits2 m + e) - e)%Z; simpl; auto.
  now apply iter_pos_nonneg.
Qed.

Lemma round_nearest_even_nonneg (m : Z) (l : location) :
  (0 <= m)%Z -> (0 <= round_nearest_even m l)%Z.
Proof.
  intro H. unfold round_nearest_even.
  destruct l as [|[| |]]; try lia. destruct (IntDef.Z.even m); lia.
Qed.

Lemma binary_round_aux_not_nan (neg : bool) (m e : Z) (l : location) :
  (0 <= m)%Z -> isNaN (binary_round_aux prec64 emax64 neg m e l) = false.
Proof.
  intro H. unfold binary_round_aux.
  pose proof (shr_fexp_nonneg m e l H) as H1.
  destruct (shr_fexp prec64 emax64 m e l) as [mrs' e']. simpl in H1.
  pose proof (shr_fexp_nonneg _ e' loc_Exact
                (round_nearest_even_nonneg _ (loc_of_shr_record mrs') H1)) as H2.
  destruct (shr_fexp prec64 emax64 _ e' loc_Exact) as [mrs'' e'']. simpl in H2.
  destruct (shr_m mrs'') as [|p|p]; [reflexivity| |lia].
  destruct (e'' <=? emax64 - prec64)%Z; reflexivity.
Qed.

(** Rounding a decimal to a double gives a number. *)
Lemma roundDecimal_not_nan (neg : bool) (m : N) (e : Z) :
  isNaN (roundDecimal neg m e) = false.
Proof.
  unfold roundDecimal. destruct m as [|p]; [reflexivity|].
  assert (B : forall q ex, isNaN (binary_round prec64 emax64 neg q ex) = false).
  { intros q ex. unfold binary_round.
    destruct (shl_align q ex _) as [mz ez].
    apply binary_round_aux_not_nan. lia. }
  destruct e as [|k|k]; try apply B.
  unfold SFdiv_core_binary. cbv zeta.
  match goal with
  | |- context [IntDef.Z.div_eucl ?a ?b] =>
      assert (Hb : (b > 0)%Z) by (apply Z.lt_gt, Z.pow_pos_nonneg; lia);
      assert (A : (0 <= a)%Z);
      [|pose proof (Z_div_mod a b Hb) as D;
        change (IntDef.Z.div_eucl a b) with (Z.div_eucl a b);
        destruct (Z.div_eucl a b) as [q r]]
  end.
  - match goal with |- context [match ?s with _ => _ end] => destruct s end;
      try lia.
    apply Z.shiftl_nonneg. lia.
  - apply binary_round_aux_not_nan. destruct D as [D1 D2]. nia.
Qed.

(** X3: the decimal numeral of a natural number is inferred as that
    number, that is as the double nearest to it. *)
Theorem parseValue_numeral (n : N) :
  parseValue (indexKey n) = LNum (numberOfN n).
Proof.
  assert (Hd : forallb isDigit (indexKey n) = true)
    by (apply decimalDigits_digits; reflexivity).
  assert (Hne : indexKey n <> []).
  { unfold indexKey.
    destruct (decimalDigits_head (N.to_nat (N.log2 n)) n []) as [d [r [E _]]].
    rewrite E. discriminate. }
  assert (Hn : Number (indexKey n) = numberOfN n)
    by (rewrite (Number_digits _ Hne Hd); now rewrite digitsValue_indexKey).
  assert (Hb : forall w c r, w = c :: r -> isDigit c = false ->
                             jstr_eqb (toLowerCase (indexKey n)) w = false).
  { intros w c r -> Hc. destruct (indexKey n) as [|d ds]; [reflexivity|].
    cbn [forallb] in Hd. apply andb_true_iff in Hd as [Hd _].
    cbn [toLowerCase map jstr_eqb].
    assert (L : lowerUnit d = d).
    { unfold lowerUnit, isDigit in *. apply andb_true_iff in Hd as [H1 H2].
      apply N.leb_le in H1, H2.
      replace (N.leb 65 d) with false by (symmetry; apply N.leb_gt; lia).
      reflexivity. }
    rewrite L. destruct (N.eqb d c) eqn:E; [|reflexivity].
    apply N.eqb_eq in E. subst c. congruence. }
  rewrite parseValue_equation. cbv zeta. rewrite (trim_digits _ Hd).
  rewrite (Hb (js "true") _ _ eq_refl eq_refl).
  rewrite (Hb (js "false") _ _ eq_refl eq_refl).
  rewrite Hn. unfold numberOfN. now rewrite roundDecimal_not_nan.
Qed.

(** X4: white space and line terminators around a value do not change what
    is inferred from it. *)
Theorem parseValue_ignores_padding (ws1 value ws2 : jstr) :
  forallb isStrWhiteSpaceChar ws1 = true ->
  forallb isStrWhiteSpaceChar ws2 = true ->
  parseValue (ws1 ++ value ++ ws2) = parseValue value.
Proof.
  intros H1 H2. rewrite !parseValue_equation. cbv zeta.
  now rewrite (trim_padding ws1 value ws2 H1 H2).
Qed.

Lemma parseValue_ignores_padding_witness :
  (forallb isStrWhiteSpaceChar [32; 9; 160]%N = true
   /\ forallb isStrWhiteSpaceChar [13; 65279]%N = true)
  /\ parseValue ([32; 9; 160]%N ++ js "TrUe" ++ [13; 65279]%N) = parseValue (js "TrUe").
Proof.
  split; [split; reflexivity|].
  apply (parseValue_ignores_padding [32; 9; 160]%N (js "TrUe") [13; 65279]%N);
    reflexivity.
Defined.

Lemma trim_blank (v : jstr) :
  forallb isStrWhiteSpaceChar v = true -> trim v = [].
Proof.
  intro H. unfold trim. now rewrite (trimStart_all_blank v H).
Qed.

(** X5: an empty or blank piece of a comma-separated value (between two
    commas, or after a trailing comma) becomes the number [+0], and no
    inferred number is NaN, neither the value itself nor an element of an
    inferred array. *)
Theorem parseValue_blank_element_is_zero (value : jstr) :
  (forall piece, In piece (split chComma (trim value)) ->
                 forallb isStrWhiteSpaceChar piece = true ->
                 parseValue (trim piece) = LNum (S754_zero false)) /\
  (forall x, parseValue value = LNum x -> isNaN x = false) /\
  (forall elems x, parseValue value = LArr elems -> In (LNum x) elems ->
                   isNaN x = false) /\
  parseValue (js "1,2,") = LArr [LNum (numberOfN 1); LNum (numberOfN 2);
                                 LNum (S754_zero false)].
Proof.
  assert (G : forall d v x, parseValueAt d v = LNum x -> isNaN x = false).
  { intros d v x. destruct d; simpl;
      repeat match goal with
             | |- context [if ?c then _ else _] => destruct c eqn:?; try discriminate
             end;
      intro E; injection E as <-; now apply negb_true_iff. }
  split; [|split; [|split]].
  - intros piece _ Hb. rewrite parseValue_equation. cbv zeta.
    rewrite trim_idempotent, (trim_blank piece Hb). reflexivity.
  - intros x E. exact (G 1 value x E).
  - intros elems x E Hin. rewrite parseValue_equation in E. cbv zeta in E.
    repeat match type of E with
           | (if ?c then _ else _) = _ => destruct c; try discriminate
           end.
    injection E as <-. apply in_map_iff in Hin as [seg [Hseg _]].
    exact (G 1 (trim seg) x Hseg).
  - vm_compute. reflexivity.
Qed.

Lemma parseValue_blank_element_is_zero_witness :
  (In (js " ") (split chComma (trim (js "a, ,b")))
   /\ forallb isStrWhiteSpaceChar (js " ") = true)
  /\ parseValue (trim (js " ")) = LNum (S754_zero false).
Proof.
  split.
  - split; [right; left; reflexivity | reflexivity].
  - apply (proj1 (parseValue_blank_element_is_zero (js "a, ,b")) (js " "));
      [right; left; reflexivity | reflexivity].
Defined.

(** ** Lines and sections *)

Lemma split_app (sep : N) (a b : jstr) :
  split sep (a ++ sep :: b) = split sep a ++ split sep b.
Proof.
  induction a as [|c a IH]; simpl.
  - now rewrite N.eqb_refl.
  - destruct (N.eqb c sep); [now rewrite IH|].
    rewrite IH. pose proof (split_nonempty sep a) as Hn.
    destruct (split sep a); [contradiction | reflexivity].
Qed.

Lemma sectionMatch_name (t name : jstr) :
  sectionMatch t = Some name -> name <> [] /\ t = chLBracket :: name ++ [chRBracket].
Proof.
  unfold sectionMatch. destruct t as [|c r]; [discriminate|].
  destruct (rev r) as [|d m] eqn:E; [discriminate|].
  destruct (N.eqb c chLBracket && N.eqb d chRBracket
            && negb (isNil m) && allDot m)%bool eqn:C; [|discriminate].
  intro H. injection H as <-.
  repeat (apply andb_true_iff in C as [C ?]).
  apply N.eqb_eq in C. subst c.
  match goal with H : N.eqb d chRBracket = true |- _ => apply N.eqb_eq in H; subst d end.
  split.
  - destruct m; [discriminate|]. simpl. intro F.
    apply app_eq_nil in F as [_ F]. discriminate.
  - f_equal. rewrite <- (rev_involutive r), E. reflexivity.
Qed.

(** X6: under a section the path of a key is the segments of the section
    followed by the segments of the key; the name of a section header is
    never empty, so once a header has been read every later key has a path
    of two or more segments: no later line assigns a top-level key. *)
Theorem section_prefixes_every_key :
  (forall section key,
      section <> [] ->
      keyPathOf section key = split chDot section ++ split chDot key) /\
  (forall line name, classify line = SectionHeader name -> name <> []) /\
  (forall lines section,
      section <> [] ->
      Forall (fun path => 2 <= List.length path) (keyPaths section lines)).
Proof.
  assert (K : forall section key,
             section <> [] ->
             keyPathOf section key = split chDot section ++ split chDot key).
  { intros section key H. unfold keyPathOf.
    destruct section; [contradiction|]. cbn [isNil negb].
    apply split_app. }
  assert (N : forall line name, classify line = SectionHeader name -> name <> []).
  { intros line name. unfold classify.
    destruct (isNil (trim line) || startsWith chHash (trim line))%bool;
      [discriminate|].
    destruct (sectionMatch (trim line)) as [nm|] eqn:E.
    - intro H. injection H as <-. now apply sectionMatch_name in E.
    - destruct (kvMatch (trim line)) as [[k v]|]; discriminate. }
  split; [exact K|]. split; [exact N|].
  induction lines as [|line rest IH]; intros section Hs; [constructor|].
  cbn [keyPaths]. destruct (classify line) as [|name|key value] eqn:C.
  - now apply IH.
  - apply IH. eapply N; eauto.
  - constructor; [|now apply IH].
    rewrite (K section key Hs), length_app.
    pose proof (split_nonempty chDot section).
    pose proof (split_nonempty chDot key).
    destruct (split chDot section); [contradiction|].
    destruct (split chDot key); [contradiction|]. simpl. lia.
Qed.

Lemma section_prefixes_every_key_witness :
  js "github" <> []
  /\ keyPathOf (js "github") (js "commits.postToBluesky")
     = [js "github"; js "commits"; js "postToBluesky"].
Proof.
  split; [discriminate|].
  rewrite (proj1 section_prefixes_every_key (js "github") (js "commits.postToBluesky"));
    [reflexivity | discriminate].
Defined.

(** X7: a blank line and a line whose first unit after the leading white
    space is [#] change nothing: the text parses, and the configuration
    resolves, as if the line were absent. *)
Theorem comment_line_is_inert (line : jstr) :
  (isNil (trim line) || startsWith chHash (trim line))%bool = true ->
  forall content content' before after,
    split chNewline content = before ++ line :: after ->
    split chNewline content' = before ++ after ->
    (forall this h, ConfigParser.parseContent this content h
                    = ConfigParser.parseContent this content' h) /\
    (forall getFileContent getFileContent' repository filePath h,
        getFileContent (fullRepoPath repository) filePath = Content content ->
        getFileContent' (fullRepoPath repository) filePath = Content content' ->
        createConfig getFileContent repository filePath h
        = createConfig getFileContent' repository filePath h).
Proof.
  intros Hc content content' before after E E'.
  assert (L : forall configObj section h,
             ConfigParser.parseLine configObj section line h = Ok section h).
  { intros configObj section h. unfold ConfigParser.parseLine. now rewrite Hc. }
  assert (P : forall this h, ConfigParser.parseContent this content h
                             = ConfigParser.parseContent this content' h).
  { intros this h.
    unfold ConfigParser.parseContent, ConfigParser.buildConfigObj, bind, alloc.
    rewrite E, E'.
    rewrite (parseLines_skip (VRef (List.length h)) line); [reflexivity|].
    intros section h1. apply L. }
  split; [exact P|].
  intros g g' repository filePath h Eg Eg'.
  rewrite !createConfig_cases, Eg, Eg'.
  unfold ConfigParser.parseFile, tryCatch. now rewrite P.
Qed.

Lemma comment_line_is_inert_witness :
  ((isNil (trim (js "  # postToBluesky=false"))
    || startsWith chHash (trim (js "  # postToBluesky=false")))%bool = true
   /\ split chNewline (js "[github.commits]" ++ chNewline :: js "  # postToBluesky=false")
      = [js "[github.commits]"] ++ js "  # postToBluesky=false" :: []
   /\ split chNewline (js "[github.commits]") = [js "[github.commits]"] ++ [])
  /\ forall this h,
      ConfigParser.parseContent this
        (js "[github.commits]" ++ chNewline :: js "  # postToBluesky=false") h
      = ConfigParser.parseContent this (js "[github.commits]") h.
Proof.
  split.
  - repeat split; vm_compute; reflexivity.
  - apply (proj1 (comment_line_is_inert
                    (js "  # postToBluesky=false") eq_refl
                    (js "[github.commits]" ++ chNewline :: js "  # postToBluesky=false")
                    (js "[github.commits]")
                    [js "[github.commits]"] []
                    ltac:(vm_compute; reflexivity) ltac:(vm_compute; reflexivity))).
Defined.

(** ** The resolver *)

Lemma schemaParse_result (data : value) (h : heap) (r : value) (h' : heap) :
  schemaParse configSchema data h = Ok r h' ->
  exists b1 b2,
    r = VRef (3 + List.length h)
    /\ h' = h ++ [ Obj [(js "postToBluesky", VBool b1)];
                   Obj [(js "commits", VRef (List.length h))];
                   Obj [(js "enable", VBool b2)];
                   Obj [(js "github", VRef (1 + List.length h));
                        (js "stats", VRef (2 + List.length h))] ].
Proof.
  unfold schemaParse.
  destruct (validate h configSchema data) as [issues res] eqn:E.
  destruct issues as [|i issues]; [|discriminate].
  destruct res as [res|]; [|discriminate].
  apply validate_configSchema in E as [b1 [b2 ->]].
  rewrite allocValidated_configTree. intro H. injection H as <- <-.
  now exists b1, b2.
Qed.

Lemma parseContent_result (this : ConfigParser.t) (content : jstr)
      (h : heap) (r : value) (h' : heap) :
  stable h ->
  ConfigParser.parseContent this content h = Ok r h' ->
  exists merged h1, schemaParse configSchema merged h1 = Ok r h'
                    /\ prefix h h1.
Proof.
  intro S. unfold ConfigParser.parseContent. unfold bind at 1.
  pose proof (buildConfigObj_stable content h S) as B.
  destruct (ConfigParser.buildConfigObj content h) as [configObj h0|e h0|];
    try discriminate.
  simpl in B. destruct B as [_ [P0 _]].
  unfold tryCatch, bind.
  pose proof (deepMerge_grows ConfigParser.callStackLimit (VRef defaultConfig)
                              configObj h0) as G.
  destruct (ConfigParser.deepMerge _ _ _ h0) as [merged h1|e h1|]; simpl in G.
  - destruct (schemaParse configSchema merged h1) as [r1 h2|e h2|] eqn:E;
      [|destruct e; discriminate|discriminate].
    intro H. injection H as <- <-. exists merged, h1. split; [assumption|].
    destruct G as [P _]. eapply prefix_trans; eauto.
  - destruct e; discriminate.
  - discriminate.
Qed.

(** X8: what [createConfig] returns is either a newly built object, made
    of four cells allocated by the call, with the two declared settings
    and no other property, and then nothing was logged; or the shared
    [defaultConfig] object itself, and then exactly one line was logged. *)
Theorem createConfig_result_origin
        (getFileContent : jstr -> jstr -> fetched)
        (repository filePath : jstr) (h : heap)
        (config : value) (log : list logLine) (h' : heap) :
  stable h ->
  createConfig getFileContent repository filePath h = Ok (config, log) h' ->
  (log = [] /\
   exists h1 b1 b2,
     prefix h h1
     /\ config = VRef (3 + List.length h1)
     /\ h' = h1 ++ [ Obj [(js "postToBluesky", VBool b1)];
                     Obj [(js "commits", VRef (List.length h1))];
                     Obj [(js "enable", VBool b2)];
                     Obj [(js "github", VRef (1 + List.length h1));
                          (js "stats", VRef (2 + List.length h1))] ])
  \/ (config = VRef defaultConfig /\ exists line, log = [line]).
Proof.
  intros S. rewrite createConfig_cases.
  destruct (invalidRepository repository).
  { intro H. injection H as <- <- _. right. eauto. }
  destruct (getFileContent (fullRepoPath repository) filePath) as [content|e].
  2:{ intro H. injection H as <- <- _. right. eauto. }
  destruct (ConfigParser.parseFile ConfigParser.new content h) as [c h2|e h2|] eqn:E;
    [| |discriminate].
  2:{ intro H. injection H as <- <- _. right. eauto. }
  intro H. injection H as <- <- <-. left. split; [reflexivity|].
  unfold ConfigParser.parseFile, tryCatch in E.
  destruct (ConfigParser.parseContent ConfigParser.new content h)
    as [c' h3|e3 h3|] eqn:E'; try discriminate.
  injection E as <- <-.
  apply parseContent_result in E' as [merged [h1 [E' P]]]; [|assumption].
  apply schemaParse_result in E' as [b1 [b2 [-> ->]]].
  exists h1, b1, b2. auto.
Qed.

Lemma createConfig_result_origin_witness :
  exists h',
    (stable initialHeap
     /\ createConfig (fun _ _ => Content (js "stats.enable=false"))
                     (js "owner/repo") remConf initialHeap
        = Ok (VRef 11, []) h')
    /\ ((([] : list logLine) = [] /\
        exists h1 b1 b2,
          prefix initialHeap h1
          /\ VRef 11 = VRef (3 + List.length h1)
          /\ h' = h1 ++ [ Obj [(js "postToBluesky", VBool b1)];
                          Obj [(js "commits", VRef (List.length h1))];
                          Obj [(js "enable", VBool b2)];
                          Obj [(js "github", VRef (1 + List.length h1));
                               (js "stats", VRef (2 + List.length h1))] ])
       \/ (VRef 11 = VRef defaultConfig /\ exists line, ([] : list logLine) = [line])).
Proof.
  eexists. split.
  - split; [exact stable_initial | vm_compute; reflexivity].
  - apply (createConfig_result_origin
             (fun _ _ => Content (js "stats.enable=false"))
             (js "owner/repo") remConf initialHeap (VRef 11) []).
    + exact stable_initial.
    + vm_compute. reflexivity.
Defined.

(** *** The repository identifier *)

Lemma split_no_sep (sep : N) (s : jstr) :
  includes sep s = false -> split sep s = [s].
Proof.
  induction s as [|c s IH]; [reflexivity|].
  rewrite includes_cons. intro H. apply orb_false_iff in H as [Hc H].
  simpl. rewrite N.eqb_sym, Hc, (IH H). reflexivity.
Qed.

Lemma first_sep (sep : N) (s : jstr) :
  includes sep s = false
  \/ exists a b, s = a ++ sep :: b /\ includes sep a = false.
Proof.
  induction s as [|c s IH]; [now left|].
  destruct (N.eqb sep c) eqn:E.
  - apply N.eqb_eq in E. subst c. right. now exists [], s.
  - destruct IH as [IH | [a [b [-> Ha]]]].
    + left. now rewrite includes_cons, E, IH.
    + right. exists (c :: a), b. split; [reflexivity|].
      now rewrite includes_cons, E, Ha.
Qed.

(** X9: how [createConfig] reads the repository identifier.  Every text is
    of one of three forms: without [/], [owner/repo], or [owner/repo/rest]
    (with no [/] in [owner] and [repo]).  The first is rejected; the others
    are rejected exactly when [owner] or [repo] is empty; what follows a
    second [/] is ignored: the file is asked of [owner/repo].  For a
    rejected identifier the fetch capability is not consulted, and
    otherwise only at [owner/repo] and the given path. *)
Theorem repository_identifier_forms :
  (forall repository,
      includes chSlash repository = false
      \/ exists owner repo tail,
          includes chSlash owner = false /\ includes chSlash repo = false
          /\ (tail = [] \/ exists rest, tail = chSlash :: rest)
          /\ repository = owner ++ chSlash :: repo ++ tail) /\
  (forall repository,
      includes chSlash repository = false -> invalidRepository repository = true) /\
  (forall owner repo tail,
      includes chSlash owner = false -> includes chSlash repo = false ->
      tail = [] \/ (exists rest, tail = chSlash :: rest) ->
      invalidRepository (owner ++ chSlash :: repo ++ tail)
      = (isNil owner || isNil repo)%bool
      /\ fullRepoPath (owner ++ chSlash :: repo ++ tail) = owner ++ chSlash :: repo
      /\ forall getFileContent filePath h,
          createConfig getFileContent (owner ++ chSlash :: repo ++ tail) filePath h
          = createConfig getFileContent (owner ++ chSlash :: repo) filePath h) /\
  (forall g1 g2 repository filePath h,
      invalidRepository repository = true
      \/ g1 (fullRepoPath repository) filePath = g2 (fullRepoPath repository) filePath ->
      createConfig g1 repository filePath h = createConfig g2 repository filePath h).
Proof.
  assert (F : forall owner repo tail,
             includes chSlash owner = false -> includes chSlash repo = false ->
             tail = [] \/ (exists rest, tail = chSlash :: rest) ->
             exists more, split chSlash (owner ++ chSlash :: repo ++ tail)
                          = owner :: repo :: more).
  { intros owner repo tail Ho Hr Ht. rewrite split_app, (split_no_sep _ _ Ho).
    destruct Ht as [-> | [rest ->]].
    - rewrite app_nil_r, (split_no_sep _ _ Hr). now exists [].
    - rewrite split_app, (split_no_sep _ _ Hr). now exists (split chSlash rest). }
  split; [|split; [|split]].
  - intro repository.
    destruct (first_sep chSlash repository) as [H | [owner [b [-> Ho]]]]; [now left|].
    right. destruct (first_sep chSlash b) as [H | [repo [rest [-> Hr]]]].
    + exists owner, b, []. rewrite app_nil_r. auto.
    + exists owner, repo, (chSlash :: rest). repeat split; eauto.
  - intros repository H. unfold invalidRepository.
    now rewrite (split_no_sep _ _ H).
  - intros owner repo tail Ho Hr Ht.
    destruct (F owner repo tail Ho Hr Ht) as [more E].
    destruct (F owner repo [] Ho Hr (or_introl eq_refl)) as [more0 E0].
    rewrite app_nil_r in E0.
    split; [|split].
    + unfold invalidRepository. now rewrite E.
    + unfold fullRepoPath. now rewrite E.
    + intros g p h. unfold createConfig. now rewrite E, E0.
  - intros g1 g2 repository p h H. rewrite !createConfig_cases.
    destruct (invalidRepository repository); [reflexivity|].
    destruct H as [H|H]; [discriminate|]. now rewrite H.
Qed.

Lemma repository_identifier_forms_witness :
  (includes chSlash (js "owner") = false /\ includes chSlash (js "repo") = false
   /\ (js "/tree/main" = [] \/ exists rest, js "/tree/main" = chSlash :: rest))
  /\ invalidRepository (js "owner" ++ chSlash :: js "repo" ++ js "/tree/main")
     = (isNil (js "owner") || isNil (js "repo"))%bool
  /\ fullRepoPath (js "owner" ++ chSlash :: js "repo" ++ js "/tree/main")
     = js "owner" ++ chSlash :: js "repo"
  /\ forall getFileContent filePath h,
      createConfig getFileContent
                   (js "owner" ++ chSlash :: js "repo" ++ js "/tree/main") filePath h
      = createConfig getFileContent (js "owner" ++ chSlash :: js "repo") filePath h.
Proof.
  split.
  - split; [reflexivity|]. split; [reflexivity|]. right. eexists. reflexivity.
  - apply (proj1 (proj2 (proj2 repository_identifier_forms))
                 (js "owner") (js "repo") (js "/tree/main"));
      [reflexivity | reflexivity | right; eexists; reflexivity].
Defined.

(** ** The entries of a merge *)

Lemma agreeExcept_refl (o : addr) (h : heap) : agreeExcept o h h.
Proof. split; auto. Qed.

Lemma agreeExcept_trans (o : addr) (h1 h2 h3 : heap) :
  agreeExcept o h1 h2 -> agreeExcept o h2 h3 -> agreeExcept o h1 h3.
Proof.
  intros [L1 A1] [L2 A2]. split; [lia|].
  intros a La Na. rewrite A2 by (auto; lia). now apply A1.
Qed.

Lemma agreeExcept_prefix (o : addr) (h h' : heap) :
  prefix h h' -> agreeExcept o h h'.
Proof.
  intro P. split; [now apply prefix_length|].
  intros a La _. now apply prefix_nth.
Qed.

Lemma agreeExcept_update (o : addr) (h : heap) (c : cell) :
  agreeExcept o h (updateAt h o c).
Proof.
  split; [rewrite length_updateAt; lia|].
  intros a _ Na. apply nth_updateAt_other. congruence.
Qed.

Lemma mergedEntry_later (depth : nat) (tps sps : props) (h h1 h2 : heap)
      (k : jstr) (entry : option value) :
  mergedEntry depth tps sps h h1 k entry ->
  agreeExcept (List.length h) h1 h2 ->
  mergedEntry depth tps sps h h2 k entry.
Proof.
  unfold mergedEntry. intros M A.
  destruct (assoc k sps) as [[| | | |o]|]; auto.
  destruct (assoc k tps) as [tk|]; auto.
  destruct M as [m [ha [hb [P [E [L [A' ->]]]]]]].
  exists m, ha, hb. repeat split; auto.
  - apply (agreeExcept_trans _ _ _ _ A' A).
  - apply (agreeExcept_trans _ _ _ _ A' A).
Qed.

Lemma assoc_assocSet_other (key k : jstr) (v : value) (ps : props) :
  k <> key -> assoc k (assocSet key v ps) = assoc k ps.
Proof.
  intro N. induction ps as [|[x w] ps IH]; simpl.
  - destruct (jstr_eqb key k) eqn:E; [|reflexivity].
    apply jstr_eqb_eq in E. congruence.
  - destruct (jstr_eqb x key) eqn:E; simpl.
    + apply jstr_eqb_eq in E. subst x.
      destruct (jstr_eqb key k) eqn:E'; [|reflexivity].
      apply jstr_eqb_eq in E'. congruence.
    + now rewrite IH.
Qed.

Lemma In_insertIndexed_keep (x y : N * jstr) (l : list (N * jstr)) :
  y = x \/ In y l -> In y (insertIndexed x l).
Proof.
  induction l as [|z l IH]; simpl.
  - intros [->|[]]. now left.
  - destruct (N.leb (fst x) (fst z)); simpl.
    + intros [->|[->|H]]; auto.
    + intros [->|[->|H]]; auto.
Qed.

Lemma ownKeys_complete (key : jstr) (ps : props) :
  In key (map fst ps) -> In key (ownKeys ps).
Proof.
  intro H. unfold ownKeys. apply in_app_iff.
  destruct (arrayIndex key) as [n|] eqn:E.
  - left. apply in_map_iff. exists (n, key). split; [reflexivity|].
    induction (map fst ps) as [|k ks IH]; [contradiction|].
    simpl. destruct H as [->|H].
    + rewrite E. apply In_insertIndexed_keep. now left.
    + destruct (arrayIndex k); [apply In_insertIndexed_keep; right|]; now apply IH.
  - right. apply filter_In. split; [assumption|]. now rewrite E.
Qed.

Lemma assoc_keys (f : jstr -> value) (keys : list jstr) (k : jstr) :
  assoc k (map (fun x => (x, f x)) keys)
  = if existsb (fun x => jstr_eqb x k) keys then Some (f k) else None.
Proof.
  induction keys as [|x keys IH]; [reflexivity|].
  simpl. destruct (jstr_eqb x k) eqn:E; [|exact IH].
  apply jstr_eqb_eq in E. now subst x.
Qed.

Lemma assoc_key_In (k : jstr) (ps : props) (v : value) :
  assoc k ps = Some v -> In k (map fst ps).
Proof.
  induction ps as [|[x w] ps IH]; simpl; [discriminate|].
  destruct (jstr_eqb x k) eqn:E.
  - apply jstr_eqb_eq in E. now left.
  - intro H. right. now apply IH.
Qed.

(** A spread copies every own property. *)
Lemma assoc_spread (ps : props) (k : jstr) :
  assoc k (map (fun x => (x, match assoc x ps with
                             | Some v => v
                             | None => VUndefined
                             end)) (ownKeys ps))
  = assoc k ps.
Proof.
  rewrite (assoc_keys (fun x => match assoc x ps with
                                | Some v => v
                                | None => VUndefined
                                end)).
  destruct (existsb (fun x => jstr_eqb x k) (ownKeys ps)) eqn:E.
  - apply existsb_exists in E as [x [Hx Ex]]. apply jstr_eqb_eq in Ex. subst x.
    apply In_ownKeys, In_assoc in Hx as [v Hv]. now rewrite Hv.
  - destruct (assoc k ps) as [v|] eqn:Ha; [|reflexivity].
    apply assoc_key_In, ownKeys_complete in Ha.
    assert (T : existsb (fun x => jstr_eqb x k) (ownKeys ps) = true).
    { apply existsb_exists. exists k. split; [assumption | apply jstr_eqb_refl]. }
    congruence.
Qed.

Lemma setProp_obj (out : addr) (k : jstr) (v : value) (hc : heap) (ops : props)
      (h1 : heap) :
  nth_error hc out = Some (Obj ops) ->
  setProp out k v hc = Ok tt h1 ->
  h1 = updateAt hc out (Obj (assocSet k v ops)).
Proof.
  intros Ho. unfold setProp, bind, readCell. rewrite Ho.
  destruct (assoc k ops).
  - intro H. now injection H as <-.
  - destruct (inherits (Obj ops) k); [discriminate|].
    intro H. now injection H as <-.
Qed.

Lemma jstr_eq_dec (a b : jstr) : {a = b} + {a <> b}.
Proof. apply list_eq_dec, N.eq_dec. Qed.

Section MergeEntries.

Variables (depth : nat) (t s : addr) (tps sps : props) (h : heap).
Hypothesis Ht : nth_error h t = Some (Obj tps).
Hypothesis Hs : nth_error h s = Some (Obj sps).

Let out := List.length h.

Lemma mergeKey_entry (k : jstr) (hc : heap) (ops : props) (h1 : heap) :
  prefix h hc -> nth_error hc out = Some (Obj ops) ->
  (exists v, assoc k sps = Some v) ->
  ConfigParser.mergeKey (ConfigParser.deepMerge depth) (VRef t) (VRef s) out k hc
  = Ok tt h1 ->
  exists ops1,
    nth_error h1 out = Some (Obj ops1)
    /\ prefix h h1 /\ agreeExcept out hc h1
    /\ mergedEntry depth tps sps h h1 k (assoc k ops1)
    /\ forall k', k' <> k -> assoc k' ops1 = assoc k' ops.
Proof.
  intros P Ho [sk Hk].
  pose proof (nth_error_in_range _ _ _ Ht) as Lt.
  pose proof (nth_error_in_range _ _ _ Hs) as Ls.
  pose proof (nth_error_in_range _ _ _ Ho) as Lo.
  assert (Ht' : nth_error hc t = Some (Obj tps)) by (now rewrite (prefix_nth _ _ _ P)).
  assert (Hs' : nth_error hc s = Some (Obj sps)) by (now rewrite (prefix_nth _ _ _ P)).
  assert (Gs : getValue (VRef s) k hc = Ok sk hc).
  { simpl. unfold getProp, bind, readCell. rewrite Hs'. simpl. now rewrite Hk. }
  assert (W : forall v hx,
             prefix h hx -> agreeExcept out hc hx ->
             nth_error hx out = Some (Obj ops) ->
             setProp out k v hx = Ok tt h1 ->
             mergedEntry depth tps sps h (updateAt hx out (Obj (assocSet k v ops))) k
                         (Some v) ->
             exists ops1,
               nth_error h1 out = Some (Obj ops1)
               /\ prefix h h1 /\ agreeExcept out hc h1
               /\ mergedEntry depth tps sps h h1 k (assoc k ops1)
               /\ forall k', k' <> k -> assoc k' ops1 = assoc k' ops).
  { intros v hx Px Ax Hox Es M.
    pose proof (setProp_obj _ _ _ _ _ _ Hox Es) as ->.
    exists (assocSet k v ops). split; [|split; [|split; [|split]]].
    - apply nth_updateAt_same. eapply nth_error_in_range; eauto.
    - apply prefix_updateAt; [assumption | unfold out; lia].
    - eapply agreeExcept_trans; [exact Ax | apply agreeExcept_update].
    - now rewrite assoc_assocSet.
    - intros k' N. now apply assoc_assocSet_other. }
  unfold ConfigParser.mergeKey. unfold bind at 1. rewrite Gs.
  destruct sk as [| | | |o]; cbn [instanceofObject].
  1-4: intro Es; apply (W _ hc P (agreeExcept_refl _ _) Ho Es);
    unfold mergedEntry; rewrite Hk; reflexivity.
  assert (Hp : hasProperty (VRef t) k hc
               = Ok (match assoc k tps with
                     | Some _ => true
                     | None => inherits (Obj tps) k
                     end) hc).
  { simpl. unfold bind, readCell. rewrite Ht'. simpl.
    destruct (assoc k tps); reflexivity. }
  unfold bind at 1. rewrite Hp.
  destruct (assoc k tps) as [tk|] eqn:Hkt.
  - assert (Gt : getValue (VRef t) k hc = Ok tk hc).
    { simpl. unfold getProp, bind, readCell. rewrite Ht'. simpl. now rewrite Hkt. }
    unfold bind at 1. rewrite Gt. unfold bind at 1.
    pose proof (deepMerge_grows depth tk (VRef o) hc) as G.
    destruct (ConfigParser.deepMerge depth tk (VRef o) hc) as [merged h2|e h2|] eqn:Em;
      try discriminate.
    simpl in G. destruct G as [P2 [-> L2]].
    intro Es.
    assert (Ho2 : nth_error h2 out = Some (Obj ops))
      by (now rewrite (prefix_nth _ _ _ P2)).
    apply (W _ h2 (prefix_trans _ _ _ P P2) (agreeExcept_prefix _ _ _ P2) Ho2 Es).
    unfold mergedEntry. rewrite Hk, Hkt.
    exists (List.length hc), hc, h2. repeat split; auto.
    + rewrite length_updateAt. lia.
    + intros a La Na. apply nth_updateAt_other. unfold out. congruence.
  - destruct (inherits (Obj tps) k) eqn:Hi.
    + unfold bind at 1. simpl getValue. unfold getProp, bind, readCell.
      rewrite Ht'. simpl. rewrite Hkt. unfold inherits in Hi. rewrite Hi.
      discriminate.
    + intro Es. apply (W _ hc P (agreeExcept_refl _ _) Ho Es).
      unfold mergedEntry. rewrite Hk, Hkt. reflexivity.
Qed.

Lemma mergeKeys_entries (ops0 : props) (keys : list jstr) :
  forall (done : list jstr) (hc : heap) (ops : props) (h' : heap),
    prefix h hc -> nth_error hc out = Some (Obj ops) ->
    (forall k, In k keys -> exists v, assoc k sps = Some v) ->
    (forall k, In k done -> mergedEntry depth tps sps h hc k (assoc k ops)) ->
    (forall k, ~ In k done -> assoc k ops = assoc k ops0) ->
    ConfigParser.mergeKeys (ConfigParser.deepMerge depth) (VRef t) (VRef s) out keys hc
    = Ok tt h' ->
    exists ops',
      nth_error h' out = Some (Obj ops')
      /\ prefix h h'
      /\ (forall k, In k (keys ++ done) ->
                    mergedEntry depth tps sps h h' k (assoc k ops'))
      /\ (forall k, ~ In k (keys ++ done) -> assoc k ops' = assoc k ops0).
Proof.
  induction keys as [|k0 rest IH]; intros done hc ops h' P Ho Hk Hd Hn.
  - simpl. intro E. injection E as <-. exists ops. auto.
  - cbn [ConfigParser.mergeKeys]. unfold bind at 1.
    destruct (ConfigParser.mergeKey _ _ _ out k0 hc) as [u h1|e h1|] eqn:Em;
      try discriminate.
    destruct u.
    destruct (mergeKey_entry k0 hc ops h1 P Ho (Hk k0 (or_introl eq_refl)) Em)
      as [ops1 [Ho1 [P1 [A1 [M1 O1]]]]].
    intro E.
    destruct (IH (k0 :: done) h1 ops1 h' P1 Ho1) as [ops' [Ho' [P' [Md Mn]]]];
      try assumption.
    + intros k Hin. apply Hk. now right.
    + intros k [<-|Hin]; [assumption|].
      destruct (jstr_eq_dec k k0) as [->|N]; [assumption|].
      rewrite (O1 k N). eapply mergedEntry_later; eauto.
    + intros k Hin. destruct (jstr_eq_dec k k0) as [->|N].
      * exfalso. apply Hin. now left.
      * rewrite (O1 k N). apply Hn. intro Hd'. apply Hin. now right.
    + exists ops'. split; [assumption|]. split; [assumption|]. split.
      * intros k Hin. apply Md. apply in_app_iff.
        simpl in Hin. destruct Hin as [<-|Hin]; [right; now left|].
        apply in_app_iff in Hin as [Hin|Hin]; [now left | right; now right].
      * intros k Hin. apply Mn. intro H. apply Hin.
        apply in_app_iff in H as [H|[<-|H]].
        -- right. apply in_app_iff. now left.
        -- now left.
        -- right. apply in_app_iff. now right.
Qed.

End MergeEntries.

(** The entries of the merge of two objects. *)
Lemma deepMerge_object (depth : nat) (t s : addr) (tps sps : props)
        (h : heap) (r : value) (h' : heap) :
  nth_error h t = Some (Obj tps) ->
  nth_error h s = Some (Obj sps) ->
  ConfigParser.deepMerge (S depth) (VRef t) (VRef s) h = Ok r h' ->
  exists ops,
    r = VRef (List.length h)
    /\ nth_error h' (List.length h) = Some (Obj ops)
    /\ prefix h h'
    /\ forall k, mergedEntry depth tps sps h h' k (assoc k ops).
Proof.
  intros Ht Hs.
  pose proof (nth_error_in_range _ _ _ Ht) as Lt.
  pose proof (nth_error_in_range _ _ _ Hs) as Ls.
  cbn [ConfigParser.deepMerge].
  unfold bind at 1. simpl spreadProps. unfold bind at 1, readCell at 1.
  rewrite Ht. unfold ret at 1. cbn [cellProps].
  set (ops0 := map _ (ownKeys tps)).
  unfold bind at 1. unfold alloc at 1.
  unfold bind at 1. simpl forInKeys. unfold bind at 1, readCell at 1.
  rewrite nth_error_app1 by assumption. rewrite Hs. unfold ret at 1.
  cbn [cellProps]. unfold bind at 1.
  destruct (ConfigParser.mergeKeys _ _ _ _ (ownKeys sps) _) as [u h1|e h1|] eqn:Em;
    try discriminate.
  destruct u. unfold ret. intro E. injection E as <- <-.
  destruct (mergeKeys_entries depth t s tps sps h Ht Hs ops0 (ownKeys sps)
                              [] (h ++ [Obj ops0]) ops0 h1)
    as [ops' [Ho' [P' [Md Mn]]]]; try assumption.
  - apply prefix_app, prefix_refl.
  - rewrite nth_error_app2 by lia. now rewrite Nat.sub_diag.
  - intros k Hin. apply In_ownKeys, In_assoc in Hin. exact Hin.
  - intros k [].
  - reflexivity.
  - exists ops'. split; [reflexivity|]. split; [assumption|]. split; [assumption|].
    intro k. rewrite app_nil_r in Md, Mn.
    destruct (in_dec jstr_eq_dec k (ownKeys sps)) as [Hin|Hin]; [now apply Md|].
    unfold mergedEntry.
    destruct (assoc k sps) as [v|] eqn:Hk.
    + exfalso. apply Hin. eapply ownKeys_complete, assoc_key_In; eauto.
    + rewrite (Mn k Hin). apply assoc_spread.
Qed.

(** X10: what the merge of two objects holds under each key.  When
    [deepMerge] returns, its result is a new object and for every key:
    where the source has no entry, the result has the target's; where the
    source's entry is a primitive, the result has that primitive; where it
    is an object and the target lacks the key, the result refers to the
    source's object itself; and where both have the key, the result refers
    to the object returned by the recursive merge of the two entries. *)
Theorem deepMerge_entries (depth : nat) (t s : addr) (tps sps : props)
        (h : heap) (r : value) (h' : heap) :
  nth_error h t = Some (Obj tps) ->
  nth_error h s = Some (Obj sps) ->
  ConfigParser.deepMerge (S depth) (VRef t) (VRef s) h = Ok r h' ->
  exists ops,
    r = VRef (List.length h)
    /\ nth_error h' (List.length h) = Some (Obj ops)
    /\ prefix h h'
    /\ forall k, mergedEntry depth tps sps h h' k (assoc k ops).
Proof. apply deepMerge_object. Qed.

Lemma deepMerge_entries_witness :
  (nth_error bananaParsed 0
   = Some (Obj [(js "github", VRef 1); (js "stats", VRef 3)])
   /\ nth_error bananaParsed 4 = Some (Obj [(js "stats", VRef 5)])
   /\ ConfigParser.deepMerge 3 (VRef 0) (VRef 4) bananaParsed
      = Ok (VRef 6) bananaMerged)
  /\ exists ops,
      VRef 6 = VRef (List.length bananaParsed)
      /\ nth_error bananaMerged (List.length bananaParsed) = Some (Obj ops)
      /\ prefix bananaParsed bananaMerged
      /\ forall k, mergedEntry 2 [(js "github", VRef 1); (js "stats", VRef 3)]
                               [(js "stats", VRef 5)] bananaParsed bananaMerged
                               k (assoc k ops).
Proof.
  assert (E : ConfigParser.deepMerge 3 (VRef 0) (VRef 4) bananaParsed
              = Ok (VRef 6) bananaMerged) by (vm_compute; reflexivity).
  split; [split; [reflexivity | split; [reflexivity | exact E]]|].
  apply (deepMerge_entries 2 0 4 _ _ bananaParsed (VRef 6) bananaMerged
                           eq_refl eq_refl E).
Defined.

(** ** From a line of text to the configuration *)

Lemma setNestedValue_chain (path : list jstr) (v : value) :
  path <> [] -> plainPath path = true ->
  forall h,
    ConfigParser.setNestedValue (VRef (List.length h)) path v (h ++ [Obj []])
    = Ok tt (h ++ chainCells (List.length h) path v).
Proof.
  induction path as [|key rest IH]; [contradiction|].
  intros _ Hp h. simpl in Hp. apply andb_true_iff in Hp as [Hk Hp].
  apply negb_true_iff in Hk.
  destruct rest as [|k2 rest].
  - simpl ConfigParser.setNestedValue. unfold setValue.
    rewrite (setProp_fresh_key (h ++ [Obj []]) (List.length h) key v
               (nth_error_alloc_new h (Obj [])) Hk).
    rewrite updateAt_app by lia. rewrite Nat.sub_diag. reflexivity.
  - change (ConfigParser.setNestedValue (VRef (List.length h)) (key :: k2 :: rest) v)
      with (bind (ConfigParser.descend (VRef (List.length h)) key)
                 (fun current => ConfigParser.setNestedValue current (k2 :: rest) v)).
    assert (D : ConfigParser.descend (VRef (List.length h)) key (h ++ [Obj []])
                = Ok (VRef (S (List.length h)))
                     ((h ++ [Obj [(key, VRef (S (List.length h)))]]) ++ [Obj []])).
    { unfold ConfigParser.descend, getProp, bind, readCell.
      rewrite nth_error_alloc_new. simpl. unfold inherits. rewrite Hk.
      unfold ret. simpl. unfold alloc.
      rewrite (setProp_fresh_key ((h ++ [Obj []]) ++ [Obj []]) (List.length h) key).
      - rewrite length_app. cbn [List.length]. rewrite Nat.add_1_r.
        rewrite <- app_assoc. rewrite updateAt_app by lia. rewrite Nat.sub_diag.
        cbn [app updateAt]. now rewrite <- app_assoc.
      - rewrite nth_error_alloc_old by (rewrite length_app; simpl; lia).
        apply nth_error_alloc_new.
      - assumption. }
    unfold bind. rewrite D.
    pose proof (IH ltac:(discriminate) Hp
                   (h ++ [Obj [(key, VRef (S (List.length h)))]])) as E.
    rewrite length_app in E. cbn [List.length] in E. rewrite Nat.add_1_r in E.
    rewrite E. cbn [chainCells]. now rewrite <- app_assoc.
Qed.

Lemma readPath_chain (path : list jstr) (v : value) :
  path <> [] ->
  forall h,
    readPath (h ++ chainCells (List.length h) path v) (VRef (List.length h)) path
    = Some v.
Proof.
  induction path as [|key rest IH]; [contradiction|].
  intros _ h. destruct rest as [|k2 rest].
  - cbn [chainCells]. rewrite (readPath_step _ _ _ key v [] (nth_error_alloc_new h _)).
    + reflexivity.
    + simpl. now rewrite jstr_eqb_refl.
  - cbn [chainCells].
    rewrite (readPath_step _ (List.length h) (Obj [(key, VRef (S (List.length h)))])
                           key (VRef (S (List.length h)))).
    + pose proof (IH ltac:(discriminate)
                     (h ++ [Obj [(key, VRef (S (List.length h)))]])) as E.
      rewrite length_app in E. cbn [List.length] in E. rewrite Nat.add_1_r in E.
      rewrite <- app_assoc in E. exact E.
    + rewrite nth_error_app2 by lia. now rewrite Nat.sub_diag.
    + simpl. now rewrite jstr_eqb_refl.
Qed.

Lemma length_chainCells (path : list jstr) (v : value) :
  forall first, List.length (chainCells first path v) = List.length path.
Proof.
  induction path as [|key rest IH]; intro first; [reflexivity|].
  destruct rest as [|k2 rest]; [reflexivity|].
  change (chainCells first (key :: k2 :: rest) v)
    with (Obj [(key, VRef (S first))] :: chainCells (S first) (k2 :: rest) v).
  cbn [List.length]. rewrite IH. reflexivity.
Qed.

(** X11: on a new empty object [setNestedValue] builds a chain: one object
    per segment of the path, each holding the next under its segment, the
    last one holding the value; no cell allocated before is written, and
    reading the path back gives the value. *)
Theorem setNestedValue_builds_chain (path : list jstr) (v : value) (h : heap) :
  path <> [] -> plainPath path = true ->
  ConfigParser.setNestedValue (VRef (List.length h)) path v (h ++ [Obj []])
  = Ok tt (h ++ chainCells (List.length h) path v)
  /\ List.length (chainCells (List.length h) path v) = List.length path
  /\ readPath (h ++ chainCells (List.length h) path v) (VRef (List.length h)) path
     = Some v.
Proof.
  intros Hn Hp. split; [|split].
  - now apply setNestedValue_chain.
  - apply length_chainCells.
  - now apply readPath_chain.
Qed.

Lemma setNestedValue_builds_chain_witness :
  (pathPostToBluesky <> [] /\ plainPath pathPostToBluesky = true)
  /\ ConfigParser.setNestedValue (VRef 4) pathPostToBluesky (VBool false)
                                 (initialHeap ++ [Obj []])
     = Ok tt (initialHeap ++ [ Obj [(js "github", VRef 5)];
                               Obj [(js "commits", VRef 6)];
                               Obj [(js "postToBluesky", VBool false)] ]).
Proof.
  split; [split; [discriminate | reflexivity]|].
  apply (proj1 (setNestedValue_builds_chain pathPostToBluesky (VBool false) initialHeap
                  ltac:(discriminate) eq_refl)).
Defined.

(** *** The validator *)

Lemma validate_leaf (h : heap) (d : bool) (w : value)
      (i : list issue) (r : option validated) :
  validate h (ZBooleanDefault d) w = (i, r) ->
  match declared d (Some w) with
  | Some b => i = [] /\ r = Some (VdBool b)
  | None => r = None
  end.
Proof.
  destruct w; simpl; intro H; injection H as <- <-; auto.
Qed.

Lemma fieldAt_obj (h : heap) (a : addr) (ps : props) (k : jstr) (rest : list jstr) :
  nth_error h a = Some (Obj ps) ->
  fieldAt h (VRef a) (k :: rest)
  = fieldAt h (match assoc k ps with Some w => w | None => VUndefined end) rest.
Proof. intro E. destruct rest; simpl; now rewrite E. Qed.

Ltac no_object Ea :=
  let H := fresh in
  simpl; try rewrite Ea; intro H; injection H as <- <-; reflexivity.

Lemma validate_object_leaf (h : heap) (k : jstr) (d : bool) (v : value)
      (i : list issue) (r : option validated) :
  validate h (ZObjectSchema [(k, ZBooleanDefault d)]) v = (i, r) ->
  match declared d (fieldAt h v [k]) with
  | Some b => i = [] /\ r = Some (VdObject [(k, VdBool b)])
  | None => r = None
  end.
Proof.
  destruct v as [| | | |a]; try (simpl; intro H; injection H as <- <-; reflexivity).
  destruct (nth_error h a) as [[ps|len ps]|] eqn:Ea; [|no_object Ea|no_object Ea].
  rewrite (fieldAt_obj _ _ _ _ _ Ea).
  cbn [validate]. rewrite Ea. cbn [validateFields]. fold (validate h).
  set (w := match assoc k ps with Some x => x | None => VUndefined end).
  destruct (validate h (ZBooleanDefault d) w) as [i1 r1] eqn:E.
  apply validate_leaf in E.
  intro H. injection H as <- <-.
  change (fieldAt h w []) with (Some w).
  destruct (declared d (Some w)) as [b|].
  - destruct E as [-> ->]. auto.
  - now subst r1.
Qed.

Lemma validate_object_nested (h : heap) (k1 k : jstr) (d : bool) (v : value)
      (i : list issue) (r : option validated) :
  validate h (ZObjectSchema [(k1, ZObjectSchema [(k, ZBooleanDefault d)])]) v = (i, r) ->
  match declared d (fieldAt h v [k1; k]) with
  | Some b => i = [] /\ r = Some (VdObject [(k1, VdObject [(k, VdBool b)])])
  | None => r = None
  end.
Proof.
  destruct v as [| | | |a]; try (simpl; intro H; injection H as <- <-; reflexivity).
  destruct (nth_error h a) as [[ps|len ps]|] eqn:Ea; [|no_object Ea|no_object Ea].
  rewrite (fieldAt_obj _ _ _ _ _ Ea).
  cbn [validate]. rewrite Ea. cbn [validateFields]. fold (validate h).
  set (w := match assoc k1 ps with Some x => x | None => VUndefined end).
  destruct (validate h (ZObjectSchema [(k, ZBooleanDefault d)]) w) as [i1 r1] eqn:E.
  apply validate_object_leaf in E.
  intro H. injection H as <- <-.
  destruct (declared d (fieldAt h w [k])) as [b|].
  - destruct E as [-> ->]. auto.
  - now subst r1.
Qed.

Lemma validate_declared (h : heap) (data : value)
      (i : list issue) (r : option validated) :
  validate h configSchema data = (i, r) ->
  match declared true (fieldAt h data pathPostToBluesky),
        declared true (fieldAt h data pathEnable) with
  | Some b1, Some b2 => i = [] /\ r = Some (configTree b1 b2)
  | _, _ => r = None
  end.
Proof.
  unfold configSchema, pathPostToBluesky, pathEnable.
  destruct data as [| | | |a]; try (simpl; intro H; injection H as <- <-; reflexivity).
  destruct (nth_error h a) as [[ps|len ps]|] eqn:Ea; [|no_object Ea|no_object Ea].
  rewrite !(fieldAt_obj _ _ _ _ _ Ea).
  cbn [validate]. rewrite Ea. cbn [validateFields]. fold (validate h).
  set (w1 := match assoc (js "github") ps with Some x => x | None => VUndefined end).
  set (w2 := match assoc (js "stats") ps with Some x => x | None => VUndefined end).
  destruct (validate h (ZObjectSchema
                          [(js "commits",
                            ZObjectSchema [(js "postToBluesky", ZBooleanDefault true)])])
                     w1) as [i1 r1] eqn:E1.
  destruct (validate h (ZObjectSchema [(js "enable", ZBooleanDefault true)]) w2)
    as [i2 r2] eqn:E2.
  apply validate_object_nested in E1. apply validate_object_leaf in E2.
  intro H. injection H as <- <-.
  destruct (declared true (fieldAt h w1 [js "commits"; js "postToBluesky"])) as [b1|];
    destruct (declared true (fieldAt h w2 [js "enable"])) as [b2|].
  - destruct E1 as [-> ->], E2 as [-> ->]. auto.
  - destruct E1 as [-> ->]. now subst r2.
  - now subst r1.
  - now subst r1.
Qed.

Lemma schemaParse_declared (data : value) (h : heap) :
  schemaParse configSchema data h
  = match declared true (fieldAt h data pathPostToBluesky),
          declared true (fieldAt h data pathEnable) with
    | Some b1, Some b2 =>
        Ok (VRef (3 + List.length h))
           (h ++ [ Obj [(js "postToBluesky", VBool b1)];
                   Obj [(js "commits", VRef (List.length h))];
                   Obj [(js "enable", VBool b2)];
                   Obj [(js "github", VRef (1 + List.length h));
                        (js "stats", VRef (2 + List.length h))] ])
    | _, _ => Throw (ZodError (fst (validate h configSchema data))) h
    end.
Proof.
  unfold schemaParse.
  destruct (validate h configSchema data) as [i r] eqn:E.
  apply validate_declared in E.
  destruct (declared true (fieldAt h data pathPostToBluesky)) as [b1|];
    [destruct (declared true (fieldAt h data pathEnable)) as [b2|]|].
  - destruct E as [-> ->]. apply allocValidated_configTree.
  - subst r. destruct i; reflexivity.
  - subst r. destruct i; reflexivity.
Qed.

(** X12: what [configSchema.parse] makes of any data.  It reads the two
    declared paths, through ordinary objects only; when each holds a
    boolean or nothing ([undefined], or no such property) it returns a new
    object of four new cells with those booleans, [true] standing in for
    what is missing, and nothing else of the data; in every other case it
    throws, and the store is as it was. *)
Theorem schemaParse_reads_declared_paths (data : value) (h : heap) :
  schemaParse configSchema data h
  = match declared true (fieldAt h data pathPostToBluesky),
          declared true (fieldAt h data pathEnable) with
    | Some b1, Some b2 =>
        Ok (VRef (3 + List.length h))
           (h ++ [ Obj [(js "postToBluesky", VBool b1)];
                   Obj [(js "commits", VRef (List.length h))];
                   Obj [(js "enable", VBool b2)];
                   Obj [(js "github", VRef (1 + List.length h));
                        (js "stats", VRef (2 + List.length h))] ])
    | _, _ => Throw (ZodError (fst (validate h configSchema data))) h
    end.
Proof. apply schemaParse_declared. Qed.

(** *** The merge of an object of one key *)









(** ** Texts that assign the declared settings *)










(** Reading the cells of a store that was extended or updated. *)
Ltac cell :=
  repeat first
    [ rewrite length_app
    | rewrite length_updateAt
    | rewrite nth_error_app1 by (repeat rewrite length_updateAt; cbn [List.length]; lia)
    | rewrite nth_updateAt_other by lia
    | rewrite nth_updateAt_same by lia ];
  cbn [List.length];
  try solve [ assumption | reflexivity | lia
            | rewrite nth_error_app2 by (repeat rewrite length_updateAt; lia);
              repeat rewrite length_updateAt;
              match goal with
              | |- nth_error _ (?n - ?n) = _ => rewrite Nat.sub_diag; reflexivity
              | |- nth_error _ (S ?n - ?n) = _ =>
                  replace (S n - n) with 1 by lia; reflexivity
              end ].



(** *** The merge of such an object with the defaults *)

Lemma path_eqb_refl (p : list jstr) : path_eqb p p = true.
Proof.
  induction p as [|a p IH]; [reflexivity|].
  simpl. now rewrite jstr_eqb_refl, IH.
Qed.









(** *** From the text to the configuration *)








(** ** The push handler *)

Lemma getValue_readPath (h : heap) (v : value) (k : jstr) (rest : list jstr)
      (w : value) :
  readPath h v (k :: rest) = Some w ->
  exists x, getValue v k h = Ok x h /\ readPath h x rest = Some w.
Proof.
  destruct v as [| | | |a]; try discriminate.
  cbn [readPath getValue]. unfold getProp, bind, readCell.
  destruct (nth_error h a) as [c|]; [|discriminate].
  destruct (getOwn c k) as [x|]; [|discriminate].
  intro R. exists x. split; [reflexivity | exact R].
Qed.

Lemma lookedUp_app {File : Type} (a b : list (Index.event File)) :
  Index.lookedUp (a ++ b) = Index.lookedUp a ++ Index.lookedUp b.
Proof.
  induction a as [|e a IH]; [reflexivity|].
  destruct e; simpl; now rewrite IH.
Qed.

Section PushHandler.

Variable File : Type.
Variable getFileContent : jstr -> jstr -> fetched.
Variable getCommit : nat -> jstr -> jstr -> jstr -> awaited (option (list File)).
Variable getByUsername : nat -> jstr -> awaited jstr.
Variable createCommit : nat -> Index.CommitData File -> list File -> awaited unit.

Lemma lookedUp_caught (response : bool) :
  Index.lookedUp (Index.caught File response) = [].
Proof. destruct response; reflexivity. Qed.

Lemma lookedUp_processCommit (i : nat) (owner : jstr)
      (repository : Index.Repository) (commit : Index.Commit) :
  Index.lookedUp (Index.processCommit File getCommit getByUsername createCommit
      i owner repository commit)
  = [Index.commit_id commit].
Proof.
  unfold Index.processCommit. cbn [Index.lookedUp]. f_equal.
  destruct (getCommit i owner _ _) as [fs|response]; [|apply lookedUp_caught].
  destruct (Index.committer_username (Index.commit_author commit)) as [[|c r]|];
    try destruct (getByUsername i (c :: r));
    cbn [app Index.lookedUp];
    match goal with
    | |- context [createCommit ?a ?b ?c] => destruct (createCommit a b c)
    end;
    try reflexivity; apply lookedUp_caught.
Qed.

Lemma lookedUp_processCommits (owner : jstr) (repository : Index.Repository)
      (commits : list Index.Commit) :
  forall i,
    Index.lookedUp (Index.processCommits File getCommit getByUsername createCommit
      i owner repository commits)
    = map Index.commit_id commits.
Proof.
  induction commits as [|commit rest IH]; intro i; [reflexivity|].
  cbn [Index.processCommits map].
  rewrite lookedUp_app, IH.
  now rewrite (lookedUp_processCommit i owner repository commit).
Qed.

(** The three property reads of [config.github.commits.postToBluesky]. *)
Lemma read_postToBluesky (h : heap) (config w : value) (A : Type)
      (k : value -> M A) :
  readPath h config pathPostToBluesky = Some w ->
  (github <- getValue config (js "github") ;;
   github_commits <- getValue github (js "commits") ;;
   postToBluesky <- getValue github_commits (js "postToBluesky") ;;
   k postToBluesky) h
  = k w h.
Proof.
  unfold pathPostToBluesky. intro R.
  apply getValue_readPath in R as [x1 [E1 R]].
  apply getValue_readPath in R as [x2 [E2 R]].
  apply getValue_readPath in R as [x3 [E3 R]].
  injection R as ->.
  unfold bind. now rewrite E1, E2, E3.
Qed.

(** The handler once the payload names a public repository and an owner:
    what [createConfig] returns decides. *)
Lemma onPush_cases (payload : Index.Payload) (c : N) (r : jstr) (h : heap) :
  stable h ->
  Index.private (Index.payload_repository payload) = false ->
  Index.orElse (Index.login (Index.repository_owner (Index.payload_repository payload)))
               (Index.owner_name
                  (Index.repository_owner (Index.payload_repository payload)))
  = Some (c :: r) ->
  let repository := Index.payload_repository payload in
  match createConfig getFileContent
                     ((c :: r) ++ chSlash :: Index.repository_name repository)
                     remConf h with
  | Ok (config, log) h' =>
      stable h' /\ prefix h h' /\
      exists b,
        readPath h' config pathPostToBluesky = Some (VBool b)
        /\ Index.onPush File getFileContent getCommit getByUsername createCommit
      payload h
           = Ok (map (fun l => Index.Console (Index.FromCreateConfig l)) log
                 ++ if b
                    then Index.processCommits File getCommit getByUsername createCommit
      0 (c :: r) repository (Index.commits payload)
                    else [Index.Console
                            (Index.SkippingCommitPush
                               (Index.repository_name repository))])
                h'
  | Throw _ _ => False
  | Host =>
      Index.onPush File getFileContent getCommit getByUsername createCommit
      payload h = Host
      /\ exists content,
          getFileContent
            (fullRepoPath ((c :: r) ++ chSlash :: Index.repository_name repository))
            remConf = Content content
          /\ mentionsReserved content = true
  end.
Proof.
  intros S Hp Ho. cbv zeta.
  pose proof (createConfig_stable getFileContent
                ((c :: r) ++ chSlash
                   :: Index.repository_name (Index.payload_repository payload))
                remConf h S) as St.
  destruct (createConfig getFileContent _ remConf h) as [[config log] h'|e h'|] eqn:E;
    simpl in St.
  - destruct St as [S' [P' [b1 [b2 [R1 R2]]]]].
    split; [exact S'|]. split; [exact P'|]. exists b1. split; [exact R1|].
    unfold Index.onPush. rewrite Hp, Ho. unfold bind at 1. rewrite E.
    rewrite (read_postToBluesky h' config (VBool b1) _ _ R1).
    destruct b1; reflexivity.
  - contradiction.
  - split; [|exact St].
    unfold Index.onPush. rewrite Hp, Ho. unfold bind at 1. now rewrite E.
Qed.

End PushHandler.

(** X14: the push handler never throws.  For a private repository, or a
    payload without an owner, it writes one line and does nothing else:
    the store is untouched and no capability is used.  Otherwise it
    returns with the store only grown, the three reads of
    [config.github.commits.postToBluesky] finding a boolean; a run leaves
    the store only for a fetched text one of whose key paths has a
    reserved name. *)
Theorem onPush_never_throws
        (File : Type) (getFileContent : jstr -> jstr -> fetched)
        (getCommit : nat -> jstr -> jstr -> jstr -> awaited (option (list File)))
        (getByUsername : nat -> jstr -> awaited jstr)
        (createCommit : nat -> Index.CommitData File -> list File -> awaited unit)
        (payload : Index.Payload) (h : heap) :
  stable h ->
  let repository := Index.payload_repository payload in
  let owner := Index.orElse (Index.login (Index.repository_owner repository))
                            (Index.owner_name (Index.repository_owner repository)) in
  let run := Index.onPush File getFileContent getCommit getByUsername createCommit
                          payload h in
  (Index.private repository = true ->
   run = Ok [Index.Console Index.SkippingPrivateRepository] h) /\
  (Index.private repository = false -> owner = None \/ owner = Some [] ->
   run = Ok [Index.Console Index.NoOwnerFound] h) /\
  match run with
  | Ok events h' => stable h' /\ prefix h h'
  | Throw _ _ => False
  | Host =>
      exists name content,
        owner = Some name
        /\ getFileContent
             (fullRepoPath (name ++ chSlash :: Index.repository_name repository))
             remConf = Content content
        /\ mentionsReserved content = true
  end.
Proof.
  intros S. cbv zeta.
  split; [|split].
  - intro Hp. unfold Index.onPush. now rewrite Hp.
  - intros Hp [Ho|Ho]; unfold Index.onPush; now rewrite Hp, Ho.
  - destruct (Index.private (Index.payload_repository payload)) eqn:Hp.
    { unfold Index.onPush. rewrite Hp. split; [exact S | apply prefix_refl]. }
    destruct (Index.orElse _ _) as [[|c r]|] eqn:Ho.
    1,3: unfold Index.onPush; rewrite Hp, Ho; split; [exact S | apply prefix_refl].
    pose proof (onPush_cases File getFileContent getCommit getByUsername createCommit
                             payload c r h S Hp Ho) as C.
    cbv zeta in C.
    destruct (createConfig getFileContent _ remConf h) as [[config log] h'|e h'|].
    + destruct C as [S' [P' [b [_ E]]]]. rewrite E. split; assumption.
    + contradiction.
    + destruct C as [E [content [Hf Hm]]]. rewrite E.
      exists (c :: r), content. auto.
Qed.

Lemma onPush_never_throws_witness :
  stable initialHeap /\
  match Index.onPush unit (fun _ _ => Content (js "github.commits.postToBluesky=0"))
                     (fun _ _ _ _ => Failed true)
                     (fun _ _ => Failed false)
                     (fun _ _ _ => Failed false)
                     (pushOfTwo (js "repo")) initialHeap with
  | Ok events h' => stable h' /\ prefix initialHeap h'
  | Throw _ _ => False
  | Host =>
      exists name content,
        Some (js "owner") = Some name
        /\ Content (js "github.commits.postToBluesky=0") = Content content
        /\ mentionsReserved content = true
  end.
Proof.
  split; [exact stable_initial|].
  exact (proj2 (proj2 (onPush_never_throws
                unit (fun _ _ => Content (js "github.commits.postToBluesky=0"))
                (fun _ _ _ _ => Failed true)
                (fun _ _ => Failed false)
                (fun _ _ _ => Failed false)
                (pushOfTwo (js "repo")) initialHeap stable_initial))).
Defined.

(** X15: the handler fails open, and one commit does not stop the next.
    When the repository identifier made of the payload is malformed (an
    empty repository name, say) or the fetch of the file is rejected, the
    handler writes the line of [createConfig] and goes on to the commits;
    and whatever the API and [createCommit] answer, each commit of the
    payload is looked up exactly once, in the order of the payload. *)
Theorem onPush_fails_open
        (File : Type) (getFileContent : jstr -> jstr -> fetched)
        (getCommit : nat -> jstr -> jstr -> jstr -> awaited (option (list File)))
        (getByUsername : nat -> jstr -> awaited jstr)
        (createCommit : nat -> Index.CommitData File -> list File -> awaited unit)
        (payload : Index.Payload) (c : N) (r : jstr) (h : heap) :
  let repository := Index.payload_repository payload in
  let identifier := (c :: r) ++ chSlash :: Index.repository_name repository in
  let processed :=
    Index.processCommits File getCommit getByUsername createCommit
                         0 (c :: r) repository (Index.commits payload) in
  stable h ->
  Index.private repository = false ->
  Index.orElse (Index.login (Index.repository_owner repository))
               (Index.owner_name (Index.repository_owner repository))
  = Some (c :: r) ->
  invalidRepository identifier = true
  \/ (exists e, getFileContent (fullRepoPath identifier) remConf = Rejected e) ->
  (exists l,
      Index.onPush File getFileContent getCommit getByUsername createCommit payload h
      = Ok (Index.Console (Index.FromCreateConfig l) :: processed) h)
  /\ Index.lookedUp processed = map Index.commit_id (Index.commits payload).
Proof.
  cbv zeta. intros S Hp Ho Hfail.
  split; [|apply lookedUp_processCommits].
  pose proof (onPush_cases File getFileContent getCommit getByUsername createCommit
                           payload c r h S Hp Ho) as C.
  cbv zeta in C. rewrite createConfig_cases in C.
  destruct (stable_default_fields h S) as [F1 _].
  destruct (invalidRepository _) eqn:Ei.
  - destruct C as [_ [_ [b [R E]]]]. rewrite F1 in R. injection R as <-.
    eexists. exact E.
  - destruct Hfail as [Hf | [e Hf]]; [discriminate|].
    rewrite Hf in C.
    destruct C as [_ [_ [b [R E]]]]. rewrite F1 in R. injection R as <-.
    eexists. exact E.
Qed.

Lemma onPush_fails_open_witness :
  (stable initialHeap
   /\ Index.private (Index.payload_repository (pushOfTwo [])) = false
   /\ invalidRepository (js "owner" ++ chSlash :: []) = true)
  /\ (exists l,
         Index.onPush unit (fun _ _ => Content [])
           (fun i _ _ _ =>
              match i with O => Failed true | _ => Resolved None end)
           (fun _ _ => Failed false)
           (fun _ _ _ => Failed false)
           (pushOfTwo []) initialHeap
         = Ok (Index.Console (Index.FromCreateConfig l)
               :: Index.processCommits unit
                    (fun i _ _ _ =>
                       match i with O => Failed true | _ => Resolved None end)
                    (fun _ _ => Failed false)
                    (fun _ _ _ => Failed false)
                    0 (js "owner") (Index.payload_repository (pushOfTwo []))
                    (Index.commits (pushOfTwo [])))
              initialHeap)
  /\ Index.lookedUp
       (Index.processCommits unit
          (fun i _ _ _ =>
             match i with O => Failed true | _ => Resolved None end)
          (fun _ _ => Failed false)
          (fun _ _ _ => Failed false)
          0 (js "owner") (Index.payload_repository (pushOfTwo []))
          (Index.commits (pushOfTwo [])))
     = map Index.commit_id (Index.commits (pushOfTwo [])).
Proof.
  split; [split; [exact stable_initial | split; reflexivity]|].
  exact (onPush_fails_open
           unit (fun _ _ => Content [])
           (fun i _ _ _ =>
              match i with O => Failed true | _ => Resolved None end)
           (fun _ _ => Failed false)
           (fun _ _ _ => Failed false)
           (pushOfTwo []) 111%N (js "wner") initialHeap
           stable_initial eq_refl eq_refl (or_introl eq_refl)).
Defined.



(** ** The weekly statistics *)

Lemma length_incrementAt (l : list N) :
  forall i, List.length (StatsService.incrementAt i l) = List.length l.
Proof.
  induction l as [|x l IH]; intros [|i]; simpl; auto.
Qed.

Lemma sum_incrementAt (l : list N) :
  forall i, i < List.length l ->
            fold_right N.add 0%N (StatsService.incrementAt i l)
            = N.succ (fold_right N.add 0%N l).
Proof.
  induction l as [|x l IH]; intros [|i] L; simpl in *; try lia.
  rewrite IH by lia. lia.
Qed.

Lemma countCommit_counted (st : StatsService.Counters)
      (commit : StatsService.ListedCommit) :
  StatsService.counted st -> StatsService.counted (StatsService.countCommit st commit).
Proof.
  intros [L T]. unfold StatsService.countCommit.
  destruct (StatsService.dayIndex commit) as [d|]; [|now split].
  destruct (Z.leb 0 d && Z.ltb d 7)%bool eqn:G; [|now split].
  apply andb_true_iff in G as [G1 G2].
  apply Z.leb_le in G1. apply Z.ltb_lt in G2.
  split; cbn [StatsService.dailyCommits StatsService.totalCommits].
  - now rewrite length_incrementAt.
  - rewrite sum_incrementAt by lia. now rewrite T.
Qed.

Lemma countCommit_others (st : StatsService.Counters)
      (commit : StatsService.ListedCommit) :
  StatsService.activeRepos (StatsService.countCommit st commit)
  = StatsService.activeRepos st
  /\ StatsService.totalIssues (StatsService.countCommit st commit)
     = StatsService.totalIssues st
  /\ StatsService.totalPRs (StatsService.countCommit st commit)
     = StatsService.totalPRs st.
Proof.
  unfold StatsService.countCommit.
  destruct (StatsService.dayIndex commit) as [d|]; [|auto].
  destruct (Z.leb 0 d && Z.ltb d 7)%bool; auto.
Qed.

Lemma countCommits_counted (commits : list StatsService.ListedCommit) :
  forall st,
    StatsService.counted st ->
    StatsService.counted (fold_left StatsService.countCommit commits st)
    /\ StatsService.activeRepos (fold_left StatsService.countCommit commits st)
       = StatsService.activeRepos st.
Proof.
  induction commits as [|c rest IH]; intros st C; [now split|].
  cbn [fold_left].
  destruct (IH _ (countCommit_counted st c C)) as [C' A'].
  split; [exact C'|]. rewrite A'. apply countCommit_others.
Qed.

(** The two property reads of [config.stats.enable]. *)
Lemma read_enable (h : heap) (config w : value) (A : Type) (k : value -> M A) :
  readPath h config pathEnable = Some w ->
  (stats <- getValue config (js "stats") ;;
   enable <- getValue stats (js "enable") ;;
   k enable) h
  = k w h.
Proof.
  unfold pathEnable. intro R.
  apply getValue_readPath in R as [x1 [E1 R]].
  apply getValue_readPath in R as [x2 [E2 R]].
  injection R as ->.
  unfold bind. now rewrite E1, E2.
Qed.


Section StatsCallback.

Variable getFileContent : jstr -> jstr -> fetched.
Variable listCommits : nat -> jstr -> jstr -> awaited (list StatsService.ListedCommit).
Variable listForRepo : nat -> jstr -> jstr -> awaited N.
Variable pullsList : nat -> jstr -> jstr -> awaited N.

(** The callback in terms of what [createConfig] returns. *)
Lemma forRepo_cases (i : nat) (repo : StatsService.Repo)
      (st : StatsService.Counters) (h : heap) :
  stable h ->
  match createConfig getFileContent
                     (StatsService.owner_login repo
                        ++ chSlash :: StatsService.name repo)
                     remConf h with
  | Ok (config, log) h' =>
      stable h' /\ prefix h h' /\
      exists b st' events,
        readPath h' config pathEnable = Some (VBool b)
        /\ StatsService.forRepo getFileContent listCommits listForRepo pullsList
                                i repo st h
           = Ok (st', events) h'
        /\ (StatsService.counted st -> StatsService.counted st')
        /\ StatsService.activeRepos st'
           = (if (negb (StatsService.private repo) && b)%bool
              then N.succ (StatsService.activeRepos st)
              else StatsService.activeRepos st)
        /\ ((negb (StatsService.private repo) && b)%bool = false ->
            st' = st /\ events = map StatsService.Console log)
  | Throw _ _ => False
  | Host =>
      StatsService.forRepo getFileContent listCommits listForRepo pullsList
                           i repo st h = Host
      /\ exists content,
          getFileContent
            (fullRepoPath (StatsService.owner_login repo
                             ++ chSlash :: StatsService.name repo))
            remConf = Content content
          /\ mentionsReserved content = true
  end.
Proof.
  intro S.
  pose proof (createConfig_stable getFileContent
                (StatsService.owner_login repo ++ chSlash :: StatsService.name repo)
                remConf h S) as St.
  destruct (createConfig getFileContent _ remConf h) as [[config log] h'|e h'|] eqn:E;
    simpl in St.
  - destruct St as [S' [P' [b1 [b2 [R1 R2]]]]].
    split; [exact S'|]. split; [exact P'|]. exists b2.
    unfold StatsService.forRepo. rewrite E. unfold tryCatch.
    destruct (StatsService.private repo) eqn:Hp.
    { exists st, (map StatsService.Console log). cbn [negb andb]. auto 10. }
    rewrite (read_enable h' config (VBool b2) _ _ R2). cbn [truthy negb andb].
    destruct b2.
    2:{ exists st, (map StatsService.Console log). auto 10. }
    cbn [negb].
    destruct (listCommits i _ _) as [commits|r1];
      [destruct (listForRepo i _ _) as [issues|r2];
       [destruct (pullsList i _ _) as [prs|r3]|]|];
      unfold ret; do 2 eexists;
        (split; [exact R2|]); (split; [reflexivity|]);
        cbn [StatsService.activeRepos];
        try (split; [intros [L T]; split; assumption
                    | split; [reflexivity | discriminate]]).
    match goal with
    | |- context [fold_left StatsService.countCommit commits ?a] =>
        pose proof (countCommits_counted commits a) as CC
    end.
    split; [|split; [|discriminate]].
    + intros [L T]. destruct (CC (conj L T)) as [[L' T'] _]. split; assumption.
    + assert (G : forall cs a, StatsService.activeRepos
                                 (fold_left StatsService.countCommit cs a)
                               = StatsService.activeRepos a).
      { induction cs as [|c cs IH]; intro a; [reflexivity|].
        cbn [fold_left]. rewrite IH. apply countCommit_others. }
      now rewrite G.
  - contradiction.
  - split; [|exact St]. unfold StatsService.forRepo. now rewrite E.
Qed.

End StatsCallback.

(** X17: the callback of the weekly statistics for one repository never
    throws, and a run leaves the store only for a fetched text one of
    whose key paths has a reserved name.  Otherwise the callback returns:
    it resolves the configuration of the repository first, also when the
    repository is private; it counts the repository as active exactly
    when it is public and [stats.enable] of the resolved configuration is
    [true], whatever the API answers afterwards; and for a repository
    that is not counted it changes no counter and calls nothing. *)
Theorem forRepo_counts_public_enabled
        (getFileContent : jstr -> jstr -> fetched)
        (listCommits : nat -> jstr -> jstr -> awaited (list StatsService.ListedCommit))
        (listForRepo pullsList : nat -> jstr -> jstr -> awaited N)
        (i : nat) (repo : StatsService.Repo) (st : StatsService.Counters) (h : heap) :
  stable h ->
  match StatsService.forRepo getFileContent listCommits listForRepo pullsList
                             i repo st h with
  | Ok (st', events) h' =>
      stable h' /\ prefix h h'
      /\ (StatsService.counted st -> StatsService.counted st')
      /\ exists config log b,
          createConfig getFileContent
                       (StatsService.owner_login repo
                          ++ chSlash :: StatsService.name repo) remConf h
          = Ok (config, log) h'
          /\ readPath h' config pathEnable = Some (VBool b)
          /\ StatsService.activeRepos st'
             = (if (negb (StatsService.private repo) && b)%bool
                then N.succ (StatsService.activeRepos st)
                else StatsService.activeRepos st)
          /\ ((negb (StatsService.private repo) && b)%bool = false ->
              st' = st /\ events = map StatsService.Console log)
  | Throw _ _ => False
  | Host =>
      exists content,
        getFileContent
          (fullRepoPath (StatsService.owner_login repo
                           ++ chSlash :: StatsService.name repo))
          remConf = Content content
        /\ mentionsReserved content = true
  end.
Proof.
  intro S.
  pose proof (forRepo_cases getFileContent listCommits listForRepo pullsList
                            i repo st h S) as C.
  destruct (createConfig getFileContent _ remConf h) as [[config log] h'|e h'|] eqn:E.
  - destruct C as [S' [P' [b [st' [events [R [F [Cn [A Z]]]]]]]]].
    rewrite F. split; [exact S'|]. split; [exact P'|]. split; [exact Cn|].
    exists config, log, b. auto.
  - contradiction.
  - destruct C as [F X]. now rewrite F.
Qed.

Lemma forRepo_counts_public_enabled_witness :
  stable initialHeap /\
  match StatsService.forRepo (fun _ _ => Content (js "stats.enable=false"))
                             (fun _ _ _ => Failed false)
                             (fun _ _ _ => Resolved 3%N)
                             (fun _ _ _ => Resolved 1%N)
                             0 {| StatsService.owner_login := js "owner";
                                  StatsService.name := js "repo";
                                  StatsService.private := false |}
                             StatsService.initialCounters initialHeap with
  | Ok (st', events) h' =>
      stable h' /\ prefix initialHeap h'
      /\ (StatsService.counted StatsService.initialCounters -> StatsService.counted st')
      /\ exists config log b,
          createConfig (fun _ _ => Content (js "stats.enable=false"))
                       (js "owner" ++ chSlash :: js "repo") remConf initialHeap
          = Ok (config, log) h'
          /\ readPath h' config pathEnable = Some (VBool b)
          /\ StatsService.activeRepos st'
             = (if (negb false && b)%bool
                then N.succ (StatsService.activeRepos StatsService.initialCounters)
                else StatsService.activeRepos StatsService.initialCounters)
          /\ ((negb false && b)%bool = false ->
              st' = StatsService.initialCounters
              /\ events = map StatsService.Console log)
  | Throw _ _ => False
  | Host =>
      exists content,
        Content (js "stats.enable=false") = Content content
        /\ mentionsReserved content = true
  end.
Proof.
  split; [exact stable_initial|].
  exact (forRepo_counts_public_enabled
           (fun _ _ => Content (js "stats.enable=false"))
           (fun _ _ _ => Failed false)
           (fun _ _ _ => Resolved 3%N)
           (fun _ _ _ => Resolved 1%N)
           0 {| StatsService.owner_login := js "owner";
                StatsService.name := js "repo";
                StatsService.private := false |}
           StatsService.initialCounters initialHeap stable_initial).
Defined.



(** X19: the counters after the callbacks of any list of repositories.
    The callbacks never throw, and a run leaves the store only when the
    fetched text of one of the repositories has a key path with a
    reserved name.  Otherwise they return: seven days are kept, the total
    of commits is the sum of the seven days, and the number of active
    repositories grows by at most the number of repositories. *)
Theorem forRepos_counted
        (getFileContent : jstr -> jstr -> fetched)
        (listCommits : nat -> jstr -> jstr -> awaited (list StatsService.ListedCommit))
        (listForRepo pullsList : nat -> jstr -> jstr -> awaited N)
        (repos : list StatsService.Repo) :
  forall (i : nat) (st : StatsService.Counters) (h : heap),
    stable h ->
    StatsService.counted st ->
    match StatsService.forRepos getFileContent listCommits listForRepo pullsList
                                i repos st h with
    | Ok (st', events) h' =>
        stable h' /\ prefix h h'
        /\ StatsService.counted st'
        /\ (StatsService.activeRepos st <= StatsService.activeRepos st'
            <= StatsService.activeRepos st + N.of_nat (List.length repos))%N
    | Throw _ _ => False
    | Host =>
        exists repo content,
          In repo repos
          /\ getFileContent
               (fullRepoPath (StatsService.owner_login repo
                                ++ chSlash :: StatsService.name repo))
               remConf = Content content
          /\ mentionsReserved content = true
    end.
Proof.
  induction repos as [|repo rest IH]; intros i st h Hs C.
  - simpl. split; [exact Hs|]. split; [apply prefix_refl|]. split; [exact C|]. lia.
  - cbn [StatsService.forRepos]. unfold bind at 1.
    pose proof (forRepo_cases getFileContent listCommits listForRepo pullsList
                              i repo st h Hs) as F.
    destruct (createConfig getFileContent _ remConf h) as [[config log] h1|e h1|].
    + destruct F as [S1 [P1 [b [st1 [ev1 [_ [E [Cn [A _]]]]]]]]].
      rewrite E. cbn [fst snd]. unfold bind at 1.
      specialize (IH (S i) st1 h1 S1 (Cn C)).
      destruct (StatsService.forRepos _ _ _ _ (S i) rest st1 h1)
        as [[st' ev'] h'|e h'|]; [|contradiction|].
      * destruct IH as [S' [P' [C' [L1 L2]]]].
        unfold ret. cbn [fst snd].
        split; [exact S'|]. split; [eapply prefix_trans; eauto|]. split; [exact C'|].
        cbn [List.length].
        destruct (negb (StatsService.private repo) && b)%bool; lia.
      * destruct IH as [r [content [Hin [Hf Hm]]]].
        exists r, content. split; [now right | auto].
    + contradiction.
    + destruct F as [E [content [Hf Hm]]]. rewrite E.
      exists repo, content. split; [now left | auto].
Qed.

Lemma forRepos_counted_witness :
  (stable initialHeap /\ StatsService.counted StatsService.initialCounters)
  /\ match StatsService.forRepos
             (fun _ _ => Content (js "stats.enable=true"))
             (fun _ _ _ => Resolved [ {| StatsService.getTime := numberOfN 1000;
                                         StatsService.now := numberOfN 90000000 |} ])
             (fun _ _ _ => Resolved 3%N)
             (fun _ _ _ => Resolved 1%N)
             0 [ {| StatsService.owner_login := js "owner";
                    StatsService.name := js "repo";
                    StatsService.private := false |} ]
             StatsService.initialCounters initialHeap with
     | Ok (st', events) h' =>
         stable h' /\ prefix initialHeap h'
         /\ StatsService.counted st'
         /\ (StatsService.activeRepos StatsService.initialCounters
             <= StatsService.activeRepos st'
             <= StatsService.activeRepos StatsService.initialCounters
                + N.of_nat 1)%N
     | Throw _ _ => False
     | Host =>
         exists repo content,
           In repo [ {| StatsService.owner_login := js "owner";
                        StatsService.name := js "repo";
                        StatsService.private := false |} ]
           /\ Content (js "stats.enable=true") = Content content
           /\ mentionsReserved content = true
     end.
Proof.
  split; [split; [exact stable_initial | split; reflexivity]|].
  exact (forRepos_counted
           (fun _ _ => Content (js "stats.enable=true"))
           (fun _ _ _ => Resolved [ {| StatsService.getTime := numberOfN 1000;
                                       StatsService.now := numberOfN 90000000 |} ])
           (fun _ _ _ => Resolved 3%N)
           (fun _ _ _ => Resolved 1%N)
           [ {| StatsService.owner_login := js "owner";
                StatsService.name := js "repo";
                StatsService.private := false |} ]
           0 StatsService.initialCounters initialHeap
           stable_initial (conj eq_refl eq_refl)).
Defined.

(** ** Keys that the schema does not declare *)














(** ** [truncateText] *)

Lemma removelast_length {A} (l : list A) :
  List.length (removelast l) = List.length l - 1.
Proof.
  induction l as [|x l IH]; [reflexivity|].
  destruct l as [|y l]; [reflexivity|].
  change (removelast (x :: y :: l)) with (x :: removelast (y :: l)).
  cbn [List.length] in *. rewrite IH. lia.
Qed.

Lemma truncating_spec (measureText : jstr -> number) (maxWidth : number)
      (fuel : nat) :
  forall t,
    List.length t <= fuel ->
    exists kept dropped,
      t = kept ++ dropped
      /\ truncating measureText fuel maxWidth t = kept
      /\ (kept = [] \/ greater (measureText kept) maxWidth = false)
      /\ forall longer rest,
          t = longer ++ rest -> List.length kept < List.length longer ->
          greater (measureText longer) maxWidth = true.
Proof.
  induction fuel as [|f IH]; intros t L.
  - destruct t; [|simpl in L; lia].
    exists [], []. repeat split; auto.
    intros longer rest E Hl. destruct longer; [simpl in Hl; lia | discriminate].
  - cbn [truncating].
    destruct (greater (measureText t) maxWidth
              && Nat.ltb 0 (List.length t))%bool eqn:C.
    + apply andb_true_iff in C as [G N]. apply Nat.ltb_lt in N.
      assert (Ne : t <> []) by (intros ->; simpl in N; lia).
      destruct (IH (removelast t)) as [kept [dropped [E [T [F Lg]]]]].
      { rewrite removelast_length. lia. }
      exists kept, (dropped ++ [last t 0%N]).
      split; [|split; [exact T|split; [exact F|]]].
      * rewrite app_assoc, <- E. now apply app_removelast_last.
      * intros longer rest Et Hl.
        destruct rest as [|x rest].
        -- rewrite app_nil_r in Et. now subst longer.
        -- apply (Lg longer (removelast (x :: rest))); [|assumption].
           rewrite Et. apply removelast_app. discriminate.
    + exists t, []. split; [now rewrite app_nil_r|]. split; [reflexivity|]. split.
      * apply andb_false_iff in C as [C|C]; [now right|].
        apply Nat.ltb_ge in C. left. destruct t; [reflexivity | simpl in C; lia].
      * intros longer rest Et Hl. rewrite Et, length_app in Hl. lia.
Qed.

(** X21: [truncateText] keeps the longest prefix of the text that is not
    wider than [maxWidth], or nothing when no prefix fits: the text is
    returned as it is when it fits (or is empty); otherwise the result is
    that prefix followed by three dots, and every longer prefix of the
    text is too wide.  The dots are not measured, so the result itself can
    be wider than [maxWidth]. *)
Theorem truncateText_longest_fitting_prefix :
  (forall (measureText : jstr -> number) (text : jstr) (maxWidth : number),
      exists kept dropped,
        text = kept ++ dropped
        /\ truncateText measureText text maxWidth
           = (if isNil dropped then text else kept ++ js "...")
        /\ (kept = [] \/ greater (measureText kept) maxWidth = false)
        /\ forall longer rest,
            text = longer ++ rest -> List.length kept < List.length longer ->
            greater (measureText longer) maxWidth = true) /\
  (exists (measureText : jstr -> number) (text : jstr) (maxWidth : number),
      greater (measureText (truncateText measureText text maxWidth)) maxWidth = true).
Proof.
  split.
  - intros measureText text maxWidth.
    destruct (truncating_spec measureText maxWidth (List.length text) text (le_n _))
      as [kept [dropped [E [T [F Lg]]]]].
    exists kept, dropped. split; [exact E|]. split; [|split; assumption].
    unfold truncateText. cbv zeta. rewrite T.
    destruct dropped as [|x dropped].
    + rewrite app_nil_r in E. subst kept. now rewrite Nat.ltb_irrefl.
    + cbn [isNil].
      replace (Nat.ltb (List.length kept) (List.length text)) with true; [reflexivity|].
      symmetry. apply Nat.ltb_lt. rewrite E, length_app. simpl. lia.
  - exists (fun s => numberOfN (10 * N.of_nat (List.length s))), (js "abcdef"),
           (numberOfN 30).
    vm_compute. reflexivity.
Qed.

(** ** [parsePatch] *)

Lemma afterLiteral_app (w s r : jstr) :
  Push.afterLiteral w s = Some r -> s = w ++ r.
Proof.
  revert s. induction w as [|c w IH]; intros s H.
  - simpl in H. now injection H as <-.
  - destruct s as [|d s]; [discriminate|]. simpl in H.
    destruct (N.eqb d c) eqn:E; [|discriminate].
    apply N.eqb_eq in E. subst d. simpl. f_equal. now apply IH.
Qed.

Lemma afterLiteral_prefix (w r : jstr) : Push.afterLiteral w (w ++ r) = Some r.
Proof.
  induction w as [|c w IH]; [reflexivity|]. simpl. now rewrite N.eqb_refl.
Qed.

Lemma takeDigits_app (s : jstr) :
  s = fst (takeDigits s) ++ snd (takeDigits s).
Proof.
  induction s as [|c s IH]; [reflexivity|]. simpl.
  destruct (isDigit c); [|reflexivity].
  destruct (takeDigits s) as [d rest]. simpl in *. now f_equal.
Qed.

Lemma afterLiteral_unit (c : N) (r : jstr) : Push.afterLiteral [c] (c :: r) = Some r.
Proof. simpl. now rewrite N.eqb_refl. Qed.

Lemma digitRun_app (s d r : jstr) :
  Push.digitRun s = Some (d, r) -> s = d ++ r.
Proof.
  unfold Push.digitRun. intro H. pose proof (takeDigits_app s) as A.
  destruct (takeDigits s) as [[|c ds] rest]; [discriminate|].
  injection H as <- <-. exact A.
Qed.

(** The run of digits before a unit that is no digit. *)
Lemma digitRun_digits (ds : jstr) (c : N) (r : jstr) :
  ds <> [] -> forallb isDigit ds = true -> isDigit c = false ->
  Push.digitRun (ds ++ c :: r) = Some (ds, c :: r).
Proof.
  intros Hne Hd Hc. unfold Push.digitRun.
  assert (T : takeDigits (ds ++ c :: r) = (ds, c :: r)).
  { clear Hne. induction ds as [|d ds IH]; simpl.
    - now rewrite Hc.
    - cbn [forallb] in Hd. apply andb_true_iff in Hd as [H1 H2].
      now rewrite H1, (IH H2). }
  rewrite T. destruct ds; [contradiction | reflexivity].
Qed.

(** The number of commas of a text. *)
Lemma count_app (a b : jstr) :
  count_occ N.eq_dec (a ++ b) chComma
  = count_occ N.eq_dec a chComma + count_occ N.eq_dec b chComma.
Proof. apply count_occ_app. Qed.

(** A match of the pattern holds two commas. *)
Lemma hunkAt_commas (s : jstr) (m : jstr * jstr * jstr * jstr) :
  Push.hunkAt s = Some m -> 2 <= count_occ N.eq_dec s chComma.
Proof.
  unfold Push.hunkAt. intro H.
  destruct (Push.afterLiteral (js "@@ -") s) as [s1|] eqn:E1; [|discriminate].
  destruct (Push.digitRun s1) as [[a s2]|] eqn:E2; [|discriminate].
  destruct (Push.afterLiteral [chComma] s2) as [s3|] eqn:E3; [|discriminate].
  destruct (Push.digitRun s3) as [[b s4]|] eqn:E4; [|discriminate].
  destruct (Push.afterLiteral (js " +") s4) as [s5|] eqn:E5; [|discriminate].
  destruct (Push.digitRun s5) as [[c s6]|] eqn:E6; [|discriminate].
  destruct (Push.afterLiteral [chComma] s6) as [s7|] eqn:E7; [|discriminate].
  apply afterLiteral_app in E1, E3, E5, E7.
  apply digitRun_app in E2, E4, E6.
  subst s s1 s2 s3 s4 s5 s6.
  repeat rewrite count_app.
  change (count_occ N.eq_dec [chComma] chComma) with 1. lia.
Qed.

Lemma hunkMatch_commas (s : jstr) (m : jstr * jstr * jstr * jstr) :
  Push.hunkMatch s = Some m -> 2 <= count_occ N.eq_dec s chComma.
Proof.
  induction s as [|c s IH]; simpl.
  - destruct (Push.hunkAt []) eqn:E; [|discriminate].
    intros _. now apply hunkAt_commas in E.
  - destruct (Push.hunkAt (c :: s)) eqn:E.
    + intros _. apply hunkAt_commas in E. exact E.
    + intro H. apply IH in H. simpl. destruct (N.eq_dec c chComma); lia.
Qed.

Lemma indexKey_digits (n : N) :
  indexKey n <> [] /\ forallb isDigit (indexKey n) = true
  /\ Number (indexKey n) = numberOfN n.
Proof.
  assert (Hd : forallb isDigit (indexKey n) = true)
    by (apply decimalDigits_digits; reflexivity).
  assert (Hne : indexKey n <> []).
  { unfold indexKey.
    destruct (decimalDigits_head (N.to_nat (N.log2 n)) n []) as [d [r [E _]]].
    rewrite E. discriminate. }
  split; [exact Hne|]. split; [exact Hd|].
  rewrite (Number_digits _ Hne Hd). now rewrite digitsValue_indexKey.
Qed.

Lemma hunkAt_header (a b c d : N) (tail : jstr) :
  Push.hunkAt (Push.hunkHeader a b c d tail)
  = Some (indexKey a, indexKey b, indexKey c, indexKey d).
Proof.
  destruct (indexKey_digits a) as [Na [Da _]].
  destruct (indexKey_digits b) as [Nb [Db _]].
  destruct (indexKey_digits c) as [Nc [Dc _]].
  destruct (indexKey_digits d) as [Nd [Dd _]].
  unfold Push.hunkAt, Push.hunkHeader.
  rewrite afterLiteral_prefix.
  rewrite (digitRun_digits _ chComma _ Na Da eq_refl).
  rewrite afterLiteral_unit.
  change (js " +" ++ indexKey c ++ chComma :: indexKey d ++ js " @@" ++ tail)
    with (32%N :: js "+" ++ indexKey c ++ chComma :: indexKey d ++ js " @@" ++ tail).
  rewrite (digitRun_digits _ 32%N _ Nb Db eq_refl).
  change (32%N :: js "+" ++ indexKey c ++ chComma :: indexKey d ++ js " @@" ++ tail)
    with (js " +" ++ indexKey c ++ chComma :: indexKey d ++ js " @@" ++ tail).
  rewrite afterLiteral_prefix.
  rewrite (digitRun_digits _ chComma _ Nc Dc eq_refl).
  rewrite afterLiteral_unit.
  change (js " @@" ++ tail) with (32%N :: js "@@" ++ tail).
  rewrite (digitRun_digits _ 32%N _ Nd Dd eq_refl).
  change (32%N :: js "@@" ++ tail) with (js " @@" ++ tail).
  now rewrite afterLiteral_prefix.
Qed.

(** X22: a hunk header is recognised only with both line counts.  When
    the first line of the patch holds fewer than two commas, as the header
    [@@ -1 +1 @@] of a change of one line does, [parsePatch] returns no
    hunk and ranges of zero, and every other line as context with all of
    its text, the marker at its start included. *)
Theorem parsePatch_needs_both_counts (patch : jstr) :
  count_occ N.eq_dec (hd [] (split chNewline patch)) chComma < 2 ->
  Push.parsePatch patch
  = {| Push.hunk := None;
       Push.oldRange := {| Push.start := S754_zero false;
                           Push.lines := S754_zero false |};
       Push.newRange := {| Push.start := S754_zero false;
                           Push.lines := S754_zero false |};
       Push.changes := map (fun line => {| Push.type := Push.Context;
                                           Push.content := line |})
                           (tl (split chNewline patch)) |}.
Proof.
  intro H. unfold Push.parsePatch. cbv zeta.
  destruct (Push.hunkMatch (hd [] (split chNewline patch))) as [m|] eqn:E;
    [|reflexivity].
  apply hunkMatch_commas in E. lia.
Qed.

Lemma parsePatch_needs_both_counts_witness :
  count_occ N.eq_dec
    (hd [] (split chNewline (js "@@ -1 +1 @@" ++ chNewline :: js "-a"
                                ++ chNewline :: js "+b"))) chComma < 2
  /\ Push.parsePatch (js "@@ -1 +1 @@" ++ chNewline :: js "-a" ++ chNewline :: js "+b")
     = {| Push.hunk := None;
          Push.oldRange := {| Push.start := S754_zero false;
                              Push.lines := S754_zero false |};
          Push.newRange := {| Push.start := S754_zero false;
                              Push.lines := S754_zero false |};
          Push.changes :=
            map (fun line => {| Push.type := Push.Context; Push.content := line |})
                (tl (split chNewline (js "@@ -1 +1 @@" ++ chNewline :: js "-a"
                                         ++ chNewline :: js "+b"))) |}.
Proof.
  assert (H : count_occ N.eq_dec
                (hd [] (split chNewline (js "@@ -1 +1 @@" ++ chNewline :: js "-a"
                                            ++ chNewline :: js "+b"))) chComma < 2)
    by (vm_compute; lia).
  split; [exact H|].
  exact (parsePatch_needs_both_counts _ H).
Defined.

(** X23: a hunk header with its four numbers in decimal is read back.
    When the first line of the patch is [@@ -a,b +c,d @@] followed by any
    text, the hunk is that whole line, the ranges are the four numbers,
    and there is one change for each other line: its type is decided by
    the first unit of the line, and its content is the line without that
    unit, whatever the unit is. *)
Theorem parsePatch_reads_header (patch : jstr) (a b c d : N) (tail : jstr)
        (rest : list jstr) :
  split chNewline patch = Push.hunkHeader a b c d tail :: rest ->
  Push.parsePatch patch
  = {| Push.hunk := Some (Push.hunkHeader a b c d tail);
       Push.oldRange := {| Push.start := numberOfN a; Push.lines := numberOfN b |};
       Push.newRange := {| Push.start := numberOfN c; Push.lines := numberOfN d |};
       Push.changes := map Push.changeOf rest |}
  /\ Forall2 (fun line change =>
                Push.content change = tl line
                /\ (Push.type change = Push.Addition <-> startsWith Push.chPlus line = true)
                /\ (Push.type change = Push.Deletion <-> startsWith Push.chMinus line = true))
             rest (Push.changes (Push.parsePatch patch)).
Proof.
  intro E.
  assert (P : Push.parsePatch patch
              = {| Push.hunk := Some (Push.hunkHeader a b c d tail);
                   Push.oldRange := {| Push.start := numberOfN a;
                                       Push.lines := numberOfN b |};
                   Push.newRange := {| Push.start := numberOfN c;
                                       Push.lines := numberOfN d |};
                   Push.changes := map Push.changeOf rest |}).
  { unfold Push.parsePatch. cbv zeta. rewrite E. cbn [hd tl].
    assert (M : Push.hunkMatch (Push.hunkHeader a b c d tail)
                = Some (indexKey a, indexKey b, indexKey c, indexKey d)).
    { pose proof (hunkAt_header a b c d tail) as A.
      destruct (Push.hunkHeader a b c d tail); cbn [Push.hunkMatch]; now rewrite A. }
    rewrite M.
    destruct (indexKey_digits a) as [_ [_ ->]].
    destruct (indexKey_digits b) as [_ [_ ->]].
    destruct (indexKey_digits c) as [_ [_ ->]].
    destruct (indexKey_digits d) as [_ [_ ->]].
    reflexivity. }
  split; [exact P|]. rewrite P. cbn [Push.changes].
  clear. induction rest as [|line rest IH]; constructor; [|exact IH].
  unfold Push.changeOf.
  destruct (startsWith Push.chPlus line) eqn:Ep.
  - cbn. split; [reflexivity|]. split; [tauto|].
    split; [discriminate|]. intro Em.
    destruct line as [|u r]; [discriminate|]. simpl in Ep, Em.
    apply N.eqb_eq in Ep, Em. subst u. discriminate.
  - destruct (startsWith Push.chMinus line) eqn:Em; cbn.
    + split; [reflexivity|]. split; [split; discriminate | tauto].
    + split; [reflexivity|]. split; split; discriminate.
Qed.

Lemma parsePatch_reads_header_witness :
  split chNewline (js "@@ -10,2 +10,3 @@ fn main()" ++ chNewline :: js " a"
                      ++ chNewline :: js "-b" ++ chNewline :: js "+c")
  = Push.hunkHeader 10 2 10 3 (js " fn main()") :: [js " a"; js "-b"; js "+c"]
  /\ Push.parsePatch (js "@@ -10,2 +10,3 @@ fn main()" ++ chNewline :: js " a"
                         ++ chNewline :: js "-b" ++ chNewline :: js "+c")
     = {| Push.hunk := Some (Push.hunkHeader 10 2 10 3 (js " fn main()"));
          Push.oldRange := {| Push.start := numberOfN 10; Push.lines := numberOfN 2 |};
          Push.newRange := {| Push.start := numberOfN 10; Push.lines := numberOfN 3 |};
          Push.changes := map Push.changeOf [js " a"; js "-b"; js "+c"] |}.
Proof.
  assert (H : split chNewline (js "@@ -10,2 +10,3 @@ fn main()" ++ chNewline :: js " a"
                                  ++ chNewline :: js "-b" ++ chNewline :: js "+c")
              = Push.hunkHeader 10 2 10 3 (js " fn main()")
                  :: [js " a"; js "-b"; js "+c"])
    by (vm_compute; reflexivity).
  split; [exact H|].
  exact (proj1 (parsePatch_reads_header _ 10 2 10 3 (js " fn main()")
                  [js " a"; js "-b"; js "+c"] H)).
Defined.

(** ** The merge and the default configuration *)






